(** * PSI-Transformer: tree-constrained beam search and length-normalised ranking

    A shallow embedding of
    - [flccpsisrc/common/model_evaluation/beam_search/search.py]
      ([Hypothesis], [BeamSearch]),
    - [src/common/model_evaluation/evaluate_predictions.py]
      ([PredictionPostprocessor], [edit_similarity], the scoring loop of
      [evaluate]),
    - [src/psi_datapoint/psi_datapoint_facade.py] (the stateless
      transformations of [PSIDatapointFacade]),
    - [src/model_training/psi_dataset.py] ([PSIDataset]) and
    - [model_training/pl_model.py] (the token classes of the metrics of
      [PSIBasedModel]),
    followed by the properties established about them.

    Conventions of the embedding.
    - A Python/torch float is a value of [float] below: a real number or one
      of the three IEEE-754 specials.  Finite arithmetic is exact (rounding
      and overflow to infinity are not modelled); everything the decoder's
      control flow looks at (NaN, the infinities, the order of scores) is.
      [math.exp], whose result is a ranking score, is modelled with its
      underflow to [0.0] and its [OverflowError].
    - A 2-D tensor is a list of rows; a 1-D tensor is a list.
    - A method that mutates [self] takes the object and returns the new one;
      a raised exception is an explicit result that carries the state the
      object was left in.
    - The tensor the caller passes to [step] is shared with the caller, so
      [step] also returns that tensor as the caller sees it afterwards.
    - [TreeBuilder], [ChangeStatus] and [LineBreaker] live in modules that
      are not among the sources: the builder is an interface, the number of
      newline nodes a constant, both parameters of the decoder.  So is
      [torch.topk], which the decoder calls with [sorted=False]: its result
      is specified up to the order of the entries.
    - Device placement and the [print] of the beam-underflow diagnostic
      change nothing the decoder reads back and are left out.
    - The stride of the dataset's examples is decided by the rounding of
      binary64 arithmetic, so there a float is a primitive binary64 value.
    - A tensor of [torch.long] holds integers of 64 bits: building one from
      a larger Python integer raises, and a Python integer compared with
      one is brought to 64 bits first.
    - A file is the list of its lines, and an exception of the code outside
      the decoder is a [Raise] of the module's own error type. *)

From Stdlib Require Import List Arith Bool Lia Reals Lra.
From Stdlib Require Import Sorted Permutation ZArith.
From Stdlib Require String Floats.
Import ListNotations.
Import String.StringSyntax Ascii.AsciiSyntax.
Delimit Scope string_scope with string.
Delimit Scope char_scope with char.

Set Implicit Arguments.

(* ------------------------------------------------------------------ *)
(** * Floats *)

Inductive float : Type :=
| Fin (r : R)
| NegInf
| PosInf
| NaN.

(** [torch.isnan] / [math.isnan]. *)
Definition isnan (x : float) : bool :=
  match x with NaN => true | _ => false end.

Definition float_neg (x : float) : float :=
  match x with
  | Fin r => Fin (- r)
  | NegInf => PosInf
  | PosInf => NegInf
  | NaN => NaN
  end.

(** IEEE addition: NaN is absorbing, opposite infinities give NaN. *)
Definition float_add (x y : float) : float :=
  match x, y with
  | NaN, _ | _, NaN => NaN
  | PosInf, NegInf | NegInf, PosInf => NaN
  | PosInf, _ | _, PosInf => PosInf
  | NegInf, _ | _, NegInf => NegInf
  | Fin a, Fin b => Fin (a + b)
  end.

Definition float_sub (x y : float) : float := float_add x (float_neg y).

(** The exponential inside [log_softmax], on exact reals. *)
Definition float_exp (x : float) : float :=
  match x with
  | Fin r => Fin (exp r)
  | NegInf => Fin 0
  | PosInf => PosInf
  | NaN => NaN
  end.

Definition float_log (x : float) : float :=
  match x with
  | Fin r =>
      if Rlt_dec 0 r then Fin (ln r)
      else if Req_dec_T r 0 then NegInf else NaN
  | NegInf => NaN
  | PosInf => PosInf
  | NaN => NaN
  end.

(** Maximum as torch reduces it: NaN propagates. *)
Definition float_max (x y : float) : float :=
  match x, y with
  | NaN, _ | _, NaN => NaN
  | PosInf, _ | _, PosInf => PosInf
  | NegInf, z | z, NegInf => z
  | Fin a, Fin b => Fin (Rmax a b)
  end.

(** [x < y] on floats; false as soon as one side is NaN. *)
Definition float_ltb (x y : float) : bool :=
  match x, y with
  | NaN, _ | _, NaN => false
  | _, NegInf => false
  | NegInf, _ => true
  | PosInf, _ => false
  | _, PosInf => true
  | Fin a, Fin b => if Rlt_dec a b then true else false
  end.

(** Division of a float by a positive finite float [d]. *)
Definition float_div_pos (x : float) (d : R) : float :=
  match x with
  | Fin r => Fin (r / d)
  | other => other
  end.

(** [torch.nn.functional.log_softmax] along one row:
    [x - max - log (sum (exp (x - max)))]. *)
Definition log_softmax_row (row : list float) : list float :=
  let m := fold_right float_max NegInf row in
  let shifted := map (fun x => float_sub x m) row in
  let lse := float_log (fold_right float_add (Fin 0) (map float_exp shifted)) in
  map (fun x => float_sub x lse) shifted.

Definition Tensor2 : Type := list (list float).

(** [log_softmax(log_probs, dim=-1)]: a new tensor, row by row. *)
Definition log_softmax (t : Tensor2) : Tensor2 := map log_softmax_row t.

(* ------------------------------------------------------------------ *)
(** * Length normalisation *)

(** [((len_norm_base + length) / (len_norm_base + 1)) ** len_norm_pow].
    The quotient is positive for a positive base, where the float power is
    the real power [Rpower]. *)
Definition norm_factor (len_norm_base len_norm_pow : R) (length : nat) : R :=
  Rpower ((len_norm_base + INR length) / (len_norm_base + 1)) len_norm_pow.

Record Hypothesis_ (TB : Type) : Type := {
  ids : list nat;
  tree_builder : TB;
  score : float;
  is_terminated : bool
}.




(** Modelled from the spec: [TextHypothesis] is declared in
    [produce_predictions.py], which is not among the sources; a persisted
    hypothesis holds a generated string, a raw score and a length, and the
    post-processor reads the last two only. *)
Record TextHypothesis : Type := {
  prediction : String.string;
  th_score : float;
  th_length : nat
}.

Record PredictionPostprocessor : Type := {
  _len_norm_base : R;
  _len_norm_pow : R
}.

(** [PredictionPostprocessor._normalize_score]. *)
Definition _normalize_score (self : PredictionPostprocessor)
    (length : nat) (score : float) : float :=
  let norm_factor := norm_factor (_len_norm_base self) (_len_norm_pow self) length in
  float_div_pos score norm_factor.

(** A stable insertion sort, largest first, for a strict order [lt]. *)
Fixpoint insert_desc {A} (lt : A -> A -> bool) (x : A) (l : list A) : list A :=
  match l with
  | [] => [x]
  | y :: l' =>
      if lt x y then y :: insert_desc lt x l'
      else x :: l
  end.

Definition sorted_desc {A} (lt : A -> A -> bool) (l : list A) : list A :=
  fold_right (insert_desc lt) [] l.

(** [sorted(xs, key=key, reverse=True)]: stable, largest key first.  On
    keys that are totally ordered a stable sort has one possible result,
    which the insertion sort computes. *)
Definition sorted_by_key_reverse {A} (key : A -> float) (l : list A) : list A :=
  sorted_desc (fun a b => float_ltb (key a) (key b)) l.

(** [PredictionPostprocessor.get_top_k]. *)
Definition get_top_k (self : PredictionPostprocessor)
    (hypotheses : list TextHypothesis) (k : nat) : list TextHypothesis :=
  firstn k
    (sorted_by_key_reverse
       (fun h => _normalize_score self (th_length h) (th_score h))
       hypotheses).

(* ------------------------------------------------------------------ *)
(** * The structural constraint *)

(** Modelled from the spec: the enumeration [ChangeStatus] is declared in
    [tree_builder.py], which is not among the sources.  The decoder
    distinguishes [END_LINE] ("sequence complete") from every other status
    ("legal but not complete"). *)
Inductive ChangeStatus : Type :=
| END_LINE
| CONTINUES.

(** Modelled from the spec: the interface of [TreeBuilder], also declared
    in [tree_builder.py]: the legal next token ids of a state, and the
    advance by one token.  A builder is a value here, so
    [tree_builder.copy()] followed by [add_id] on the copy is one function
    from the old builder to the advanced one and the status. *)
Class TreeBuilder (T : Type) : Type := {
  get_next_possible_ids : T -> list nat;
  add_id : T -> nat -> T * ChangeStatus
}.

(* ------------------------------------------------------------------ *)
(** * Exceptions and results *)

Inductive exn : Type :=
| AssertionError
| AttributeError
| IndexError
| RuntimeError
| TypeError
| ZeroDivisionError.

Inductive res (A : Type) : Type :=
| Ok (a : A)
| Err (e : exn).
Arguments Ok {A} a.
Arguments Err {A} e.

(** What a call of [BeamSearch.step] gives back: the returned
    [Optional[Tensor]] or the exception that left it. *)
Inductive outcome : Type :=
| Returned (sort_mask : option (list nat))
| Raised (e : exn).

(* ------------------------------------------------------------------ *)
(** * List helpers for tensor indexing *)

(** [l[i] = x] for an index in range. *)
Fixpoint set_nth {A} (i : nat) (x : A) (l : list A) : list A :=
  match l, i with
  | [], _ => []
  | _ :: l', O => x :: l'
  | y :: l', S i' => y :: set_nth i' x l'
  end.

(** [t[inds]] with a list of row indices; [None] is torch's IndexError. *)
Fixpoint gather {A} (t : list A) (inds : list nat) : option (list A) :=
  match inds with
  | [] => Some []
  | i :: inds' =>
      match nth_error t i, gather t inds' with
      | Some row, Some rows => Some (row :: rows)
      | _, _ => None
      end
  end.

(** [log_probs.size(1)]. *)
Definition size1 (t : Tensor2) : nat :=
  match t with
  | [] => 0
  | row :: _ => length row
  end.

(** One row after [row[row_mask] = -inf], where [row_mask] is true outside
    [possible_ids]. *)
Definition mask_row (possible_ids : list nat) (row : list float) : list float :=
  map (fun jx => if existsb (Nat.eqb (fst jx)) possible_ids then snd jx else NegInf)
      (combine (seq 0 (length row)) row).

(** [log_probs.add_(scores.unsqueeze(1))]. *)
Definition add_scores (scores : list float) (log_probs : Tensor2) : Tensor2 :=
  map (fun sr => map (fun x => float_add x (fst sr)) (snd sr))
      (combine scores log_probs).

(** [torch.cat((hyps, samples.unsqueeze(1)), dim=1)]. *)
Definition cat_column (hyps : list (list nat)) (samples : list nat) : list (list nat) :=
  map (fun hs => fst hs ++ [snd hs]) (combine hyps samples).

(* ------------------------------------------------------------------ *)
(** * BeamSearch *)

Section BeamSearchModel.

Context {TB : Type} `{TreeBuilder TB}.

(** [LineBreaker.get_num_newline_nodes()]: a constant of a module that is
    not among the sources. *)
Variable num_newline_nodes : nat.

(** [torch.topk(flat, k, sorted=False)] as pairs [(index, value)], in the
    order the library returns them.  With [sorted=False] that order is the
    library's choice, so the selection is a parameter of the model. *)
Variable topk : list float -> nat -> list (nat * float).

Record BeamSearch : Type := {
  _vocab_size : nat;
  _beam_size : nat;
  _length : nat;
  _terminated_hypotheses : list (Hypothesis_ TB);
  _scores : option (list float);
  _hypotheses : option (list (list nat));
  _sort_mask : option (list nat);
  (** the scratch mask is overwritten before every use: only its size lives on *)
  _row_mask : option nat;
  _tree_builders : list TB;
  _is_initialized : bool;
  _samples : option (list nat)
}.

(** [BeamSearch.__init__]. *)
Definition __init__ (vocab_size beam_size : nat) (tree_builder : TB) : BeamSearch :=
  {| _vocab_size := vocab_size;
     _beam_size := beam_size;
     _length := 1;
     _terminated_hypotheses := [];
     _scores := None;
     _hypotheses := None;
     _sort_mask := None;
     _row_mask := None;
     _tree_builders := [tree_builder];
     _is_initialized := false;
     _samples := None |}.

(** [BeamSearch.terminated_hypotheses]. *)
Definition terminated_hypotheses (self : BeamSearch) : list (Hypothesis_ TB) :=
  _terminated_hypotheses self.

(** [zip(hyps, tree_builders, scores)]. *)
Fixpoint zip_hypotheses (hyps : list (list nat)) (tbs : list TB) (scores : list float)
    : list (Hypothesis_ TB) :=
  match hyps, tbs, scores with
  | hyp :: hyps', tb :: tbs', sc :: scores' =>
      {| ids := hyp; tree_builder := tb; score := sc; is_terminated := false |}
      :: zip_hypotheses hyps' tbs' scores'
  | _, _, _ => []
  end.

(** [BeamSearch.current_hypotheses]; [None] before the first step, where
    zipping over the unset tensors raises. *)
Definition current_hypotheses (self : BeamSearch) : option (list (Hypothesis_ TB)) :=
  match _hypotheses self, _scores self with
  | Some hyps, Some scores => Some (zip_hypotheses hyps (_tree_builders self) scores)
  | _, _ => None
  end.

(** [BeamSearch.batch_size]. *)
Definition batch_size (self : BeamSearch) : nat :=
  match _scores self with
  | None => 1
  | Some scores => length scores
  end.

(** [BeamSearch._init_state]. *)
Definition _init_state (self : BeamSearch) (log_probs : Tensor2) : res BeamSearch :=
  match _scores self, _hypotheses self with
  | None, None =>
      Ok {| _vocab_size := _vocab_size self;
            _beam_size := _beam_size self;
            _length := _length self;
            _terminated_hypotheses := _terminated_hypotheses self;
            _scores := Some [Fin 0];
            _hypotheses := Some [[]];
            _sort_mask := _sort_mask self;
            _row_mask := Some (size1 log_probs);
            _tree_builders := _tree_builders self;
            _is_initialized := _is_initialized self;
            _samples := _samples self |}
  | _, _ => Err AssertionError
  end.

Definition set_is_initialized (self : BeamSearch) : BeamSearch :=
  {| _vocab_size := _vocab_size self;
     _beam_size := _beam_size self;
     _length := _length self;
     _terminated_hypotheses := _terminated_hypotheses self;
     _scores := _scores self;
     _hypotheses := _hypotheses self;
     _sort_mask := _sort_mask self;
     _row_mask := _row_mask self;
     _tree_builders := _tree_builders self;
     _is_initialized := true;
     _samples := _samples self |}.

(** [BeamSearch._step_check]: the shape of [log_probs] is
    [(batch_size, vocab_size)].  A ragged list of rows is no tensor and has
    no shape, so it fails the check as well. *)
Definition _step_check (self : BeamSearch) (log_probs : Tensor2) : bool :=
  (length log_probs =? batch_size self)
  && forallb (fun row => length row =? _vocab_size self) log_probs.

(** The loop of [BeamSearch._preprocess_log_probs], from row [row_id] on.
    It writes into the caller's tensor; an index out of range stops it with
    the rows written so far. *)
Fixpoint mask_rows (row_mask : option nat) (row_id : nat) (tbs : list TB)
    (log_probs : Tensor2) : Tensor2 * option exn :=
  match tbs with
  | [] => (log_probs, None)
  | tree_builder :: rest =>
      let possible_ids := get_next_possible_ids tree_builder in
      match row_mask with
      | None => (log_probs, Some TypeError)
      | Some n =>
          if forallb (fun i => i <? n) possible_ids then
            match nth_error log_probs row_id with
            | Some row =>
                if length row =? n then
                  mask_rows row_mask (S row_id) rest
                    (set_nth row_id (mask_row possible_ids row) log_probs)
                else (log_probs, Some IndexError)
            | None => (log_probs, Some IndexError)
            end
          else (log_probs, Some IndexError)
      end
  end.

(** [BeamSearch._preprocess_log_probs]: the caller's tensor after the
    in-place writes, and the returned (fresh) log-softmax of it. *)
Definition _preprocess_log_probs (self : BeamSearch) (log_probs : Tensor2)
    : Tensor2 * res Tensor2 :=
  match mask_rows (_row_mask self) 0 (_tree_builders self) log_probs with
  | (masked, None) => (masked, Ok (log_softmax masked))
  | (masked, Some e) => (masked, Err e)
  end.

(** [self._terminated_hypotheses.append(...)], for several hypotheses in
    a row. *)
Definition append_terminated (self : BeamSearch) (hyps : list (Hypothesis_ TB))
    : BeamSearch :=
  {| _vocab_size := _vocab_size self;
     _beam_size := _beam_size self;
     _length := _length self;
     _terminated_hypotheses := _terminated_hypotheses self ++ hyps;
     _scores := _scores self;
     _hypotheses := _hypotheses self;
     _sort_mask := _sort_mask self;
     _row_mask := _row_mask self;
     _tree_builders := _tree_builders self;
     _is_initialized := _is_initialized self;
     _samples := _samples self |}.

(** [BeamSearch._save_terminated]. *)
Definition _save_terminated (self : BeamSearch) (hyp_ind sample_ind : nat)
    (score : float) (tree_builder : TB) : res BeamSearch :=
  match _hypotheses self with
  | None => Err TypeError
  | Some hyps =>
      match nth_error hyps hyp_ind with
      | None => Err IndexError
      | Some hyp_inds =>
          Ok (append_terminated self
                [ {| ids := hyp_inds ++ [sample_ind];
                     tree_builder := tree_builder;
                     score := score;
                     is_terminated := true |} ])
      end
  end.

(** The four lists [_step] fills while it scans the candidates. *)
Record Draft : Type := {
  samples : list nat;
  tree_builders : list TB;
  sort_mask : list nat;
  sample_scores : list float
}.

Definition empty_draft : Draft :=
  {| samples := []; tree_builders := []; sort_mask := []; sample_scores := [] |}.

Definition draft_append (d : Draft) (token_ind : nat) (tree_builder : TB)
    (hyp_ind : nat) (score : float) : Draft :=
  {| samples := samples d ++ [token_ind];
     tree_builders := tree_builders d ++ [tree_builder];
     sort_mask := sort_mask d ++ [hyp_ind];
     sample_scores := sample_scores d ++ [score] |}.

(** The candidate loop of [BeamSearch._step]
    ([for ind, score in zip(sorted_inds, sorted_scores)]). *)
Fixpoint dispatch (self : BeamSearch) (d : Draft) (cands : list (nat * float))
    : BeamSearch * Draft * option exn :=
  match cands with
  | [] => (self, d, None)
  | (ind, score) :: rest =>
      if isnan score then (self, d, None)
      else if _vocab_size self =? 0 then (self, d, Some ZeroDivisionError)
      else
        let hyp_ind := ind / _vocab_size self in
        let token_ind := ind mod _vocab_size self in
        match nth_error (_tree_builders self) hyp_ind with
        | None => (self, d, Some IndexError)
        | Some parent =>
            let (tree_builder, change_status) := add_id parent token_ind in
            let saved :=
              match change_status with
              | END_LINE =>
                  match _save_terminated self hyp_ind token_ind score tree_builder with
                  | Ok self' => Ok (self', d)
                  | Err e => Err e
                  end
              | _ => Ok (self, draft_append d token_ind tree_builder hyp_ind score)
              end in
            match saved with
            | Err e => (self, d, Some e)
            | Ok (self', d') =>
                if length (samples d') =? _beam_size self then (self', d', None)
                else dispatch self' d' rest
            end
        end
  end.

(** [BeamSearch._update_state]. *)
Definition _update_state (self : BeamSearch) (d : Draft) : BeamSearch * option exn :=
  let updated (hyps : option (list (list nat))) :=
    {| _vocab_size := _vocab_size self;
       _beam_size := _beam_size self;
       _length := _length self;
       _terminated_hypotheses := _terminated_hypotheses self;
       _scores := Some (sample_scores d);
       _hypotheses := hyps;
       _sort_mask := Some (sort_mask d);
       _row_mask := _row_mask self;
       _tree_builders := tree_builders d;
       _is_initialized := _is_initialized self;
       _samples := Some (samples d) |} in
  match _hypotheses self with
  | None => (updated None, Some TypeError)
  | Some hyps =>
      match gather hyps (sort_mask d) with
      | None => (updated (Some hyps), Some IndexError)
      | Some rows => (updated (Some (cat_column rows (samples d))), None)
      end
  end.

Definition incr_length (self : BeamSearch) : BeamSearch :=
  {| _vocab_size := _vocab_size self;
     _beam_size := _beam_size self;
     _length := _length self + 1;
     _terminated_hypotheses := _terminated_hypotheses self;
     _scores := _scores self;
     _hypotheses := _hypotheses self;
     _sort_mask := _sort_mask self;
     _row_mask := _row_mask self;
     _tree_builders := _tree_builders self;
     _is_initialized := _is_initialized self;
     _samples := _samples self |}.

(** The candidates [_step] scans: the log-probabilities plus the running
    scores, flattened, and the library's selection of
    [(1 + num_newline_nodes) * beam_size] of them. *)
Definition flat_scores (self : BeamSearch) (log_probs : Tensor2) : option (list float) :=
  match _scores self with
  | None => None
  | Some scores => Some (concat (add_scores scores log_probs))
  end.

Definition num_candidates (self : BeamSearch) : nat :=
  (1 + num_newline_nodes) * _beam_size self.

(** [BeamSearch._step]; [log_probs] is the tensor [_preprocess_log_probs]
    returned, which the caller never sees. *)
Definition _step (self : BeamSearch) (log_probs : Tensor2) : BeamSearch * outcome :=
  match flat_scores self log_probs with
  | None => (self, Raised AttributeError)
  | Some flat =>
      if length flat <? num_candidates self then (self, Raised RuntimeError)
      else
        match dispatch self empty_draft (topk flat (num_candidates self)) with
        | (self1, _, Some e) => (self1, Raised e)
        | (self1, d, None) =>
            match samples d with
            | [] => (self1, Returned None)
            | _ :: _ =>
                match _update_state self1 d with
                | (self2, Some e) => (self2, Raised e)
                | (self2, None) => (incr_length self2, Returned (_sort_mask self2))
                end
            end
        end
  end.

(** The lazy initialisation at the head of [step]. *)
Definition ensure_initialized (self : BeamSearch) (log_probs : Tensor2) : res BeamSearch :=
  if _is_initialized self then Ok self
  else
    match _init_state self log_probs with
    | Ok self' => Ok (set_is_initialized self')
    | Err e => Err e
    end.

(** [BeamSearch.step]: the decoder afterwards, the caller's tensor
    afterwards, and the outcome of the call. *)
Definition step (self : BeamSearch) (log_probs : Tensor2)
    : BeamSearch * Tensor2 * outcome :=
  match ensure_initialized self log_probs with
  | Err e => (self, log_probs, Raised e)
  | Ok self0 =>
      if _step_check self0 log_probs then
        match _preprocess_log_probs self0 log_probs with
        | (masked, Err e) => (self0, masked, Raised e)
        | (masked, Ok normalized) =>
            let (self', out) := _step self0 normalized in
            (self', masked, out)
        end
      else (self0, log_probs, Raised AssertionError)
  end.

(** Any sequence of calls of [step], whatever each of them gives back. *)
Fixpoint run (self : BeamSearch) (inputs : list Tensor2) : BeamSearch :=
  match inputs with
  | [] => self
  | log_probs :: rest => run (fst (fst (step self log_probs))) rest
  end.

(** How a call of [step] can go: the phases of [step] and [_step], as a
    relation between the decoder and tensor before and after. *)
Inductive step_trace (self : BeamSearch) (log_probs : Tensor2)
    : BeamSearch -> Tensor2 -> outcome -> Prop :=
| trace_init_failed e :
    ensure_initialized self log_probs = Err e ->
    step_trace self log_probs self log_probs (Raised e)
| trace_check_failed self0 :
    ensure_initialized self log_probs = Ok self0 ->
    _step_check self0 log_probs = false ->
    step_trace self log_probs self0 log_probs (Raised AssertionError)
| trace_mask_failed self0 masked e :
    ensure_initialized self log_probs = Ok self0 ->
    _step_check self0 log_probs = true ->
    mask_rows (_row_mask self0) 0 (_tree_builders self0) log_probs = (masked, Some e) ->
    step_trace self log_probs self0 masked (Raised e)
| trace_scores_unset self0 masked :
    ensure_initialized self log_probs = Ok self0 ->
    _step_check self0 log_probs = true ->
    mask_rows (_row_mask self0) 0 (_tree_builders self0) log_probs = (masked, None) ->
    _scores self0 = None ->
    step_trace self log_probs self0 masked (Raised AttributeError)
| trace_topk_failed self0 masked flat :
    ensure_initialized self log_probs = Ok self0 ->
    _step_check self0 log_probs = true ->
    mask_rows (_row_mask self0) 0 (_tree_builders self0) log_probs = (masked, None) ->
    flat_scores self0 (log_softmax masked) = Some flat ->
    length flat < num_candidates self0 ->
    step_trace self log_probs self0 masked (Raised RuntimeError)
| trace_dispatched self0 masked flat self1 d err self' out :
    ensure_initialized self log_probs = Ok self0 ->
    _step_check self0 log_probs = true ->
    mask_rows (_row_mask self0) 0 (_tree_builders self0) log_probs = (masked, None) ->
    flat_scores self0 (log_softmax masked) = Some flat ->
    num_candidates self0 <= length flat ->
    dispatch self0 empty_draft (topk flat (num_candidates self0))
      = (self1, d, err) ->
    match err with
    | Some e => self' = self1 /\ out = Raised e
    | None =>
        match samples d with
        | [] => self' = self1 /\ out = Returned None
        | _ :: _ =>
            match _update_state self1 d with
            | (self2, Some e) => self' = self2 /\ out = Raised e
            | (self2, None) =>
                self' = incr_length self2 /\ out = Returned (_sort_mask self2)
            end
        end
    end ->
    step_trace self log_probs self' masked out.

(** ** Vocabulary for the statements *)

(** The invariant of the states a session goes through: one builder per
    row of the beam, at least one row, and the score and history tensors
    set together, by the lazy initialisation. *)
Definition well_formed (self : BeamSearch) : bool :=
  (length (_tree_builders self) =? batch_size self)
  && (0 <? length (_tree_builders self))
  && match _is_initialized self, _scores self, _hypotheses self with
     | false, None, None => true
     | true, Some scores, Some hyps => length hyps =? length scores
     | _, _, _ => false
     end.

(** What the loop makes of one candidate, when all its lookups succeed:
    a terminated hypothesis (left) or one row of the next beam (right),
    as token, advanced builder, parent row and score. *)
Definition classify (self : BeamSearch) (cand : nat * float)
    : option (Hypothesis_ TB + (nat * TB * nat * float)) :=
  let hyp_ind := fst cand / _vocab_size self in
  let token_ind := fst cand mod _vocab_size self in
  match nth_error (_tree_builders self) hyp_ind with
  | None => None
  | Some parent =>
      match add_id parent token_ind with
      | (tree_builder, END_LINE) =>
          match _hypotheses self with
          | None => None
          | Some hyps =>
              match nth_error hyps hyp_ind with
              | None => None
              | Some parent_ids =>
                  Some (inl {| ids := parent_ids ++ [token_ind];
                               tree_builder := tree_builder;
                               score := snd cand;
                               is_terminated := true |})
              end
          end
      | (tree_builder, _) => Some (inr (token_ind, tree_builder, hyp_ind, snd cand))
      end
  end.

Fixpoint lefts {A B} (l : list (A + B)) : list A :=
  match l with
  | [] => []
  | inl a :: l' => a :: lefts l'
  | inr _ :: l' => lefts l'
  end.

Fixpoint rights {A B} (l : list (A + B)) : list B :=
  match l with
  | [] => []
  | inl _ :: l' => rights l'
  | inr b :: l' => b :: rights l'
  end.

(** A draft extended by rows of the next beam, in order. *)
Definition draft_extend (d : Draft) (rows : list (nat * TB * nat * float)) : Draft :=
  {| samples := samples d ++ map (fun r => fst (fst (fst r))) rows;
     tree_builders := tree_builders d ++ map (fun r => snd (fst (fst r))) rows;
     sort_mask := sort_mask d ++ map (fun r => snd (fst r)) rows;
     sample_scores := sample_scores d ++ map snd rows |}.

(** The candidates the loop of [_step] consumes, in the order of the
    selection, when [n] rows of the next beam are drafted already: the
    scan ends before a NaN score and before a candidate whose lookups fail,
    and it ends with the candidate after which the draft holds [beam_size]
    rows. *)
Fixpoint scanned (self : BeamSearch) (n : nat) (cands : list (nat * float))
    : list (nat * float) :=
  match cands with
  | [] => []
  | cand :: rest =>
      if isnan (snd cand) then []
      else if _vocab_size self =? 0 then []
      else
        match classify self cand with
        | None => []
        | Some (inl _) =>
            cand :: (if n =? _beam_size self then [] else scanned self n rest)
        | Some (inr _) =>
            cand :: (if S n =? _beam_size self then [] else scanned self (S n) rest)
        end
  end.

(** Entry [(i, j)] of a tensor. *)
Definition entry (t : Tensor2) (i j : nat) : option float :=
  match nth_error t i with
  | Some row => nth_error row j
  | None => None
  end.

(** Column [j] is a legal next token of row [i] of the beam. *)
Definition legal_column (self : BeamSearch) (i j : nat) : bool :=
  match nth_error (_tree_builders self) i with
  | Some tree_builder => existsb (Nat.eqb j) (get_next_possible_ids tree_builder)
  | None => false
  end.

End BeamSearchModel.

Arguments BeamSearch TB : clear implicits.
Arguments Draft TB : clear implicits.

(* ------------------------------------------------------------------ *)
(** * Concrete collaborators

    Instances of the two parameters of the decoder, used to run it on
    concrete inputs. *)

(** A builder with a fixed grammar: the ids in [legal] may come next, and
    an id in [terminal] completes the line. *)
Record FixedGrammar : Type := {
  legal : list nat;
  terminal : list nat
}.

#[export] Instance FixedGrammar_TreeBuilder : TreeBuilder FixedGrammar := {
  get_next_possible_ids tb := legal tb;
  add_id tb token :=
    (tb, if existsb (Nat.eqb token) (terminal tb) then END_LINE else CONTINUES)
}.

(** [enumerate(flat)]. *)
Definition enumerate {A} (l : list A) : list (nat * A) :=
  combine (seq 0 (length l)) l.

(** The order [torch.topk] and [torch.sort] use: NaN is above every
    number. *)
Definition topk_ltb (p q : nat * float) : bool :=
  match snd p, snd q with
  | NaN, _ => false
  | _, NaN => true
  | x, y => float_ltb x y
  end.

(** A selection that returns the [k] largest entries in descending order
    (what [sorted=True] would give). *)
Definition topk_sorted (flat : list float) (k : nat) : list (nat * float) :=
  firstn k (sorted_desc topk_ltb (enumerate flat)).

(** A selection that returns the same [k] entries in the order of their
    positions in [flat], as [sorted=False] allows. *)
Definition topk_by_index (flat : list float) (k : nat) : list (nat * float) :=
  filter (fun p => existsb (fun q => fst q =? fst p) (topk_sorted flat k))
         (enumerate flat).

(** What the library promises of a selection [sel] of [k] entries of
    [flat], whatever their order: [k] distinct positions of [flat] with
    their values, and no entry left out is above an entry taken. *)
Definition is_topk (flat : list float) (k : nat) (sel : list (nat * float)) : Prop :=
  length sel = k
  /\ NoDup (map fst sel)
  /\ (forall p, In p sel -> nth_error flat (fst p) = Some (snd p))
  /\ (forall p q, In p sel -> In q (enumerate flat) -> ~ In (fst q) (map fst sel) ->
        topk_ltb p q = false).

(** ** Sessions on concrete inputs *)

(** Only token 0 may come next, and nothing completes the line. *)
Definition grammar_one_legal : FixedGrammar := {| legal := [0]; terminal := [] |}.

(** No token may come next. *)
Definition grammar_none_legal : FixedGrammar := {| legal := []; terminal := [] |}.

(** Token 0 is the only legal one and completes the line. *)
Definition grammar_line_end : FixedGrammar := {| legal := [0]; terminal := [0] |}.

(** Three tokens, all legal, none completing the line. *)
Definition grammar_three_free : FixedGrammar := {| legal := [0; 1; 2]; terminal := [] |}.

(** A fresh decoder over four tokens with [beam_size = 2], where one token
    is legal, and the scores of its first call. *)
Definition starved_decoder : BeamSearch FixedGrammar := __init__ 4 2 grammar_one_legal.

Definition starved_log_probs : Tensor2 :=
  [[Fin (-1)%R; Fin (-2)%R; Fin (-3)%R; Fin (-4)%R]].

(** The same decoder after that call. *)
Definition starved_decoder_after : BeamSearch FixedGrammar :=
  {| _vocab_size := 4;
     _beam_size := 2;
     _length := 2;
     _terminated_hypotheses := [];
     _scores := Some [Fin (0 + 0)%R; NegInf];
     _hypotheses := Some [[0]; [1]];
     _sort_mask := Some [0; 0];
     _row_mask := Some 4;
     _tree_builders := [grammar_one_legal; grammar_one_legal];
     _is_initialized := true;
     _samples := Some [0; 1] |}.

(** A fresh decoder over two tokens with [beam_size = 1], where no token is
    legal, and the same decoder once initialised. *)
Definition exhausted_decoder : BeamSearch FixedGrammar := __init__ 2 1 grammar_none_legal.

Definition exhausted_decoder_after : BeamSearch FixedGrammar :=
  {| _vocab_size := 2;
     _beam_size := 1;
     _length := 1;
     _terminated_hypotheses := [];
     _scores := Some [Fin 0%R];
     _hypotheses := Some [[]];
     _sort_mask := None;
     _row_mask := Some 2;
     _tree_builders := [grammar_none_legal];
     _is_initialized := true;
     _samples := None |}.

Definition two_log_probs : Tensor2 := [[Fin (-1)%R; Fin (-2)%R]].

(** A fresh decoder over two tokens with [beam_size = 1], where token 0
    completes the line, and the same decoder after its first call. *)
Definition line_end_decoder : BeamSearch FixedGrammar := __init__ 2 1 grammar_line_end.

Definition line_end_decoder_after : BeamSearch FixedGrammar :=
  {| _vocab_size := 2;
     _beam_size := 1;
     _length := 2;
     _terminated_hypotheses :=
       [ {| ids := [0]; tree_builder := grammar_line_end;
            score := Fin (0 + 0)%R; is_terminated := true |} ];
     _scores := Some [NegInf];
     _hypotheses := Some [[1]];
     _sort_mask := Some [0];
     _row_mask := Some 2;
     _tree_builders := [grammar_line_end];
     _is_initialized := true;
     _samples := Some [1] |}.

(** A fresh decoder over three tokens with [beam_size = 1], all tokens
    legal, and scores whose largest entry is in the middle. *)
Definition free_decoder : BeamSearch FixedGrammar := __init__ 3 1 grammar_three_free.

Definition free_log_probs : Tensor2 := [[Fin (-2)%R; Fin (-1)%R; Fin (-3)%R]].

(** The log-sum-exp of that row, and the three running scores it yields. *)
Definition free_lse : R :=
  ln (exp (-2 + - Rmax (-2) (Rmax (-1) (-3)))
      + (exp (-1 + - Rmax (-2) (Rmax (-1) (-3)))
         + (exp (-3 + - Rmax (-2) (Rmax (-1) (-3))) + 0)))%R.

Definition free_score (x : R) : float :=
  Fin (x + - Rmax (-2) (Rmax (-1) (-3)) + - free_lse + 0)%R.

(** That decoder after its first call, committed to [token] with running
    score [score]. *)
Definition free_decoder_after (token : nat) (score : float) : BeamSearch FixedGrammar :=
  {| _vocab_size := 3;
     _beam_size := 1;
     _length := 2;
     _terminated_hypotheses := [];
     _scores := Some [score];
     _hypotheses := Some [[token]];
     _sort_mask := Some [0];
     _row_mask := Some 3;
     _tree_builders := [grammar_three_free];
     _is_initialized := true;
     _samples := Some [token] |}.

(** The flattened running scores of that call. *)
Definition free_flat : list float :=
  [free_score (-2)%R; free_score (-1)%R; free_score (-3)%R].

(* ------------------------------------------------------------------ *)
(** * More of [BeamSearch] *)

Section BeamSearchAccessors.

Context {TB : Type}.

(** [hyps.size(1)] of the history tensor. *)
Definition history_length (hyps : list (list nat)) : nat :=
  match hyps with
  | [] => 0
  | row :: _ => length row
  end.

(** [BeamSearch.last_predictions]: the last column of the history, under
    the assertion that there is one. *)
Definition last_predictions (self : BeamSearch TB) : res (list nat) :=
  match _hypotheses self with
  | None => Err AssertionError
  | Some hyps =>
      if 0 <? history_length hyps then Ok (map (fun row => last row 0) hyps)
      else Err AssertionError
  end.

(** Lock-step advance: every row of the history holds [_length - 1] tokens,
    and a terminated hypothesis holds between one and [_length] tokens. *)
Definition lockstep (self : BeamSearch TB) : bool :=
  match _hypotheses self with
  | None => _length self =? 1
  | Some hyps => forallb (fun row => S (length row) =? _length self) hyps
  end
  && forallb (fun h => (1 <=? length (ids h)) && (length (ids h) <=? _length self))
             (_terminated_hypotheses self).

(** The decoder as the lazy initialisation at the head of [step] leaves
    it. *)
Definition started (self : BeamSearch TB) (log_probs : Tensor2) : BeamSearch TB :=
  match ensure_initialized self log_probs with
  | Ok self0 => self0
  | Err _ => self
  end.

End BeamSearchAccessors.

(** A selection in descending order, in the order of [torch.topk]: no entry
    is below a later one. *)
Definition descending (cands : list (nat * float)) : Prop :=
  StronglySorted (fun p q => topk_ltb p q = false) cands.

(* ------------------------------------------------------------------ *)
(** * Results of the code outside the decoder *)

(** A value returned or an exception raised, for an exception type [E]. *)
Inductive result (E A : Type) : Type :=
| Return (a : A)
| Raise (e : E).
Arguments Return {E A} a.
Arguments Raise {E A} e.

(** Sequencing, as Python evaluates left to right and stops at the first
    exception. *)
Definition bind {E A B} (x : result E A) (f : A -> result E B) : result E B :=
  match x with
  | Return a => f a
  | Raise e => Raise e
  end.

(** A comprehension [[f(x) for x in xs]] whose body may raise. *)
Fixpoint for_each {E A B} (f : A -> result E B) (xs : list A) : result E (list B) :=
  match xs with
  | [] => Return []
  | x :: xs' => bind (f x) (fun y => bind (for_each f xs') (fun ys => Return (y :: ys)))
  end.

(* ------------------------------------------------------------------ *)
(** * evaluate_predictions.py: edit similarity at k *)

Module Evaluation.

Inductive error : Type :=
| ValueError
| ZeroDivisionError.

(** Modelled from the spec: [Prediction] is declared in
    [produce_predictions.py], which is not among the sources; a persisted
    prediction holds a target string and a list of hypotheses. *)
Record Prediction : Type := {
  hypotheses : list TextHypothesis;
  target : String.string
}.

(** [s.replace(" ", "")]. *)
Fixpoint remove_spaces (s : String.string) : String.string :=
  match s with
  | String.EmptyString => String.EmptyString
  | String.String c s' =>
      if Ascii.eqb c " "%char then remove_spaces s'
      else String.String c (remove_spaces s')
  end.

(** Python's [max] over the rest of a sequence, [best] being the largest
    item so far: a later item replaces it when it is greater. *)
Fixpoint max_from (best : float) (xs : list float) : float :=
  match xs with
  | [] => best
  | x :: xs' => max_from (if float_ltb best x then x else best) xs'
  end.

Section WithEditDistance.

(** [editdistance.eval] of the library [editdistance]. *)
Variable editdistance_eval : String.string -> String.string -> nat.

(** [edit_similarity]. *)
Definition edit_similarity (a b : String.string) : result error float :=
  let a := remove_spaces a in
  let b := remove_spaces b in
  let dist := editdistance_eval a b in
  let longest := Nat.max (String.length a) (String.length b) in
  if longest =? 0 then Raise ZeroDivisionError
  else Return (Fin ((1 - INR dist / INR longest) * 100)).

(** The body of the loop over predictions in [evaluate]:
    [max(edit_similarity(h.prediction, prediction.target) for h in hyps)]
    over the top [k] hypotheses. *)
Definition evaluate_score (postprocessor : PredictionPostprocessor)
    (pred : Prediction) (k : nat) : result error float :=
  let hyps := get_top_k postprocessor (hypotheses pred) k in
  bind (for_each (fun h => edit_similarity (prediction h) (target pred)) hyps)
       (fun similarities =>
          match similarities with
          | [] => Raise ValueError
          | x :: xs => Return (max_from x xs)
          end).

(** The scores [evaluate] collects for one [k], before it prints their
    mean and deviation. *)
Definition evaluate_scores (postprocessor : PredictionPostprocessor)
    (predictions : list Prediction) (k : nat) : result error (list float) :=
  for_each (fun pred => evaluate_score postprocessor pred k) predictions.

End WithEditDistance.

(** The Levenshtein distance on strings, by the recursion that defines it;
    [editdistance] computes the same number. *)
Fixpoint levenshtein (a : String.string) : String.string -> nat :=
  fix inner (b : String.string) : nat :=
    match a, b with
    | String.EmptyString, _ => String.length b
    | _, String.EmptyString => String.length a
    | String.String x a', String.String y b' =>
        if Ascii.eqb x y then levenshtein a' b'
        else S (Nat.min (levenshtein a' b) (Nat.min (inner b') (levenshtein a' b')))
    end.

End Evaluation.

(* ------------------------------------------------------------------ *)
(** * psi_datapoint_facade.py: the stateless transformations *)

Module Facade.

Section Transformations.

(** [Node] is declared in [tree_structures/node.py], which is not among
    the sources. *)
Variable Node : Type.

(** What the facade asks of a transformation class: [transform] and
    [inverse_transform] on a list of nodes. *)
Record Transformation : Type := {
  transform : list Node -> list Node;
  inverse_transform : list Node -> list Node
}.

(** [name in self._config.psi_pretraining.transformations]. *)
Definition enabled (config_transformations : list String.string) (name : String.string)
    : bool :=
  existsb (String.eqb name) config_transformations.

(** [PSIDatapointFacade._apply_transformations], over the module's table
    [TRANSFORMATIONS] of named transformation classes (in the source it has
    one entry, [ChildrenAmountNormalizer]). *)
Definition _apply_transformations
    (TRANSFORMATIONS : list (String.string * Transformation))
    (config_transformations : list String.string) (nodes : list Node) : list Node :=
  fold_left
    (fun nodes entry =>
       if enabled config_transformations (fst entry) then transform (snd entry) nodes
       else nodes)
    TRANSFORMATIONS nodes.

(** [PSIDatapointFacade._inverse_apply_transformations]. *)
Definition _inverse_apply_transformations
    (TRANSFORMATIONS : list (String.string * Transformation))
    (config_transformations : list String.string) (nodes : list Node) : list Node :=
  fold_left
    (fun nodes entry =>
       if enabled config_transformations (fst entry) then inverse_transform (snd entry) nodes
       else nodes)
    (rev TRANSFORMATIONS) nodes.

End Transformations.

End Facade.

(* ------------------------------------------------------------------ *)
(** * psi_dataset.py *)

Module Dataset.

Inductive error : Type :=
| AssertionError
| OverflowError
| RuntimeError
| ValueError
| ZeroDivisionError.

(** ** Python numbers

    Integers are unbounded ([Z]); a float is an IEEE-754 binary64 value
    ([PrimFloat.float]) and its arithmetic is the hardware's.  The entries
    of a tensor of [torch.long] are the integers of 64 bits. *)

(** The values of [torch.long]. *)
Definition in_int64 (z : Z) : bool := (- 2 ^ 63 <=? z)%Z && (z <? 2 ^ 63)%Z.

(** [torch.tensor(values, dtype=torch.long)]: [RuntimeError] (overflow when
    unpacking) as soon as one value is beyond 64 bits. *)
Definition long_tensor (values : list Z) : result error (list Z) :=
  if forallb in_int64 values then Return values else Raise RuntimeError.

(** The implicit conversion of an [int] operand of a float operation:
    rounded to nearest, [OverflowError] beyond the range of a float. *)
Definition float_of_int (z : Z) : result error PrimFloat.float :=
  match SpecFloat.binary_normalize FloatOps.prec FloatOps.emax z 0 false with
  | SpecFloat.S754_infinity _ => Raise OverflowError
  | x => Return (FloatOps.SF2Prim x)
  end.

(** [int(x)] of a float: truncation towards zero. *)
Definition int_of_float (x : PrimFloat.float) : result error Z :=
  match FloatOps.Prim2SF x with
  | SpecFloat.S754_zero _ => Return 0%Z
  | SpecFloat.S754_finite negative m e =>
      let magnitude :=
        if (0 <=? e)%Z then (Z.pos m * 2 ^ e)%Z else (Z.pos m / 2 ^ (- e))%Z in
      Return (if negative then (- magnitude)%Z else magnitude)
  | SpecFloat.S754_infinity _ => Raise OverflowError
  | SpecFloat.S754_nan => Raise ValueError
  end.

(** [len(l)] as a Python integer. *)
Definition len {A} (l : list A) : Z := Z.of_nat (length l).

(** A slice bound [i] brought into [0 .. n], counting from the end when
    negative. *)
Definition clamp (n i : Z) : Z :=
  if (i <? 0)%Z then Z.max (i + n) 0 else Z.min i n.

(** [l[a:b]]. *)
Definition slice {A} (l : list A) (a b : Z) : list A :=
  let a' := clamp (len l) a in
  let b' := clamp (len l) b in
  firstn (Z.to_nat (b' - a')) (skipn (Z.to_nat a') l).

(** What [t[:b] = v] writes into a 1-D tensor. *)
Definition fill_prefix {A} (t : list A) (b : Z) (v : A) : list A :=
  let b' := clamp (len t) b in
  repeat v (Z.to_nat b') ++ skipn (Z.to_nat b') t.

(** [t[:b] = v] on a tensor of [torch.long] for a Python integer [v]: the
    scalar is converted before anything is written, with [RuntimeError]
    when it is beyond 64 bits, however short the slice. *)
Definition fill_prefix_long (t : list Z) (b : Z) (v : Z) : result error (list Z) :=
  if in_int64 v then Return (fill_prefix t b v) else Raise RuntimeError.

(** [range(0, stop, step)]. *)
Definition range (stop step : Z) : result error (list Z) :=
  if (step =? 0)%Z then Raise ValueError
  else if (step <? 0)%Z then Return []
  else Return (map (fun k => (Z.of_nat k * step)%Z)
                   (seq 0 (Z.to_nat ((stop + step - 1) / step)))).

(** ** The dataset *)

(** The entries of the configuration the dataset reads. *)
Record Config : Type := {
  train_jsonl : String.string;
  val_jsonl : String.string;
  test_jsonl : String.string;
  shuffle_bucket : Z;
  overlap_slicing : PrimFloat.float;
  pad_overlapped : bool;
  context_length : Z;
  labels_pad : Z
}.

Record PSIDataset : Type := {
  _rank : Z;
  _world_size : Z;
  _data_path : String.string;
  _need_shuffle : bool;
  _shuffle_bucket : Z;
  _overlap_slicing : PrimFloat.float;
  _pad_overlapped : bool;
  _example_len : Z;
  _labels_pad : Z
}.

(** [PSIDataset.__init__].  The facade it builds from the same
    configuration is the parameter [transform] of [_prepare_line]. *)
Definition __init__ (config : Config) (holdout : String.string) (rank world_size : Z)
    : result error PSIDataset :=
  if negb ((0 <=? rank)%Z && (rank <? world_size)%Z) then Raise AssertionError
  else
    let make (data_path : String.string) (need_shuffle : bool) :=
      if negb (PrimFloat.leb PrimFloat.zero (overlap_slicing config)
               && PrimFloat.ltb (overlap_slicing config) PrimFloat.one)
      then Raise AssertionError
      else Return {| _rank := rank;
                     _world_size := world_size;
                     _data_path := data_path;
                     _need_shuffle := need_shuffle;
                     _shuffle_bucket := shuffle_bucket config;
                     _overlap_slicing := overlap_slicing config;
                     _pad_overlapped := pad_overlapped config;
                     _example_len := context_length config;
                     _labels_pad := labels_pad config |} in
    if String.eqb holdout "train" then make (train_jsonl config) true
    else if String.eqb holdout "val" then make (val_jsonl config) false
    else if String.eqb holdout "test" then make (test_jsonl config) false
    else Raise ValueError.

(** The loop of [_get_file_lines] over [enumerate(f)], from line [i] on. *)
Fixpoint select_lines (world_size rank i : Z) (lines : list String.string)
    : result error (list String.string) :=
  match lines with
  | [] => Return []
  | line :: rest =>
      if (world_size =? 0)%Z then Raise ZeroDivisionError
      else
        bind (select_lines world_size rank (i + 1) rest)
             (fun selected =>
                Return (if (i mod world_size =? rank)%Z then line :: selected
                        else selected))
  end.

(** [PSIDataset._get_file_lines], on the lines of the file at
    [_data_path]. *)
Definition _get_file_lines (self : PSIDataset) (lines : list String.string)
    (worker_id num_workers : Z) : result error (list String.string) :=
  if negb (worker_id <? num_workers)%Z then Raise AssertionError
  else
    let world_size := (_world_size self * num_workers)%Z in
    let rank := (_rank self * num_workers + worker_id)%Z in
    select_lines world_size rank 0 lines.

(** [int((1 - self._overlap_slicing) * self._example_len)]. *)
Definition stride (self : PSIDataset) : result error Z :=
  bind (float_of_int (_example_len self))
       (fun example_len =>
          int_of_float
            (PrimFloat.mul (PrimFloat.sub PrimFloat.one (_overlap_slicing self))
                           example_len)).

(** [int(self._overlap_slicing * self._example_len)]. *)
Definition overlap (self : PSIDataset) : result error Z :=
  bind (float_of_int (_example_len self))
       (fun example_len =>
          int_of_float (PrimFloat.mul (_overlap_slicing self) example_len)).

(** The body of the loop of [_prepare_line]: the example that starts at
    [start]. *)
Definition example (self : PSIDataset) (ids : list Z) (start : Z)
    : result error (list Z * list Z) :=
  bind (long_tensor (slice ids start (start + _example_len self)))
       (fun inp =>
          bind (long_tensor (slice ids (start + 1) (start + _example_len self + 1)))
               (fun labels =>
                  if _pad_overlapped self && negb (start =? 0)%Z then
                    bind (overlap self)
                         (fun padded =>
                            bind (fill_prefix_long labels padded (_labels_pad self))
                                 (fun labels => Return (inp, labels)))
                  else Return (inp, labels))).

Section WithFacade.

(** [self._psi_facade.transform(line, to_filter=True)] of a trained
    facade, without the tree that [_prepare_line] drops: the token ids of
    the line, or [None]. *)
Variable transform : String.string -> option (list Z).

(** [PSIDataset._prepare_line]. *)
Definition _prepare_line (self : PSIDataset) (line : String.string)
    : result error (list (list Z * list Z)) :=
  match transform line with
  | None => Return []
  | Some ids =>
      bind (stride self)
           (fun step =>
              bind (range (len ids) step) (for_each (example self ids)))
  end.

(** [random.shuffle], which permutes a bucket in place; [shuffle n] is its
    [n]-th call during an iteration. *)
Variable shuffle : nat -> list (list Z * list Z) -> list (list Z * list Z).

(** The [while] loop of [__iter__] over the buckets of a shard, from its
    [n]-th round on: what it yields, and the exception that ends it if one
    does.  A round takes up to [_shuffle_bucket] lines, prepares them all,
    shuffles their examples and yields them; the loop ends after the round
    that found no line.  [fuel] bounds the number of rounds. *)
Fixpoint shuffled_buckets (fuel n : nat) (self : PSIDataset)
    (remaining : list String.string) : list (list Z * list Z) * option error :=
  match fuel with
  | O => ([], None)
  | S fuel' =>
      let lines_bucket := firstn (Z.to_nat (_shuffle_bucket self)) remaining in
      match for_each (_prepare_line self) lines_bucket with
      | Raise e => ([], Some e)
      | Return examples =>
          let examples_bucket := shuffle n (concat examples) in
          match lines_bucket with
          | [] => (examples_bucket, None)
          | _ :: _ =>
              let (later, err) :=
                shuffled_buckets fuel' (S n) self
                  (skipn (Z.to_nat (_shuffle_bucket self)) remaining) in
              (examples_bucket ++ later, err)
          end
      end
  end.

(** The generator expression of [__iter__] for the other holdouts: the
    examples of one line after those of the other. *)
Fixpoint chained_examples (self : PSIDataset) (lines : list String.string)
    : list (list Z * list Z) * option error :=
  match lines with
  | [] => ([], None)
  | line :: rest =>
      match _prepare_line self line with
      | Raise e => ([], Some e)
      | Return examples =>
          let (later, err) := chained_examples self rest in
          (examples ++ later, err)
      end
  end.

(** [sys.maxsize] of a 64-bit interpreter, the largest bucket
    [itertools.islice] accepts. *)
Definition sys_maxsize : Z := (2 ^ 63 - 1)%Z.

(** [PSIDataset.__iter__], on the lines of the file and the worker that
    [get_worker_info()] reports ([None] in the main process): the examples
    the iteration yields, and the exception that ends it if one does.
    [itertools.islice] rejects a bucket size that is negative or above
    [sys.maxsize] before the file is opened, and with a bucket of size 0
    the file is never read. *)
Definition __iter__ (self : PSIDataset) (worker_info : option (Z * Z))
    (lines : list String.string) : list (list Z * list Z) * option error :=
  let worker_id := match worker_info with None => 0%Z | Some w => fst w end in
  let num_workers := match worker_info with None => 1%Z | Some w => snd w end in
  if _need_shuffle self then
    if (_shuffle_bucket self <? 0)%Z || (sys_maxsize <? _shuffle_bucket self)%Z
    then ([], Some ValueError)
    else if (_shuffle_bucket self =? 0)%Z then (shuffle 0 [], None)
    else
      match _get_file_lines self lines worker_id num_workers with
      | Raise e => ([], Some e)
      | Return shard => shuffled_buckets (S (length shard)) 0 self shard
      end
  else
    match _get_file_lines self lines worker_id num_workers with
    | Raise e => ([], Some e)
    | Return shard => chained_examples self shard
    end.

End WithFacade.

(** Vocabulary for the statements: position [t] of the labels of example
    [k] trains token [q] of the line.  The position is the one the slicing
    aligns with token [q], the label it holds is that token, and the loss
    does not skip it: the label is not [labels_pad], the [ignore_index] of
    the loss. *)
Definition trains (self : PSIDataset) (ids : list Z) (examples : list (list Z * list Z))
    (k t : nat) (q : Z) : Prop :=
  exists inp labels step token,
    nth_error examples k = Some (inp, labels)
    /\ stride self = Return step
    /\ q = (Z.of_nat k * step + Z.of_nat t + 1)%Z
    /\ nth_error ids (Z.to_nat q) = Some token
    /\ nth_error labels t = Some token
    /\ token <> _labels_pad self.

End Dataset.

(* ------------------------------------------------------------------ *)
(** * pl_model.py: the token classes of the metrics *)

Module Metrics.

(** [TreeTokenizer] is declared in [psi_datapoint/stateful/tokenizer.py],
    which is not among the sources; the metrics read two of its indices,
    which split the vocabulary into non-leaf tokens, static leaves and
    BPE leaves. *)
Record TreeTokenizer : Type := {
  leaf_start_index : Z;
  arbitrary_start_index : Z
}.

(** A Python integer that is compared with a tensor of [torch.long] is
    brought to 64 bits first: outside their range it wraps around. *)
Definition wrap64 (z : Z) : Z := ((z + 2 ^ 63) mod 2 ^ 64 - 2 ^ 63)%Z.

(** The three masks of [PSIBasedModel._calc_single_token_metrics], entry by
    entry of the tensor of labels. *)
Definition nonleaf_mask (tokenizer : TreeTokenizer) (labels : list Z) : list bool :=
  map (fun label => (label <? wrap64 (leaf_start_index tokenizer))%Z) labels.

Definition staticleaf_mask (tokenizer : TreeTokenizer) (labels : list Z) : list bool :=
  map (fun label =>
         (wrap64 (leaf_start_index tokenizer) <=? label)%Z
         && (label <? wrap64 (arbitrary_start_index tokenizer))%Z)
      labels.

Definition bpe_mask (tokenizer : TreeTokenizer) (labels : list Z) : list bool :=
  map (fun label => (wrap64 (arbitrary_start_index tokenizer) <=? label)%Z) labels.

End Metrics.

(* ------------------------------------------------------------------ *)
(** * Concrete predictions, transformations and datasets *)

(** The post-processor with the defaults of the command line of
    [evaluate_predictions.py]. *)
Definition default_postprocessor : PredictionPostprocessor :=
  {| _len_norm_base := 10%R; _len_norm_pow := (7 / 10)%R |}.

(** A prediction with two hypotheses: one that a starved beam scored at
    [-inf], and one that is the target up to spaces. *)
Definition starved_hypothesis : TextHypothesis :=
  {| prediction := "a bd"%string; th_score := NegInf; th_length := 3 |}.

Definition exact_hypothesis : TextHypothesis :=
  {| prediction := "a bc"%string; th_score := Fin (-1)%R; th_length := 3 |}.

Definition sample_prediction : Evaluation.Prediction :=
  {| Evaluation.hypotheses := [starved_hypothesis; exact_hypothesis];
     Evaluation.target := "ab c"%string |}.

(** Two transformations of lists of numbers, each with its inverse, and a
    table of them. *)
Definition shift_nodes : Facade.Transformation nat :=
  {| Facade.transform := map S; Facade.inverse_transform := map Nat.pred |}.

Definition reverse_nodes : Facade.Transformation nat :=
  {| Facade.transform := @rev nat; Facade.inverse_transform := @rev nat |}.

Definition sample_transformations : list (String.string * Facade.Transformation nat) :=
  [("shift"%string, shift_nodes); ("reverse"%string, reverse_nodes)].

Module Overlaps.

Import PrimFloat.

(** The float nearest to 0.9, and one half. *)
Definition nine_tenths : float := 0x1.ccccccccccccdp-1.

Definition one_half : float := 0x1p-1.

(** The float nearest to 0.3. *)
Definition three_tenths : float := 0x1.3333333333333p-2.

End Overlaps.

(** A configuration with a given overlap and example length, and the
    dataset [__init__] builds from it for the training holdout. *)
Definition sample_config (overlap : PrimFloat.float) (example_len : Z) : Dataset.Config :=
  {| Dataset.train_jsonl := "train.jsonl"%string;
     Dataset.val_jsonl := "val.jsonl"%string;
     Dataset.test_jsonl := "test.jsonl"%string;
     Dataset.shuffle_bucket := 1000%Z;
     Dataset.overlap_slicing := overlap;
     Dataset.pad_overlapped := true;
     Dataset.context_length := example_len;
     Dataset.labels_pad := (-100)%Z |}.

Definition sample_dataset (overlap : PrimFloat.float) (example_len rank world_size : Z)
    : Dataset.PSIDataset :=
  {| Dataset._rank := rank;
     Dataset._world_size := world_size;
     Dataset._data_path := "train.jsonl"%string;
     Dataset._need_shuffle := true;
     Dataset._shuffle_bucket := 1000%Z;
     Dataset._overlap_slicing := overlap;
     Dataset._pad_overlapped := true;
     Dataset._example_len := example_len;
     Dataset._labels_pad := (-100)%Z |}.

Definition sample_lines : list String.string :=
  ["line 0"; "line 1"; "line 2"; "line 3"; "line 4"; "line 5"; "line 6"]%string.

(** A facade that tokenizes every line to the same seven tokens. *)
Definition sample_transform (line : String.string) : option (list Z) :=
  Some [10; 11; 12; 13; 14; 15; 16]%Z.

(** The examples of such a line, for an overlap of one half and examples
    of four tokens, and for an overlap of three tenths and examples of
    five. *)
Definition half_overlap_examples : list (list Z * list Z) :=
  Eval vm_compute in
    match Dataset._prepare_line sample_transform
            (sample_dataset Overlaps.one_half 4 0 1) "line 0"%string with
    | Return examples => examples
    | Raise _ => []
    end.

Definition three_tenths_overlap_examples : list (list Z * list Z) :=
  Eval vm_compute in
    match Dataset._prepare_line sample_transform
            (sample_dataset Overlaps.three_tenths 5 0 1) "line 0"%string with
    | Return examples => examples
    | Raise _ => []
    end.

(** A tokenizer whose static leaves are the tokens 5 to 8. *)
Definition sample_tokenizer : Metrics.TreeTokenizer :=
  {| Metrics.leaf_start_index := 5%Z; Metrics.arbitrary_start_index := 9%Z |}.

(** A shuffle that reverses every bucket. *)
Definition reversing_shuffle (n : nat) (bucket : list (list Z * list Z))
    : list (list Z * list Z) :=
  rev bucket.

(* ------------------------------------------------------------------ *)
(** * Facts about floats and sorting *)

Section FloatFacts.

Local Open Scope R_scope.

Lemma float_ltb_Fin (a b : R) :
  float_ltb (Fin a) (Fin b) = true <-> a < b.
Proof.
  unfold float_ltb. destruct (Rlt_dec a b); split; intros; auto; discriminate.
Qed.

Lemma float_ltb_Fin_true (a b : R) : a < b -> float_ltb (Fin a) (Fin b) = true.
Proof. apply float_ltb_Fin. Qed.

Lemma float_ltb_Fin_false (a b : R) : b <= a -> float_ltb (Fin a) (Fin b) = false.
Proof.
  intros Hle. destruct (float_ltb (Fin a) (Fin b)) eqn:E; auto.
  apply float_ltb_Fin in E. lra.
Qed.








Lemma insert_desc_ext {A} (lt1 lt2 : A -> A -> bool) :
  (forall a b, lt1 a b = lt2 a b) ->
  forall x l, insert_desc lt1 x l = insert_desc lt2 x l.
Proof.
  intros Hext x l. induction l as [|y l IH]; simpl; auto.
  rewrite Hext, IH. reflexivity.
Qed.

Lemma sorted_desc_ext {A} (lt1 lt2 : A -> A -> bool) :
  (forall a b, lt1 a b = lt2 a b) ->
  forall l, sorted_desc lt1 l = sorted_desc lt2 l.
Proof.
  intros Hext l. induction l as [|x l IH]; simpl; auto.
  rewrite IH. now apply insert_desc_ext.
Qed.





End FloatFacts.

(* ------------------------------------------------------------------ *)
(** * Length-normalised scores *)

Section NormalizedScore.

Local Open Scope R_scope.







End NormalizedScore.

(* ------------------------------------------------------------------ *)
(** * The candidate loop *)

Section DispatchFacts.

Context {TB : Type} `{TreeBuilder TB}.


Lemma append_terminated_nil (self : BeamSearch TB) : append_terminated self [] = self.
Proof. destruct self. unfold append_terminated. simpl. now rewrite app_nil_r. Qed.

Lemma append_terminated_app (self : BeamSearch TB) (a b : list (Hypothesis_ TB)) :
  append_terminated (append_terminated self a) b = append_terminated self (a ++ b).
Proof. unfold append_terminated. simpl. now rewrite app_assoc. Qed.

Lemma classify_append_terminated (self : BeamSearch TB) (hs : list (Hypothesis_ TB)) cand :
  classify (append_terminated self hs) cand = classify self cand.
Proof. reflexivity. Qed.

Lemma draft_extend_nil (d : Draft TB) : draft_extend d [] = d.
Proof. destruct d. unfold draft_extend. simpl. now rewrite !app_nil_r. Qed.

Lemma draft_extend_append (d : Draft TB) token tb hyp_ind sc rows :
  draft_extend (draft_append d token tb hyp_ind sc) rows
  = draft_extend d ((token, tb, hyp_ind, sc) :: rows).
Proof. unfold draft_extend, draft_append. simpl. now rewrite <- !app_assoc. Qed.

(** The loop consumes a prefix of the candidates; each consumed candidate
    is not NaN and becomes either one terminated hypothesis or one row of
    the draft, in order. *)
Lemma dispatch_spec (cands : list (nat * float)) :
  forall (self : BeamSearch TB) (d : Draft TB) self' d' err,
    dispatch self d cands = (self', d', err) ->
    exists processed rest results,
      cands = processed ++ rest
      /\ Forall (fun c => isnan (snd c) = false) processed
      /\ map (classify self) processed = map Some results
      /\ self' = append_terminated self (lefts results)
      /\ d' = draft_extend d (rights results).
Proof.
  induction cands as [|[ind sc] rest IH]; intros self d self' d' err Hd; simpl in Hd.
  - injection Hd as <- <- <-. exists [], [], []. simpl.
    now rewrite append_terminated_nil, draft_extend_nil.
  - assert (Hstop : (self', d') = (self, d) ->
              exists processed rest0 results,
                (ind, sc) :: rest = processed ++ rest0
                /\ Forall (fun c => isnan (snd c) = false) processed
                /\ map (classify self) processed = map Some results
                /\ self' = append_terminated self (lefts results)
                /\ d' = draft_extend d (rights results)).
    { intros Heq. injection Heq as -> ->. exists [], ((ind, sc) :: rest), []. simpl.
      now rewrite append_terminated_nil, draft_extend_nil. }
    destruct (isnan sc) eqn:Enan; [injection Hd as <- <- <-; now apply Hstop|].
    destruct (_vocab_size self =? 0) eqn:Ev; [injection Hd as <- <- <-; now apply Hstop|].
    destruct (nth_error (_tree_builders self) (ind / _vocab_size self)) as [parent|] eqn:Ep;
      [|injection Hd as <- <- <-; now apply Hstop].
    destruct (add_id parent (ind mod _vocab_size self)) as [tb st] eqn:Ea.
    destruct st.
    + unfold _save_terminated in Hd.
      destruct (_hypotheses self) as [hyps|] eqn:Eh;
        [|injection Hd as <- <- <-; now apply Hstop].
      destruct (nth_error hyps (ind / _vocab_size self)) as [parent_ids|] eqn:Ei;
        [|injection Hd as <- <- <-; now apply Hstop].
      set (h := {| ids := parent_ids ++ [ind mod _vocab_size self]; tree_builder := tb;
                   score := sc; is_terminated := true |}) in *.
      assert (Hc : classify self (ind, sc) = Some (inl h)).
      { unfold classify. simpl fst. simpl snd. now rewrite Ep, Ea, Eh, Ei. }
      destruct (length (samples d) =? _beam_size self).
      * injection Hd as <- <- <-. exists [(ind, sc)], rest, [inl h]. simpl.
        rewrite Hc, draft_extend_nil. repeat split; auto.
      * apply IH in Hd. destruct Hd as (p & r & res0 & Hcs & Hn & Hm & Hs & Hdr).
        exists ((ind, sc) :: p), r, (inl h :: res0). simpl.
        rewrite Hc, Hs, Hdr, Hcs, append_terminated_app. repeat split; auto.
        f_equal. rewrite <- Hm. apply map_ext. intros c. symmetry. apply classify_append_terminated.
    + assert (Hc : classify self (ind, sc)
                   = Some (inr (ind mod _vocab_size self, tb, ind / _vocab_size self, sc))).
      { unfold classify. simpl fst. simpl snd. now rewrite Ep, Ea. }
      destruct (length (samples (draft_append d (ind mod _vocab_size self) tb
                                   (ind / _vocab_size self) sc)) =? _beam_size self).
      * injection Hd as <- <- <-.
        exists [(ind, sc)], rest,
          [inr (ind mod _vocab_size self, tb, ind / _vocab_size self, sc)]. simpl.
        rewrite Hc, append_terminated_nil, <- draft_extend_append, draft_extend_nil.
        repeat split; auto.
      * apply IH in Hd. destruct Hd as (p & r & res0 & Hcs & Hn & Hm & Hs & Hdr).
        exists ((ind, sc) :: p), r,
          (inr (ind mod _vocab_size self, tb, ind / _vocab_size self, sc) :: res0).
        simpl. rewrite Hc, Hs, Hdr, Hcs, draft_extend_append. repeat split; auto.
        now f_equal.
Qed.

(** The loop never lets the draft grow past [beam_size] rows. *)
Lemma dispatch_samples_bound (cands : list (nat * float)) :
  forall (self : BeamSearch TB) (d : Draft TB) self' d' err,
    dispatch self d cands = (self', d', err) ->
    length (samples d) < _beam_size self ->
    length (samples d') <= _beam_size self.
Proof.
  induction cands as [|[ind sc] rest IH]; intros self d self' d' err Hd Hlt; simpl in Hd.
  - injection Hd as <- <- <-. lia.
  - destruct (isnan sc); [injection Hd as <- <- <-; lia|].
    destruct (_vocab_size self =? 0); [injection Hd as <- <- <-; lia|].
    destruct (nth_error (_tree_builders self) (ind / _vocab_size self)) as [parent|];
      [|injection Hd as <- <- <-; lia].
    destruct (add_id parent (ind mod _vocab_size self)) as [tb st].
    destruct st.
    + unfold _save_terminated in Hd.
      destruct (_hypotheses self) as [hyps|]; [|injection Hd as <- <- <-; lia].
      destruct (nth_error hyps (ind / _vocab_size self)); [|injection Hd as <- <- <-; lia].
      destruct (length (samples d) =? _beam_size self) eqn:E.
      * injection Hd as <- <- <-. lia.
      * apply IH in Hd; auto.
    + destruct (length (samples (draft_append d (ind mod _vocab_size self) tb
                                   (ind / _vocab_size self) sc)) =? _beam_size self) eqn:E.
      * injection Hd as <- <- <-. apply Nat.eqb_eq in E. lia.
      * apply Nat.eqb_neq in E. apply IH in Hd; auto.
        simpl in *. rewrite length_app in *. simpl in *. lia.
Qed.

End DispatchFacts.

(* ------------------------------------------------------------------ *)
(** * What the candidate loop scans *)

Section ScannedFacts.

Context {TB : Type} `{TreeBuilder TB}.

Lemma scanned_append_terminated (cands : list (nat * float)) :
  forall (self : BeamSearch TB) (hs : list (Hypothesis_ TB)) (n : nat),
    scanned (append_terminated self hs) n cands = scanned self n cands.
Proof.
  induction cands as [|cand rest IH]; intros self hs n; cbn [scanned]; auto.
  rewrite classify_append_terminated. cbn [append_terminated _vocab_size _beam_size].
  destruct (isnan (snd cand)); auto.
  destruct (_vocab_size self =? 0); auto.
  destruct (classify self cand) as [[h|row]|]; auto; now rewrite IH.
Qed.

(** The scanned candidates are a prefix of the selection. *)
Lemma scanned_prefix (self : BeamSearch TB) (cands : list (nat * float)) :
  forall n, cands = scanned self n cands ++ skipn (length (scanned self n cands)) cands.
Proof.
  induction cands as [|cand rest IH]; intros n; cbn [scanned]; auto.
  destruct (isnan (snd cand)); auto.
  destruct (_vocab_size self =? 0); auto.
  destruct (classify self cand) as [[h|row]|]; auto.
  - destruct (n =? _beam_size self); cbn [app length skipn]; try reflexivity.
    f_equal. apply IH.
  - destruct (S n =? _beam_size self); cbn [app length skipn]; try reflexivity.
    f_equal. apply IH.
Qed.

(** No scanned candidate has a NaN score. *)
Lemma scanned_not_nan (self : BeamSearch TB) (cands : list (nat * float)) :
  forall n, Forall (fun c => isnan (snd c) = false) (scanned self n cands).
Proof.
  induction cands as [|cand rest IH]; intros n; cbn [scanned]; auto.
  destruct (isnan (snd cand)) eqn:Enan; auto.
  destruct (_vocab_size self =? 0); auto.
  destruct (classify self cand) as [[h|row]|]; auto; constructor; auto.
  - destruct (n =? _beam_size self); auto.
  - destruct (S n =? _beam_size self); auto.
Qed.

(** The loop of [_step] consumes exactly the scanned candidates: each
    becomes one terminated hypothesis or one row of the draft, in order. *)
Lemma dispatch_scanned (cands : list (nat * float)) :
  forall (self : BeamSearch TB) (d : Draft TB) self' d' err,
    dispatch self d cands = (self', d', err) ->
    exists results,
      map (classify self) (scanned self (length (samples d)) cands) = map Some results
      /\ self' = append_terminated self (lefts results)
      /\ d' = draft_extend d (rights results).
Proof.
  induction cands as [|[ind sc] rest IH]; intros self d self' d' err Hd; simpl in Hd.
  - injection Hd as <- <- <-. exists []. simpl.
    now rewrite append_terminated_nil, draft_extend_nil.
  - cbn [scanned snd].
    assert (Hstop : exists results : list (Hypothesis_ TB + nat * TB * nat * float),
               map (classify self) [] = map Some results
               /\ self = append_terminated self (lefts results)
               /\ d = draft_extend d (rights results)).
    { exists []. simpl. now rewrite append_terminated_nil, draft_extend_nil. }
    destruct (isnan sc) eqn:Enan; [injection Hd as <- <- <-; exact Hstop|].
    destruct (_vocab_size self =? 0) eqn:Ev; [injection Hd as <- <- <-; exact Hstop|].
    destruct (nth_error (_tree_builders self) (ind / _vocab_size self)) as [parent|] eqn:Ep.
    2:{ assert (Hc : classify self (ind, sc) = None).
        { unfold classify. simpl fst. now rewrite Ep. }
        rewrite Hc. injection Hd as <- <- <-. exact Hstop. }
    destruct (add_id parent (ind mod _vocab_size self)) as [tb st] eqn:Ea.
    destruct st.
    + unfold _save_terminated in Hd.
      destruct (_hypotheses self) as [hyps|] eqn:Eh.
      2:{ assert (Hc : classify self (ind, sc) = None).
          { unfold classify. simpl fst. now rewrite Ep, Ea, Eh. }
          rewrite Hc. injection Hd as <- <- <-. exact Hstop. }
      destruct (nth_error hyps (ind / _vocab_size self)) as [parent_ids|] eqn:Ei.
      2:{ assert (Hc : classify self (ind, sc) = None).
          { unfold classify. simpl fst. now rewrite Ep, Ea, Eh, Ei. }
          rewrite Hc. injection Hd as <- <- <-. exact Hstop. }
      clear Hstop.
      set (h := {| ids := parent_ids ++ [ind mod _vocab_size self]; tree_builder := tb;
                   score := sc; is_terminated := true |}) in *.
      assert (Hc : classify self (ind, sc) = Some (inl h)).
      { unfold classify. simpl fst. simpl snd. now rewrite Ep, Ea, Eh, Ei. }
      rewrite Hc.
      destruct (length (samples d) =? _beam_size self).
      * injection Hd as <- <- <-. exists [inl h]. simpl.
        rewrite Hc, draft_extend_nil. repeat split; auto.
      * apply IH in Hd. destruct Hd as (res0 & Hm & Hs & Hdr).
        exists (inl h :: res0). cbn [map lefts rights].
        rewrite Hc, Hs, Hdr, append_terminated_app. repeat split; auto.
        f_equal. rewrite <- Hm. rewrite scanned_append_terminated.
        apply map_ext. intros c. symmetry. apply classify_append_terminated.
    + clear Hstop.
      assert (Hc : classify self (ind, sc)
                   = Some (inr (ind mod _vocab_size self, tb, ind / _vocab_size self, sc))).
      { unfold classify. simpl fst. simpl snd. now rewrite Ep, Ea. }
      rewrite Hc.
      assert (Hlen : length (samples (draft_append d (ind mod _vocab_size self) tb
                                        (ind / _vocab_size self) sc))
                     = S (length (samples d))).
      { cbn [draft_append samples]. rewrite length_app. simpl. lia. }
      rewrite Hlen in Hd.
      destruct (S (length (samples d)) =? _beam_size self).
      * injection Hd as <- <- <-.
        exists [inr (ind mod _vocab_size self, tb, ind / _vocab_size self, sc)].
        cbn [map lefts rights].
        rewrite Hc, append_terminated_nil, <- draft_extend_append, draft_extend_nil.
        repeat split; auto.
      * apply IH in Hd. destruct Hd as (res0 & Hm & Hs & Hdr).
        exists (inr (ind mod _vocab_size self, tb, ind / _vocab_size self, sc) :: res0).
        cbn [map lefts rights]. rewrite Hc, Hs, Hdr, draft_extend_append.
        rewrite Hlen in Hm. repeat split; auto. now f_equal.
Qed.

(** With a vocabulary, a history, and every candidate pointing into the
    beam, no lookup of the loop fails. *)
Lemma dispatch_no_error (cands : list (nat * float)) :
  forall (self : BeamSearch TB) (d : Draft TB) (hyps : list (list nat)) self' d' err,
    dispatch self d cands = (self', d', err) ->
    _hypotheses self = Some hyps ->
    length hyps = length (_tree_builders self) ->
    Forall (fun c => fst c < length (_tree_builders self) * _vocab_size self) cands ->
    err = None.
Proof.
  induction cands as [|[ind sc] rest IH]; intros self d hyps self' d' err Hd Hh Hlen Hin;
    simpl in Hd.
  - now injection Hd as <- <- <-.
  - inversion Hin as [|c l Hc Hrest]; subst. simpl in Hc.
    destruct (isnan sc); [now injection Hd as <- <- <-|].
    destruct (_vocab_size self =? 0) eqn:Ev; [apply Nat.eqb_eq in Ev; rewrite Ev in Hc; lia|].
    apply Nat.eqb_neq in Ev.
    assert (Hrow : ind / _vocab_size self < length (_tree_builders self)).
    { apply Nat.Div0.div_lt_upper_bound. lia. }
    destruct (nth_error (_tree_builders self) (ind / _vocab_size self)) as [parent|] eqn:Ep;
      [|apply nth_error_None in Ep; lia].
    destruct (add_id parent (ind mod _vocab_size self)) as [tb st].
    destruct st.
    + unfold _save_terminated in Hd. rewrite Hh in Hd.
      destruct (nth_error hyps (ind / _vocab_size self)) as [parent_ids|] eqn:Ei;
        [|apply nth_error_None in Ei; lia].
      destruct (length (samples d) =? _beam_size self); [now injection Hd as <- <- <-|].
      eapply IH; eauto.
    + destruct (length (samples (draft_append d (ind mod _vocab_size self) tb
                                   (ind / _vocab_size self) sc)) =? _beam_size self);
        [now injection Hd as <- <- <-|].
      eapply IH; eauto.
Qed.

End ScannedFacts.

(* ------------------------------------------------------------------ *)
(** * One call of [step], phase by phase *)

Section StepFacts.

Context {TB : Type} `{TreeBuilder TB}.
Variable num_newline_nodes : nat.
Variable topk : list float -> nat -> list (nat * float).

Lemma step_traced (self : BeamSearch TB) (log_probs : Tensor2) self' caller out :
  step num_newline_nodes topk self log_probs = (self', caller, out) ->
  step_trace num_newline_nodes topk self log_probs self' caller out.
Proof.
  unfold step. intros Hs.
  destruct (ensure_initialized self log_probs) as [self0|e] eqn:Ei.
  2:{ injection Hs as <- <- <-. now apply trace_init_failed. }
  destruct (_step_check self0 log_probs) eqn:Ec.
  2:{ injection Hs as <- <- <-. now apply trace_check_failed. }
  unfold _preprocess_log_probs in Hs.
  destruct (mask_rows (_row_mask self0) 0 (_tree_builders self0) log_probs)
    as [masked [e|]] eqn:Em.
  { injection Hs as <- <- <-. now apply trace_mask_failed. }
  unfold _step in Hs.
  destruct (flat_scores self0 (log_softmax masked)) as [flat|] eqn:Ef.
  2:{ injection Hs as <- <- <-. apply trace_scores_unset; auto.
      unfold flat_scores in Ef. destruct (_scores self0); congruence. }
  destruct (length flat <? num_candidates num_newline_nodes self0) eqn:Ek.
  { injection Hs as <- <- <-. apply Nat.ltb_lt in Ek.
    eapply trace_topk_failed; eauto. }
  apply Nat.ltb_ge in Ek.
  destruct (dispatch self0 empty_draft
              (topk flat (num_candidates num_newline_nodes self0)))
    as [[self1 d] err] eqn:Ed.
  destruct err as [e|].
  { injection Hs as <- <- <-. eapply trace_dispatched; eauto. simpl. auto. }
  destruct (samples d) as [|s rest] eqn:Esd.
  { injection Hs as <- <- <-. eapply trace_dispatched; eauto. simpl.
    rewrite Esd. auto. }
  destruct (_update_state self1 d) as [self2 [e|]] eqn:Eu;
    injection Hs as <- <- <-; eapply trace_dispatched; eauto; simpl;
    rewrite Esd, Eu; auto.
Qed.

(** The lazy initialisation touches the score, history and mask tensors and
    the flag, and nothing once the decoder is initialised. *)
Lemma ensure_initialized_frame (self self0 : BeamSearch TB) (log_probs : Tensor2) :
  ensure_initialized self log_probs = Ok self0 ->
  _vocab_size self0 = _vocab_size self
  /\ _beam_size self0 = _beam_size self
  /\ _length self0 = _length self
  /\ _terminated_hypotheses self0 = _terminated_hypotheses self
  /\ _sort_mask self0 = _sort_mask self
  /\ _tree_builders self0 = _tree_builders self
  /\ _samples self0 = _samples self
  /\ batch_size self0 = batch_size self
  /\ (_is_initialized self = true -> self0 = self)
  /\ (_is_initialized self = false ->
      _scores self0 = Some [Fin 0] /\ _hypotheses self0 = Some [[]]
      /\ _row_mask self0 = Some (size1 log_probs) /\ _is_initialized self0 = true).
Proof.
  unfold ensure_initialized, _init_state, batch_size. intros He.
  destruct (_is_initialized self) eqn:Ei.
  - injection He as <-. repeat split; auto; discriminate.
  - destruct (_scores self) eqn:Es; [discriminate|].
    destruct (_hypotheses self) eqn:Eh; [discriminate|].
    injection He as <-. simpl. repeat split; auto; discriminate.
Qed.

Lemma ensure_initialized_well_formed (self : BeamSearch TB) (log_probs : Tensor2) :
  well_formed self = true ->
  exists self0, ensure_initialized self log_probs = Ok self0
                /\ well_formed self0 = true /\ _is_initialized self0 = true.
Proof.
  unfold well_formed, ensure_initialized, _init_state, batch_size. intros Hwf.
  destruct (_is_initialized self) eqn:Ei.
  - exists self. rewrite Ei. auto.
  - destruct (_scores self) eqn:Es; destruct (_hypotheses self) eqn:Eh;
      try (rewrite !andb_false_r in Hwf; discriminate).
    eexists. split; [reflexivity|]. simpl.
    apply andb_true_iff in Hwf as [Hwf _]. apply andb_true_iff in Hwf as [Hl Hp].
    rewrite Hl, Hp. auto.
Qed.

Lemma _step_check_shape (self : BeamSearch TB) (log_probs : Tensor2) :
  _step_check self log_probs = true ->
  length log_probs = batch_size self
  /\ Forall (fun row => length row = _vocab_size self) log_probs.
Proof.
  unfold _step_check. intros Hc. apply andb_true_iff in Hc as [Hl Hr].
  apply Nat.eqb_eq in Hl. split; auto.
  rewrite forallb_forall in Hr. apply Forall_forall. intros row Hin.
  apply Nat.eqb_eq. auto.
Qed.

Lemma _update_state_frame (self self2 : BeamSearch TB) (d : Draft TB) err :
  _update_state self d = (self2, err) ->
  _terminated_hypotheses self2 = _terminated_hypotheses self
  /\ _vocab_size self2 = _vocab_size self
  /\ _beam_size self2 = _beam_size self
  /\ _scores self2 = Some (sample_scores d)
  /\ _sort_mask self2 = Some (sort_mask d)
  /\ _tree_builders self2 = tree_builders d
  /\ _is_initialized self2 = _is_initialized self
  /\ _samples self2 = Some (samples d).
Proof.
  unfold _update_state. intros Hu.
  destruct (_hypotheses self) as [hyps|].
  - destruct (gather hyps (sort_mask d)); injection Hu as <- <-; simpl; auto 10.
  - injection Hu as <- <-. simpl. auto 10.
Qed.

End StepFacts.

(* ------------------------------------------------------------------ *)
(** * The contract of [step] *)

Section StepContract.

Context {TB : Type} `{TreeBuilder TB}.
Variable num_newline_nodes : nat.
Variable topk : list float -> nat -> list (nat * float).

Lemma classify_row_in_range (self : BeamSearch TB) (processed : list (nat * float)) :
  forall results,
    map (classify self) processed = map Some results ->
    Forall (fun r => snd (fst r) < length (_tree_builders self)) (rights results).
Proof.
  induction processed as [|c processed IH]; intros [|r results] Hm;
    simpl in Hm; try discriminate; [constructor|].
  injection Hm as Hc Hm. specialize (IH _ Hm).
  destruct r as [h|row]; simpl; auto.
  constructor; auto.
  unfold classify in Hc.
  destruct (nth_error (_tree_builders self) (fst c / _vocab_size self)) as [parent|] eqn:Ep;
    [|discriminate].
  assert (Hr : fst c / _vocab_size self < length (_tree_builders self))
    by (apply nth_error_Some; congruence).
  destruct (add_id parent (fst c mod _vocab_size self)) as [tb [|]].
  - destruct (_hypotheses self) as [hyps|]; [|discriminate].
    destruct (nth_error hyps (fst c / _vocab_size self)); discriminate.
  - injection Hc as <-. exact Hr.
Qed.

Lemma draft_extend_empty_lengths (rows : list (nat * TB * nat * float)) :
  let d := draft_extend empty_draft rows in
  length (samples d) = length rows
  /\ length (tree_builders d) = length rows
  /\ length (sort_mask d) = length rows
  /\ length (sample_scores d) = length rows.
Proof. simpl. now rewrite !length_map. Qed.

(** C2.  Whenever [step] returns a sort mask from a well-formed decoder,
    the mask has as many entries as the new beam has rows, that number is at
    most [beam_size], and every entry is the index of a row of the previous
    beam.  The selection is only asked to return at most the [k] entries
    requested. *)
Theorem sort_mask_contract
    (self : BeamSearch TB) (log_probs : Tensor2) self' caller mask :
  (forall flat k, length (topk flat k) <= k) ->
  well_formed self = true ->
  step num_newline_nodes topk self log_probs = (self', caller, Returned (Some mask)) ->
  length mask = batch_size self'
  /\ batch_size self' <= _beam_size self
  /\ Forall (fun i => i < batch_size self) mask.
Proof.
  intros Hk Hwf Hs. apply step_traced in Hs.
  destruct (ensure_initialized_well_formed self log_probs Hwf) as (s0 & Hi0 & Hwf0 & _).
  inversion Hs as [ | | | | | self0 masked flat self1 d err self2 out2
                    Hi Hc Hm Hf Hn Hd Hfin]; subst.
  rewrite Hi0 in Hi. injection Hi as <-.
  destruct (ensure_initialized_frame _ _ Hi0) as (_ & Hbeam & _ & _ & _ & Htbs & _ & Hbatch & _).
  destruct (dispatch_spec _ _ _ Hd) as (processed & rest & results & Hcands & _ & Hcl & -> & ->).
  destruct err as [e|]; [destruct Hfin; discriminate|].
  destruct (samples (draft_extend empty_draft (rights results))) as [|s ss] eqn:Esamples;
    [destruct Hfin; discriminate|].
  destruct (_update_state (append_terminated s0 (lefts results))
              (draft_extend empty_draft (rights results))) as [self3 [e|]] eqn:Eu;
    destruct Hfin as [-> Hout]; [discriminate|].
  destruct (_update_state_frame _ _ Eu) as (_ & _ & _ & Hscores & Hmask & _).
  rewrite Hmask in Hout. injection Hout as ->.
  destruct (draft_extend_empty_lengths (rights results)) as (Hl1 & _ & Hl3 & Hl4).
  assert (Hbs : batch_size (incr_length self3) = length (rights results)).
  { unfold batch_size. simpl. now rewrite Hscores. }
  rewrite Hbs. repeat split.
  - exact Hl3.
  - rewrite <- Hl1, <- Hbeam.
    destruct (Nat.eq_dec (_beam_size s0) 0) as [Hz|Hnz].
    + (* no candidate is requested, so none is scanned *)
      assert (Hnil : topk flat (num_candidates num_newline_nodes s0) = []).
      { assert (Hzero : num_candidates num_newline_nodes s0 = 0)
          by (unfold num_candidates; rewrite Hz; apply Nat.mul_0_r).
        specialize (Hk flat (num_candidates num_newline_nodes s0)).
        destruct (topk flat (num_candidates num_newline_nodes s0)); simpl in Hk;
          [reflexivity|lia]. }
      rewrite Hnil in Hd. simpl in Hd.
      apply (f_equal (fun r => samples (snd (fst r)))) in Hd.
      simpl in Hd, Esamples. congruence.
    + eapply (dispatch_samples_bound _ _ _ Hd). simpl. lia.
  - apply classify_row_in_range in Hcl. simpl.
    assert (Htb : length (_tree_builders s0) = batch_size self).
    { unfold well_formed in Hwf0. apply andb_true_iff in Hwf0 as [Hwf0 _].
      apply andb_true_iff in Hwf0 as [Hl _]. apply Nat.eqb_eq in Hl. congruence. }
    rewrite <- Htb. rewrite Forall_map. exact Hcl.
Qed.

(** C8, as the code has it.  A call whose tensor does not have the shape
    [(batch_size, vocab_size)] raises [AssertionError] and leaves the
    caller's tensor alone; nothing is masked, scanned or committed.  A
    decoder that is already initialised is left exactly as it was; on the
    very first call the lazy initialisation has already run when the check
    fails. *)
Theorem shape_mismatch_rejected
    (self : BeamSearch TB) (log_probs : Tensor2) :
  _step_check self log_probs = false ->
  exists self',
    step num_newline_nodes topk self log_probs = (self', log_probs, Raised AssertionError)
    /\ (_is_initialized self = true -> self' = self)
    /\ _terminated_hypotheses self' = _terminated_hypotheses self
    /\ _tree_builders self' = _tree_builders self
    /\ _sort_mask self' = _sort_mask self
    /\ _samples self' = _samples self
    /\ _length self' = _length self
    /\ batch_size self' = batch_size self.
Proof.
  intros Hc. unfold step.
  destruct (ensure_initialized self log_probs) as [self0|e] eqn:Ei.
  - destruct (ensure_initialized_frame _ _ Ei)
      as (Hv & _ & Hlen & Hterm & Hmask & Htbs & Hsam & Hbatch & Hsame & _).
    assert (Hc0 : _step_check self0 log_probs = false).
    { unfold _step_check in *. now rewrite Hbatch, Hv. }
    rewrite Hc0. exists self0. repeat split; auto.
  - assert (He : e = AssertionError).
    { unfold ensure_initialized, _init_state in Ei.
      destruct (_is_initialized self); [discriminate|].
      destruct (_scores self), (_hypotheses self); congruence. }
    subst e. exists self. repeat split; auto.
Qed.

End StepContract.

(* ------------------------------------------------------------------ *)
(** * The invariant of a session *)

Section SessionInvariant.

Context {TB : Type} `{TreeBuilder TB}.
Variable num_newline_nodes : nat.
Variable topk : list float -> nat -> list (nat * float).

Lemma __init___well_formed (vocab_size beam_size : nat) (tree_builder : TB) :
  well_formed (__init__ vocab_size beam_size tree_builder) = true.
Proof. reflexivity. Qed.

Lemma gather_in_range {A} (t : list A) (inds : list nat) :
  Forall (fun i => i < length t) inds ->
  exists rows, gather t inds = Some rows /\ length rows = length inds.
Proof.
  induction inds as [|i inds IH]; intros Hall; simpl.
  - exists []. auto.
  - inversion Hall as [|? ? Hi Hrest]; subst.
    destruct (IH Hrest) as (rows & -> & Hlen).
    destruct (nth_error t i) as [row|] eqn:Erow.
    + exists (row :: rows). simpl. auto.
    + apply nth_error_None in Erow. lia.
Qed.

Lemma length_cat_column (hyps : list (list nat)) (samples : list nat) :
  length hyps = length samples -> length (cat_column hyps samples) = length samples.
Proof.
  intros Hlen. unfold cat_column. rewrite length_map, length_combine. lia.
Qed.

Lemma well_formed_inv (self : BeamSearch TB) :
  well_formed self = true ->
  length (_tree_builders self) = batch_size self
  /\ 0 < length (_tree_builders self)
  /\ (_is_initialized self = true ->
      exists scores hyps,
        _scores self = Some scores /\ _hypotheses self = Some hyps
        /\ length hyps = length scores).
Proof.
  unfold well_formed. intros Hwf.
  apply andb_true_iff in Hwf as [Hwf Hshape].
  apply andb_true_iff in Hwf as [Hl Hpos].
  apply Nat.eqb_eq in Hl. apply Nat.ltb_lt in Hpos.
  repeat split; auto.
  intros Hinit. rewrite Hinit in Hshape.
  destruct (_scores self) as [scores|]; [|discriminate].
  destruct (_hypotheses self) as [hyps|]; [|discriminate].
  apply Nat.eqb_eq in Hshape. eauto.
Qed.

(** Every call of [step], whatever its outcome, leaves a well-formed decoder
    well-formed: the states of a session are the well-formed ones. *)
Lemma step_well_formed (self : BeamSearch TB) (log_probs : Tensor2) self' caller out :
  well_formed self = true ->
  step num_newline_nodes topk self log_probs = (self', caller, out) ->
  well_formed self' = true.
Proof.
  intros Hwf Hs. apply step_traced in Hs.
  destruct (ensure_initialized_well_formed self log_probs Hwf) as (s0 & Hi0 & Hwf0 & Hinit0).
  inversion Hs as [ e Hi | self0 Hi Hc | self0 masked e Hi Hc Hm
                  | self0 masked Hi Hc Hm Hsc | self0 masked flat Hi Hc Hm Hf Hn
                  | self0 masked flat self1 d err self2 out2 Hi Hc Hm Hf Hn Hd Hfin];
    subst; try congruence.
  rewrite Hi0 in Hi. injection Hi as <-.
  destruct (dispatch_spec _ _ _ Hd) as (processed & rest & results & _ & _ & Hcl & -> & ->).
  assert (Hwf1 : well_formed (append_terminated s0 (lefts results)) = true) by exact Hwf0.
  destruct err as [e|]; [destruct Hfin as [-> _]; exact Hwf1|].
  destruct (samples (draft_extend empty_draft (rights results))) as [|s ss] eqn:Esamples;
    [destruct Hfin as [-> _]; exact Hwf1|].
  destruct (well_formed_inv _ Hwf0) as (Hl & Hpos & Hshape).
  destruct (Hshape Hinit0) as (scores & hyps & Hscores & Hhyps & Hlen).
  apply classify_row_in_range in Hcl.
  destruct (draft_extend_empty_lengths (rights results)) as (Hl1 & Hl2 & Hl3 & Hl4).
  assert (Hrange : Forall (fun i => i < length hyps)
                     (sort_mask (draft_extend empty_draft (rights results)))).
  { simpl. rewrite Forall_map. unfold batch_size in Hl. rewrite Hscores in Hl.
    rewrite Hlen, <- Hl. exact Hcl. }
  destruct (gather_in_range hyps Hrange) as (rows & Hrows & Hrowlen).
  unfold _update_state in Hfin.
  change (_hypotheses (append_terminated s0 (lefts results))) with (_hypotheses s0) in Hfin.
  rewrite Hhyps, Hrows in Hfin. destruct Hfin as [-> _].
  unfold well_formed, batch_size.
  cbn [incr_length _tree_builders _scores _hypotheses _is_initialized append_terminated].
  rewrite Hinit0, length_cat_column by lia.
  assert (Hrows_pos : 0 < length (rights results))
    by (rewrite <- Hl1, Esamples; simpl; lia).
  rewrite Hl1, Hl2, Hl4, !Nat.eqb_refl. simpl.
  rewrite andb_true_r. now apply Nat.ltb_lt.
Qed.

End SessionInvariant.

(* ------------------------------------------------------------------ *)
(** * Masking writes into the caller's tensor *)

Section MaskFacts.

Context {TB : Type} `{TreeBuilder TB}.

Lemma length_set_nth {A} (i : nat) (x : A) (l : list A) :
  length (set_nth i x l) = length l.
Proof. revert i. induction l as [|y l IH]; intros [|i]; simpl; auto. Qed.

Lemma nth_error_set_nth_same {A} (i : nat) (x : A) (l : list A) :
  i < length l -> nth_error (set_nth i x l) i = Some x.
Proof.
  revert i. induction l as [|y l IH]; intros [|i] Hi; simpl in *; try lia; auto.
  apply IH. lia.
Qed.

Lemma nth_error_set_nth_other {A} (i k : nat) (x : A) (l : list A) :
  k <> i -> nth_error (set_nth i x l) k = nth_error l k.
Proof.
  revert i k. induction l as [|y l IH]; intros [|i] [|k] Hne; simpl; auto; try lia.
Qed.

Lemma nth_error_map_combine_seq {A B} (f : nat * A -> B) (row : list A) :
  forall start j,
    nth_error (map f (combine (seq start (length row)) row)) j
    = option_map (fun x => f (start + j, x)) (nth_error row j).
Proof.
  induction row as [|x row IH]; intros start [|j]; simpl; auto.
  - now rewrite Nat.add_0_r.
  - rewrite IH. now rewrite Nat.add_succ_r.
Qed.

(** Entry [j] of a masked row: kept when [j] is legal, [-inf] otherwise. *)
Lemma nth_error_mask_row (possible_ids : list nat) (row : list float) (j : nat) :
  nth_error (mask_row possible_ids row) j
  = option_map (fun x => if existsb (Nat.eqb j) possible_ids then x else NegInf)
               (nth_error row j).
Proof. unfold mask_row. now rewrite nth_error_map_combine_seq. Qed.

Lemma mask_rows_spec (row_mask : option nat) (tbs : list TB) :
  forall row_id log_probs masked err,
    mask_rows row_mask row_id tbs log_probs = (masked, err) ->
    length masked = length log_probs
    /\ (forall i, i < row_id -> nth_error masked i = nth_error log_probs i)
    /\ (forall i row, row_id <= i -> nth_error log_probs i = Some row ->
          nth_error masked i = Some row
          \/ exists tb, nth_error tbs (i - row_id) = Some tb
                        /\ nth_error masked i
                           = Some (mask_row (get_next_possible_ids tb) row))
    /\ (err = None ->
        forall i tb row, row_id <= i -> nth_error tbs (i - row_id) = Some tb ->
          nth_error log_probs i = Some row ->
          nth_error masked i = Some (mask_row (get_next_possible_ids tb) row))
    /\ (err = None -> row_id + length tbs <= length log_probs \/ tbs = []).
Proof.
  induction tbs as [|tb rest IH]; intros row_id lp masked err Hm; simpl in Hm.
  - injection Hm as <- <-. repeat split; auto.
    intros _ i tb row _ Hn. destruct (i - row_id); discriminate.
  - assert (Hstop : (masked, err) = (lp, err) -> err <> None ->
              length masked = length lp
              /\ (forall i, i < row_id -> nth_error masked i = nth_error lp i)
              /\ (forall i row, row_id <= i -> nth_error lp i = Some row ->
                    nth_error masked i = Some row
                    \/ exists tb0, nth_error (tb :: rest) (i - row_id) = Some tb0
                         /\ nth_error masked i
                            = Some (mask_row (get_next_possible_ids tb0) row))
              /\ (err = None ->
                  forall i tb0 row, row_id <= i ->
                    nth_error (tb :: rest) (i - row_id) = Some tb0 ->
                    nth_error lp i = Some row ->
                    nth_error masked i = Some (mask_row (get_next_possible_ids tb0) row))
              /\ (err = None -> row_id + length (tb :: rest) <= length lp \/ tb :: rest = [])).
    { intros Heq Hne. injection Heq as ->. repeat split; auto; contradiction. }
    destruct row_mask as [n|]; [|injection Hm as <- <-; apply Hstop; congruence].
    destruct (forallb (fun i => i <? n) (get_next_possible_ids tb));
      [|injection Hm as <- <-; apply Hstop; congruence].
    destruct (nth_error lp row_id) as [row0|] eqn:Erow;
      [|injection Hm as <- <-; apply Hstop; congruence].
    destruct (length row0 =? n); [|injection Hm as <- <-; apply Hstop; congruence].
    clear Hstop.
    assert (Hin : row_id < length lp) by (apply nth_error_Some; congruence).
    apply IH in Hm. destruct Hm as (Hlen & Hbelow & Hany & Hdone & Hsize).
    rewrite length_set_nth in Hlen.
    assert (Hcur : nth_error masked row_id
                   = Some (mask_row (get_next_possible_ids tb) row0)).
    { rewrite Hbelow by lia. now apply nth_error_set_nth_same. }
    repeat split; auto.
    + intros i Hi. rewrite Hbelow by lia. apply nth_error_set_nth_other. lia.
    + intros i row Hi Hrow.
      destruct (Nat.eq_dec i row_id) as [->|Hne].
      * right. exists tb. rewrite Nat.sub_diag. simpl. split; auto.
        congruence.
      * destruct (Hany i row) as [Hkeep|(tb0 & Htb0 & Hmasked)]; try lia.
        { rewrite nth_error_set_nth_other by lia. exact Hrow. }
        { now left. }
        { right. exists tb0. split; auto.
          replace (i - row_id) with (S (i - S row_id)) by lia. exact Htb0. }
    + intros Herr i tb0 row Hi Htb0 Hrow.
      destruct (Nat.eq_dec i row_id) as [->|Hne].
      * rewrite Nat.sub_diag in Htb0. simpl in Htb0. congruence.
      * apply Hdone; auto; try lia.
        { replace (i - row_id) with (S (i - S row_id)) in Htb0 by lia. exact Htb0. }
        { rewrite nth_error_set_nth_other by lia. exact Hrow. }
    + intros Herr. left. simpl.
      destruct (Hsize Herr) as [Hs| ->]; [rewrite length_set_nth in Hs|simpl]; lia.
Qed.

End MaskFacts.

(* ------------------------------------------------------------------ *)
(** * What one call does to the beam and to the caller's tensor *)

Section StepEffects.

Context {TB : Type} `{TreeBuilder TB}.
Variable num_newline_nodes : nat.
Variable topk : list float -> nat -> list (nat * float).

Lemma classify_inl_inv (self : BeamSearch TB) (cand : nat * float) (h : Hypothesis_ TB) :
  classify self cand = Some (inl h) ->
  exists parent hyps parent_ids,
    nth_error (_tree_builders self) (fst cand / _vocab_size self) = Some parent
    /\ _hypotheses self = Some hyps
    /\ nth_error hyps (fst cand / _vocab_size self) = Some parent_ids
    /\ add_id parent (fst cand mod _vocab_size self) = (tree_builder h, END_LINE)
    /\ ids h = parent_ids ++ [fst cand mod _vocab_size self]
    /\ score h = snd cand
    /\ is_terminated h = true.
Proof.
  unfold classify. intros Hc.
  destruct (nth_error (_tree_builders self) (fst cand / _vocab_size self)) as [parent|];
    [|discriminate].
  destruct (add_id parent (fst cand mod _vocab_size self)) as [tb [|]] eqn:Ea;
    [|discriminate].
  destruct (_hypotheses self) as [hyps|]; [|discriminate].
  destruct (nth_error hyps (fst cand / _vocab_size self)) as [parent_ids|] eqn:Ei;
    [|discriminate].
  injection Hc as <-. exists parent, hyps, parent_ids. simpl. auto 10.
Qed.

Lemma classify_score (self : BeamSearch TB) (cand : nat * float) r :
  classify self cand = Some r ->
  match r with
  | inl h => score h = snd cand
  | inr row => snd row = snd cand
  end.
Proof.
  unfold classify. intros Hc.
  destruct (nth_error (_tree_builders self) (fst cand / _vocab_size self)) as [parent|];
    [|discriminate].
  destruct (add_id parent (fst cand mod _vocab_size self)) as [tb [|]].
  - destruct (_hypotheses self) as [hyps|]; [|discriminate].
    destruct (nth_error hyps (fst cand / _vocab_size self)); [|discriminate].
    now injection Hc as <-.
  - now injection Hc as <-.
Qed.

Lemma classified_in (self : BeamSearch TB) (processed : list (nat * float)) :
  forall results r,
    map (classify self) processed = map Some results ->
    In r results ->
    exists cand, In cand processed /\ classify self cand = Some r.
Proof.
  induction processed as [|c processed IH]; intros [|r0 results] r Hm Hin;
    simpl in *; try discriminate; try contradiction.
  injection Hm as Hc Hm. destruct Hin as [->|Hin].
  - exists c. auto.
  - destruct (IH _ _ Hm Hin) as (cand & Hcin & Hcc). exists cand. auto.
Qed.

Lemma in_lefts {A B} (l : list (A + B)) (a : A) : In a (lefts l) <-> In (inl a) l.
Proof.
  induction l as [|[x|y] l IH]; simpl; [tauto| |].
  - rewrite IH. split; intros [Heq|Hin]; auto; left; congruence.
  - rewrite IH. split; [auto|]. intros [Heq|Hin]; [discriminate|auto].
Qed.

Lemma in_rights {A B} (l : list (A + B)) (b : B) : In b (rights l) <-> In (inr b) l.
Proof.
  induction l as [|[x|y] l IH]; simpl; [tauto| |].
  - rewrite IH. split; [auto|]. intros [Heq|Hin]; [discriminate|auto].
  - rewrite IH. split; intros [Heq|Hin]; auto; left; congruence.
Qed.

Lemma length_lefts_rights {A B} (l : list (A + B)) :
  length (lefts l) + length (rights l) = length l.
Proof. induction l as [|[x|y] l IH]; simpl; lia. Qed.

(** One call, summarised: the candidates scanned are a prefix of the
    selection, none of them NaN; the terminated ones are appended to
    [terminated], and when a sort mask is returned the others are the rows
    of the new beam. *)
Lemma step_spec (self : BeamSearch TB) (log_probs : Tensor2) self' caller out :
  step num_newline_nodes topk self log_probs = (self', caller, out) ->
  exists self0 cands processed rest results,
    _tree_builders self0 = _tree_builders self
    /\ _vocab_size self0 = _vocab_size self
    /\ (_is_initialized self = true -> self0 = self)
    /\ (cands = []
        \/ exists flat,
             ensure_initialized self log_probs = Ok self0
             /\ _step_check self0 log_probs = true
             /\ mask_rows (_row_mask self0) 0 (_tree_builders self0) log_probs
                = (caller, None)
             /\ flat_scores self0 (log_softmax caller) = Some flat
             /\ cands = topk flat (num_candidates num_newline_nodes self0))
    /\ cands = processed ++ rest
    /\ Forall (fun c => isnan (snd c) = false) processed
    /\ map (classify self0) processed = map Some results
    /\ _terminated_hypotheses self' = _terminated_hypotheses self ++ lefts results
    /\ (forall mask, out = Returned (Some mask) ->
          mask = map (fun r => snd (fst r)) (rights results)
          /\ _samples self' = Some (map (fun r => fst (fst (fst r))) (rights results))
          /\ _scores self' = Some (map snd (rights results))
          /\ _tree_builders self' = map (fun r => snd (fst (fst r))) (rights results)).
Proof.
  intros Hs. apply step_traced in Hs.
  assert (Hquiet : forall self0,
            _tree_builders self0 = _tree_builders self ->
            _vocab_size self0 = _vocab_size self ->
            (_is_initialized self = true -> self0 = self) ->
            _terminated_hypotheses self' = _terminated_hypotheses self ->
            (forall mask, out <> Returned (Some mask)) ->
            exists self0 cands processed rest results,
              _tree_builders self0 = _tree_builders self
              /\ _vocab_size self0 = _vocab_size self
              /\ (_is_initialized self = true -> self0 = self)
              /\ (cands = []
                  \/ exists flat,
                       ensure_initialized self log_probs = Ok self0
                       /\ _step_check self0 log_probs = true
                       /\ mask_rows (_row_mask self0) 0 (_tree_builders self0) log_probs
                          = (caller, None)
                       /\ flat_scores self0 (log_softmax caller) = Some flat
                       /\ cands = topk flat (num_candidates num_newline_nodes self0))
              /\ cands = processed ++ rest
              /\ Forall (fun c => isnan (snd c) = false) processed
              /\ map (classify self0) processed = map Some results
              /\ _terminated_hypotheses self' = _terminated_hypotheses self ++ lefts results
              /\ (forall mask, out = Returned (Some mask) ->
                    mask = map (fun r => snd (fst r)) (rights results)
                    /\ _samples self'
                       = Some (map (fun r => fst (fst (fst r))) (rights results))
                    /\ _scores self' = Some (map snd (rights results))
                    /\ _tree_builders self'
                       = map (fun r => snd (fst (fst r))) (rights results))).
  { intros self0 Ht Hv Hsame Hterm Hout.
    exists self0, [], [], [], []. simpl. rewrite app_nil_r.
    repeat (split; [solve [auto]|]).
    intros mask Hm. destruct (Hout mask Hm). }
  inversion Hs as [ e Hi | self0 Hi Hc | self0 masked e Hi Hc Hm
                  | self0 masked Hi Hc Hm Hsc | self0 masked flat Hi Hc Hm Hf Hn
                  | self0 masked flat self1 d err self2 out2 Hi Hc Hm Hf Hn Hd Hfin];
    subst.
  - apply (Hquiet self'); auto; discriminate.
  - destruct (ensure_initialized_frame _ _ Hi) as (Hv & _ & _ & Ht & _ & Htb & _ & _ & Hsame & _).
    apply (Hquiet self'); auto; discriminate.
  - destruct (ensure_initialized_frame _ _ Hi) as (Hv & _ & _ & Ht & _ & Htb & _ & _ & Hsame & _).
    apply (Hquiet self'); auto; discriminate.
  - destruct (ensure_initialized_frame _ _ Hi) as (Hv & _ & _ & Ht & _ & Htb & _ & _ & Hsame & _).
    apply (Hquiet self'); auto; discriminate.
  - destruct (ensure_initialized_frame _ _ Hi) as (Hv & _ & _ & Ht & _ & Htb & _ & _ & Hsame & _).
    apply (Hquiet self'); auto; discriminate.
  - clear Hquiet.
    destruct (ensure_initialized_frame _ _ Hi) as (Hv & _ & _ & Ht & _ & Htb & _ & _ & Hsame & _).
    destruct (dispatch_spec _ _ _ Hd) as (processed & rest & results & Hcands & Hnan & Hcl & -> & ->).
    assert (Hterm : _terminated_hypotheses self'
                    = _terminated_hypotheses self ++ lefts results).
    { destruct err as [e|]; [destruct Hfin as [-> _]; simpl; congruence|].
      destruct (samples (draft_extend empty_draft (rights results)));
        [destruct Hfin as [-> _]; simpl; congruence|].
      destruct (_update_state (append_terminated self0 (lefts results))
                  (draft_extend empty_draft (rights results))) as [self3 [e|]] eqn:Eu;
        destruct Hfin as [-> _];
        destruct (_update_state_frame _ _ Eu) as (Hterm & _);
        simpl in *; congruence. }
    assert (Hlast : forall mask, out = Returned (Some mask) ->
              mask = map (fun r => snd (fst r)) (rights results)
              /\ _samples self' = Some (map (fun r => fst (fst (fst r))) (rights results))
              /\ _scores self' = Some (map snd (rights results))
              /\ _tree_builders self' = map (fun r => snd (fst (fst r))) (rights results)).
    { intros mask Hout.
      destruct err as [e|]; [destruct Hfin as [_ ->]; discriminate|].
      destruct (samples (draft_extend empty_draft (rights results)));
        [destruct Hfin as [_ ->]; discriminate|].
      destruct (_update_state (append_terminated self0 (lefts results))
                  (draft_extend empty_draft (rights results))) as [self3 [e|]] eqn:Eu;
        destruct Hfin as [-> ->]; [discriminate|].
      destruct (_update_state_frame _ _ Eu)
        as (_ & _ & _ & Hsc & Hmask & Htbs & _ & Hsam).
      rewrite Hmask in Hout. injection Hout as <-. simpl in *. auto. }
    exists self0, (topk flat (num_candidates num_newline_nodes self0)),
      processed, rest, results.
    repeat (split; [solve [eauto 8]|]). exact Hlast.
Qed.

End StepEffects.

(* ------------------------------------------------------------------ *)
(** * Terminated hypotheses, NaN scores and the caller's tensor *)

Section StepClaims.

Context {TB : Type} `{TreeBuilder TB}.
Variable num_newline_nodes : nat.
Variable topk : list float -> nat -> list (nat * float).

Lemma run_terminated_grows (inputs : list Tensor2) :
  forall self : BeamSearch TB,
    exists later,
      _terminated_hypotheses (run num_newline_nodes topk self inputs)
      = _terminated_hypotheses self ++ later.
Proof.
  induction inputs as [|log_probs inputs IH]; intros self; simpl.
  - exists []. now rewrite app_nil_r.
  - destruct (step num_newline_nodes topk self log_probs) as [[self' caller] out] eqn:Es.
    simpl. destruct (step_spec _ _ _ _ Es)
      as (_ & _ & _ & _ & results & _ & _ & _ & _ & _ & _ & _ & Hterm & _).
    destruct (IH self') as (later & Hlater).
    exists (lefts results ++ later). now rewrite Hlater, Hterm, app_assoc.
Qed.

Lemma dispatch_stops_at_nan (self : BeamSearch TB) (d : Draft TB) ind post :
  dispatch self d ((ind, NaN) :: post) = (self, d, None).
Proof. reflexivity. Qed.

Lemma dispatch_ignores_after_nan (pre : list (nat * float)) ind post :
  forall (self : BeamSearch TB) (d : Draft TB),
    dispatch self d (pre ++ (ind, NaN) :: post) = dispatch self d pre.
Proof.
  induction pre as [|[i sc] pre IH]; intros self d; [reflexivity|].
  simpl. destruct (isnan sc); auto.
  destruct (_vocab_size self =? 0); auto.
  destruct (nth_error (_tree_builders self) (i / _vocab_size self)) as [parent|]; auto.
  destruct (add_id parent (i mod _vocab_size self)) as [tb [|]].
  - destruct (_save_terminated self (i / _vocab_size self) (i mod _vocab_size self) sc tb);
      auto.
    destruct (length (samples d) =? _beam_size self); auto.
  - destruct (length (samples (draft_append d (i mod _vocab_size self) tb
                                 (i / _vocab_size self) sc)) =? _beam_size self); auto.
Qed.

(** C7.  A candidate whose score is NaN stops the scan where it stands:
    the loop ends without an error, exactly as if the selection had ended
    before it, so neither it nor any later candidate is advanced.  No
    hypothesis appended to [terminated] and no row of a committed beam has a
    NaN score. *)
Theorem nan_candidate_ends_scan :
  (forall (self : BeamSearch TB) (d : Draft TB) ind post,
      dispatch self d ((ind, NaN) :: post) = (self, d, None))
  /\ (forall (self : BeamSearch TB) (d : Draft TB) pre ind post,
        dispatch self d (pre ++ (ind, NaN) :: post) = dispatch self d pre)
  /\ (forall (self : BeamSearch TB) log_probs self' caller out,
        step num_newline_nodes topk self log_probs = (self', caller, out) ->
        exists appended,
          _terminated_hypotheses self' = _terminated_hypotheses self ++ appended
          /\ Forall (fun h => isnan (score h) = false) appended
          /\ (forall mask, out = Returned (Some mask) ->
                exists scores, _scores self' = Some scores
                               /\ Forall (fun s => isnan s = false) scores)).
Proof.
  split; [exact dispatch_stops_at_nan|].
  split; [intros; apply dispatch_ignores_after_nan|].
  intros self log_probs self' caller out Hs.
  destruct (step_spec _ _ _ _ Hs)
    as (self0 & cands & processed & rest & results
        & _ & _ & _ & _ & _ & Hnan & Hcl & Hterm & Hcommit).
  assert (Hscores : forall r, In r results ->
            match r with
            | inl h => isnan (score h) = false
            | inr row => isnan (snd row) = false
            end).
  { intros r Hin. destruct (@classified_in _ _ _ _ _ _ Hcl Hin) as (cand & Hcin & Hc).
    rewrite Forall_forall in Hnan. specialize (Hnan _ Hcin).
    apply classify_score in Hc. destruct r; now rewrite Hc. }
  exists (lefts results). repeat split; auto.
  - apply Forall_forall. intros h Hin. apply in_lefts in Hin. exact (Hscores _ Hin).
  - intros mask Hout. destruct (Hcommit mask Hout) as (_ & _ & Hsc & _).
    exists (map snd (rights results)). split; auto.
    apply Forall_forall. intros s Hin. apply in_map_iff in Hin as (row & <- & Hrow).
    apply in_rights in Hrow. exact (Hscores _ Hrow).
Qed.

(** C10, as the code has it.  [step] writes into the tensor it is given,
    but not in every call.  Whatever the outcome, the caller's tensor
    differs from what was passed only at illegal columns, which then hold
    [-inf]; nothing of the normalisation or of the running scores reaches
    it.  A call that the lazy initialisation or the shape check rejects
    leaves the tensor as it was.  When a call on a well-formed decoder
    returns, every illegal column of every row holds [-inf] and every legal
    column its old value: the tensor is changed exactly when an illegal
    column held anything but [-inf]. *)
Theorem step_masks_caller_tensor
    (self : BeamSearch TB) (log_probs : Tensor2) self' caller out :
  step num_newline_nodes topk self log_probs = (self', caller, out) ->
  (forall i j,
      entry caller i j = entry log_probs i j
      \/ (legal_column self i j = false /\ entry caller i j = Some NegInf))
  /\ ((forall self0, ensure_initialized self log_probs = Ok self0 ->
                     _step_check self0 log_probs = false) ->
      caller = log_probs)
  /\ (forall r, out = Returned r -> well_formed self = true ->
        (forall i j x, entry log_probs i j = Some x ->
           entry caller i j = Some (if legal_column self i j then x else NegInf))
        /\ (caller = log_probs
            <-> forall i j x, entry log_probs i j = Some x ->
                  legal_column self i j = false -> x = NegInf)).
Proof.
  intros Hs. apply step_traced in Hs.
  assert (Hmasked : forall self0 e,
            ensure_initialized self log_probs = Ok self0 ->
            mask_rows (_row_mask self0) 0 (_tree_builders self0) log_probs = (caller, e) ->
            forall i j,
              entry caller i j = entry log_probs i j
              \/ (legal_column self i j = false /\ entry caller i j = Some NegInf)).
  { intros self0 e Hi Hm i j.
    destruct (ensure_initialized_frame _ _ Hi) as (_ & _ & _ & _ & _ & Htb & _).
    destruct (mask_rows_spec _ _ _ _ Hm) as (Hlen & _ & Hany & _).
    unfold entry, legal_column.
    destruct (nth_error log_probs i) as [row|] eqn:Erow.
    - destruct (Hany i row (Nat.le_0_l i) Erow) as [->|(tb & Htbi & ->)]; auto.
      rewrite Nat.sub_0_r, Htb in Htbi. rewrite Htbi, nth_error_mask_row.
      destruct (nth_error row j) as [x|]; simpl; auto.
      destruct (existsb (Nat.eqb j) (get_next_possible_ids tb)); auto.
    - left. apply nth_error_None in Erow.
      assert (Hnone : nth_error caller i = None) by (apply nth_error_None; lia).
      now rewrite Hnone. }
  split; [inversion Hs; subst; eauto|].
  split.
  { intros Hrejected.
    inversion Hs as [ e Hi | self0 Hi Hc | self0 masked e Hi Hc Hm
                    | self0 masked Hi Hc Hm Hsc | self0 masked flat Hi Hc Hm Hf Hn
                    | self0 masked flat self1 d err self2 out2 Hi Hc Hm Hf Hn Hd Hfin];
      subst; auto; rewrite (Hrejected _ Hi) in Hc; discriminate. }
  intros r Hout Hwf.
  destruct (ensure_initialized_well_formed self log_probs Hwf) as (s0 & Hi0 & Hwf0 & _).
  inversion Hs as [ | | | | | self0 masked flat self1 d err self2 out2
                    Hi Hc Hm Hf Hn Hd Hfin]; subst; try discriminate.
  rewrite Hi0 in Hi. injection Hi as <-.
  destruct (ensure_initialized_frame _ _ Hi0) as (_ & _ & _ & _ & _ & Htb & _).
  destruct (mask_rows_spec _ _ _ _ Hm) as (Hlen & _ & _ & Hdone & _).
  destruct (_step_check_shape _ _ Hc) as (Hrows & _).
  assert (Hbuilders : length (_tree_builders s0) = length log_probs).
  { unfold well_formed in Hwf0. apply andb_true_iff in Hwf0 as [Hwf0 _].
    apply andb_true_iff in Hwf0 as [Hl _]. apply Nat.eqb_eq in Hl. congruence. }
  assert (Hrow : forall i row, nth_error log_probs i = Some row ->
            exists tb, nth_error (_tree_builders s0) i = Some tb
                       /\ nth_error caller i
                          = Some (mask_row (get_next_possible_ids tb) row)).
  { intros i row Erow.
    assert (Hi : i < length (_tree_builders s0)).
    { rewrite Hbuilders. apply nth_error_Some. congruence. }
    destruct (nth_error (_tree_builders s0) i) as [tb|] eqn:Etb;
      [|apply nth_error_None in Etb; lia].
    exists tb. split; [reflexivity|].
    apply (Hdone eq_refl i tb row (Nat.le_0_l i)); auto.
    now rewrite Nat.sub_0_r. }
  assert (Hentries : forall i j x, entry log_probs i j = Some x ->
            entry caller i j = Some (if legal_column self i j then x else NegInf)).
  { intros i j x Hx. unfold entry, legal_column in Hx |- *.
    destruct (nth_error log_probs i) as [row|] eqn:Erow; [|discriminate].
    destruct (Hrow i row Erow) as (tb & Etb & Ecaller).
    rewrite <- Htb, Etb, Ecaller. now rewrite nth_error_mask_row, Hx. }
  split; [exact Hentries|]. split.
  - intros Heq i j x Hx Hillegal. subst caller.
    specialize (Hentries i j x Hx). rewrite Hillegal, Hx in Hentries. congruence.
  - intros Hall. apply nth_error_ext. intros i.
    destruct (nth_error log_probs i) as [row|] eqn:Erow.
    + destruct (Hrow i row Erow) as (tb & Etb & ->). f_equal.
      apply nth_error_ext. intros j. rewrite nth_error_mask_row.
      destruct (nth_error row j) as [x|] eqn:Ex; [|reflexivity]. simpl.
      destruct (existsb (Nat.eqb j) (get_next_possible_ids tb)) eqn:El; [reflexivity|].
      f_equal. symmetry. apply (Hall i j x).
      * unfold entry. now rewrite Erow.
      * unfold legal_column. now rewrite <- Htb, Etb.
    + apply nth_error_None. apply nth_error_None in Erow. lia.
Qed.

End StepClaims.

(* ------------------------------------------------------------------ *)
(** * What the masking does guarantee *)

Section MaskingGuarantee.

Context {TB : Type} `{TreeBuilder TB}.
Variable num_newline_nodes : nat.
Variable topk : list float -> nat -> list (nat * float).

Lemma float_sub_masked (x y : float) :
  x = NegInf \/ x = NaN -> float_sub x y = NegInf \/ float_sub x y = NaN.
Proof. intros [->| ->]; destruct y; simpl; auto. Qed.

Lemma float_add_masked (x s : float) :
  x = NegInf \/ x = NaN -> float_add x s = NegInf \/ float_add x s = NaN.
Proof. intros [->| ->]; destruct s; simpl; auto. Qed.

Lemma length_log_softmax_row (row : list float) :
  length (log_softmax_row row) = length row.
Proof. unfold log_softmax_row. now rewrite !length_map. Qed.

Lemma length_mask_row (possible_ids : list nat) (row : list float) :
  length (mask_row possible_ids row) = length row.
Proof.
  unfold mask_row. rewrite length_map, length_combine, length_seq. lia.
Qed.

(** A masked entry stays masked through the normalisation of its row. *)
Lemma log_softmax_row_masked (row : list float) (j : nat) (y : float) :
  nth_error row j = Some NegInf ->
  nth_error (log_softmax_row row) j = Some y ->
  y = NegInf \/ y = NaN.
Proof.
  unfold log_softmax_row. intros Hx Hy.
  rewrite !nth_error_map, Hx in Hy. cbn [option_map] in Hy. injection Hy as <-.
  apply float_sub_masked. unfold float_sub.
  destruct (float_neg (fold_right float_max NegInf row)); simpl; auto.
Qed.

Lemma nth_error_combine {A B} (l1 : list A) (l2 : list B) :
  forall i,
    nth_error (combine l1 l2) i
    = match nth_error l1 i, nth_error l2 i with
      | Some a, Some b => Some (a, b)
      | _, _ => None
      end.
Proof.
  revert l2. induction l1 as [|a l1 IH]; intros [|b l2] [|i]; simpl; auto.
  destruct (nth_error l1 i); reflexivity.
Qed.

(** Position [pos] of the flattened matrix is entry
    [(pos / width, pos mod width)]. *)
Lemma nth_error_concat_uniform (width : nat) (rows : list (list float)) :
  width <> 0 ->
  Forall (fun row => length row = width) rows ->
  forall pos, nth_error (concat rows) pos = entry rows (pos / width) (pos mod width).
Proof.
  intros Hw Hall. induction Hall as [|row rows Hrow Hall IH]; intros pos; simpl.
  - unfold entry. now rewrite !nth_error_nil.
  - destruct (Nat.lt_ge_cases pos width) as [Hlt|Hge].
    + rewrite nth_error_app1 by lia.
      unfold entry. rewrite Nat.div_small, Nat.mod_small by lia. reflexivity.
    + rewrite nth_error_app2 by lia. rewrite Hrow, IH.
      assert (Hd : pos / width = S ((pos - width) / width)).
      { replace pos with (1 * width + (pos - width)) at 1 by lia.
        now rewrite Nat.div_add_l by lia. }
      assert (Hmod : pos mod width = (pos - width) mod width).
      { replace pos with ((pos - width) + 1 * width) at 1 by lia.
        apply Nat.Div0.mod_add. }
      rewrite Hd, Hmod. reflexivity.
Qed.

Lemma concat_empty_rows (rows : list (list float)) :
  Forall (fun row => length row = 0) rows -> concat rows = [].
Proof.
  induction 1 as [|row rows Hrow Hall IH]; simpl; auto.
  rewrite IH. destruct row; [reflexivity|discriminate].
Qed.

(** The part of C1 that holds.  In every call on a well-formed decoder,
    whatever selection the library makes among the entries of the flattened
    scores, an illegal column has running score [-inf] or NaN after masking,
    normalisation and the addition of the row's score.  So every candidate
    the scan turns into a terminated hypothesis or a row of the next beam
    either has a legal token for its parent row or has score [-inf]. *)
Theorem scanned_candidate_legal_or_masked
    (self : BeamSearch TB) (log_probs : Tensor2) self' caller out :
  (forall flat k p, In p (topk flat k) -> nth_error flat (fst p) = Some (snd p)) ->
  well_formed self = true ->
  step num_newline_nodes topk self log_probs = (self', caller, out) ->
  exists self0 processed results,
    _tree_builders self0 = _tree_builders self
    /\ _vocab_size self0 = _vocab_size self
    /\ map (classify self0) processed = map Some results
    /\ _terminated_hypotheses self' = _terminated_hypotheses self ++ lefts results
    /\ (forall mask, out = Returned (Some mask) ->
          mask = map (fun r => snd (fst r)) (rights results)
          /\ _samples self' = Some (map (fun r => fst (fst (fst r))) (rights results))
          /\ _scores self' = Some (map snd (rights results))
          /\ _tree_builders self' = map (fun r => snd (fst (fst r))) (rights results))
    /\ (forall cand, In cand processed ->
          legal_column self (fst cand / _vocab_size self) (fst cand mod _vocab_size self)
          = true
          \/ snd cand = NegInf).
Proof.
  intros Hvalues Hwf Hs.
  destruct (step_spec _ _ _ _ Hs)
    as (self0 & cands & processed & rest & results
        & Htb & Hv & _ & Hsel & Hcands & Hnan & Hcl & Hterm & Hcommit).
  exists self0, processed, results.
  repeat (split; [solve [auto]|]).
  intros cand Hin.
  destruct Hsel as [Hnil|(flat & Hi & Hc & Hm & Hf & Hsel)].
  { subst cands. symmetry in Hcands. apply app_eq_nil in Hcands as [-> _]. contradiction. }
  destruct (ensure_initialized_well_formed self log_probs Hwf) as (s0 & Hi0 & Hwf0 & _).
  rewrite Hi0 in Hi. injection Hi as ->.
  destruct (well_formed_inv _ Hwf0) as (Hbuilders & _ & _).
  assert (Hval : nth_error flat (fst cand) = Some (snd cand)).
  { apply (Hvalues flat (num_candidates num_newline_nodes self0)).
    rewrite <- Hsel, Hcands. apply in_or_app. now left. }
  assert (Hnotnan : isnan (snd cand) = false).
  { rewrite Forall_forall in Hnan. now apply Hnan. }
  unfold flat_scores in Hf. unfold batch_size in Hbuilders.
  destruct (_scores self0) as [scores|] eqn:Es; [|discriminate].
  injection Hf as <-.
  destruct (_step_check_shape _ _ Hc) as (Hrows & Hwidth).
  unfold batch_size in Hrows. rewrite Es in Hrows.
  destruct (mask_rows_spec _ _ _ _ Hm) as (Hlen & _ & Hany & Hdone & _).
  assert (Hcaller : Forall (fun row => length row = _vocab_size self0) caller).
  { apply Forall_forall. intros crow Hcrow.
    apply In_nth_error in Hcrow as (i & Hcrow).
    assert (Hi : i < length log_probs).
    { rewrite <- Hlen. apply nth_error_Some. congruence. }
    destruct (nth_error log_probs i) as [row|] eqn:Erow;
      [|apply nth_error_None in Erow; lia].
    rewrite Forall_forall in Hwidth.
    assert (Hrowlen : length row = _vocab_size self0)
      by (apply Hwidth; eapply nth_error_In; eauto).
    destruct (Hany i row (Nat.le_0_l i) Erow) as [Hsame|(tb & _ & Hmasked)].
    - congruence.
    - rewrite Hmasked in Hcrow. injection Hcrow as <-. now rewrite length_mask_row. }
  assert (Hmatrix : Forall (fun row => length row = _vocab_size self0)
                      (add_scores scores (log_softmax caller))).
  { apply Forall_forall. intros mrow Hmrow. unfold add_scores in Hmrow.
    apply in_map_iff in Hmrow as ([s nrow] & <- & Hpair). simpl.
    apply in_combine_r in Hpair. unfold log_softmax in Hpair.
    apply in_map_iff in Hpair as (crow & <- & Hcrow).
    rewrite length_map, length_log_softmax_row.
    rewrite Forall_forall in Hcaller. now apply Hcaller. }
  assert (Hvocab : _vocab_size self0 <> 0).
  { intros Hzero. rewrite Hzero in Hmatrix.
    rewrite (concat_empty_rows Hmatrix) in Hval. now rewrite nth_error_nil in Hval. }
  rewrite (nth_error_concat_uniform Hvocab Hmatrix) in Hval.
  rewrite <- Hv.
  set (i := fst cand / _vocab_size self0) in *.
  set (j := fst cand mod _vocab_size self0) in *.
  destruct (legal_column self i j) eqn:Elegal; [now left|right].
  unfold entry, add_scores in Hval.
  rewrite nth_error_map, nth_error_combine in Hval.
  destruct (nth_error scores i) as [s|]; [|discriminate].
  unfold log_softmax in Hval. rewrite nth_error_map in Hval.
  destruct (nth_error caller i) as [crow|] eqn:Ecrow; [|discriminate].
  cbn [option_map fst snd] in Hval. rewrite nth_error_map in Hval.
  destruct (nth_error (log_softmax_row crow) j) as [y|] eqn:Ey; [|discriminate].
  cbn [option_map] in Hval. injection Hval as Hscore.
  assert (Himasked : i < length log_probs).
  { rewrite <- Hlen. apply nth_error_Some. congruence. }
  destruct (nth_error log_probs i) as [row|] eqn:Erow;
    [|apply nth_error_None in Erow; lia].
  destruct (nth_error (_tree_builders self0) i) as [tb|] eqn:Etb;
    [|apply nth_error_None in Etb; lia].
  assert (Hcrow : crow = mask_row (get_next_possible_ids tb) row).
  { specialize (Hdone eq_refl i tb row (Nat.le_0_l i)).
    rewrite Nat.sub_0_r in Hdone. specialize (Hdone Etb Erow). congruence. }
  assert (Hx : nth_error crow j = Some NegInf).
  { assert (Hj : j < length crow).
    { rewrite <- length_log_softmax_row. apply nth_error_Some. congruence. }
    subst crow. rewrite nth_error_mask_row. rewrite length_mask_row in Hj.
    destruct (nth_error row j) as [x|] eqn:Ex; [|apply nth_error_None in Ex; lia].
    unfold legal_column in Elegal. rewrite <- Htb, Etb in Elegal.
    simpl. now rewrite Elegal. }
  destruct (float_add_masked s (log_softmax_row_masked _ _ Hx Ey)) as [Hm1|Hm2].
  - congruence.
  - rewrite <- Hscore, Hm2 in Hnotnan. discriminate.
Qed.

End MaskingGuarantee.

(* ------------------------------------------------------------------ *)
(** * The decoder on concrete inputs *)

Section SoftmaxRows.

Local Open Scope R_scope.

Lemma float_log_pos (r : R) : 0 < r -> float_log (Fin r) = Fin (ln r).
Proof. intros Hr. unfold float_log. destruct (Rlt_dec 0 r); [reflexivity|contradiction]. Qed.

Lemma fold_max_repeat_NegInf (n : nat) :
  fold_right float_max NegInf (repeat NegInf n) = NegInf.
Proof. induction n as [|n IH]; simpl; [|rewrite IH]; reflexivity. Qed.

Lemma fold_add_repeat_zero (n : nat) :
  fold_right float_add (Fin 0) (repeat (Fin 0) n) = Fin 0.
Proof.
  induction n as [|n IH]; simpl; [reflexivity|].
  rewrite IH. simpl. f_equal. lra.
Qed.

(** A row with one finite entry: that entry gets log-probability 0 and the
    masked ones stay at [-inf]. *)
Lemma log_softmax_row_one_legal (a : R) (n : nat) :
  log_softmax_row (Fin a :: repeat NegInf n) = Fin 0 :: repeat NegInf n.
Proof.
  assert (Hm : fold_right float_max NegInf (Fin a :: repeat NegInf n) = Fin a).
  { simpl. now rewrite fold_max_repeat_NegInf. }
  unfold log_softmax_row. rewrite Hm.
  cbn [map]. rewrite !map_repeat.
  cbn [float_sub float_neg float_add float_exp fold_right].
  rewrite fold_add_repeat_zero. cbn [float_add].
  replace (a + - a) with 0 by lra.
  rewrite exp_0.
  rewrite float_log_pos by lra.
  replace (1 + 0) with 1 by lra. rewrite ln_1.
  cbn [float_neg float_add]. f_equal. f_equal. lra.
Qed.

(** A row of three finite entries. *)
Lemma log_softmax_row_free :
  map (fun x => float_add x (Fin 0)) (log_softmax_row [Fin (-2); Fin (-1); Fin (-3)])
  = [free_score (-2); free_score (-1); free_score (-3)].
Proof.
  unfold log_softmax_row, free_score, free_lse.
  cbn [fold_right float_max map float_sub float_neg float_add float_exp].
  set (M := Rmax (-2) (Rmax (-1) (-3))).
  pose proof (exp_pos (-2 + - M)). pose proof (exp_pos (-1 + - M)).
  pose proof (exp_pos (-3 + - M)).
  rewrite float_log_pos by lra.
  reflexivity.
Qed.

Lemma free_score_lt (x y : R) : x < y -> float_ltb (free_score x) (free_score y) = true.
Proof. intros Hxy. unfold free_score. apply float_ltb_Fin_true. lra. Qed.

Lemma free_score_ge (x y : R) : y <= x -> float_ltb (free_score x) (free_score y) = false.
Proof. intros Hxy. unfold free_score. apply float_ltb_Fin_false. lra. Qed.

End SoftmaxRows.

Section ConcreteRuns.

Lemma length_topk_sorted (flat : list float) (k : nat) :
  length (topk_sorted flat k) <= k.
Proof. unfold topk_sorted. apply firstn_le_length. Qed.

Lemma in_insert_desc {A} (lt : A -> A -> bool) (x y : A) (l : list A) :
  In y (insert_desc lt x l) -> y = x \/ In y l.
Proof.
  induction l as [|z l IH]; simpl.
  - intros [<-|[]]. now left.
  - destruct (lt x z); simpl; intros [<-|Hin]; auto.
    destruct (IH Hin); auto.
Qed.

Lemma in_sorted_desc {A} (lt : A -> A -> bool) (y : A) (l : list A) :
  In y (sorted_desc lt l) -> In y l.
Proof.
  induction l as [|x l IH]; simpl; auto.
  intros Hin. apply in_insert_desc in Hin as [<-|Hin]; auto.
Qed.

Lemma in_combine_seq {A} (l : list A) :
  forall start i x,
    In (i, x) (combine (seq start (length l)) l) ->
    start <= i /\ nth_error l (i - start) = Some x.
Proof.
  induction l as [|y l IH]; intros start i x Hin; simpl in Hin; [contradiction|].
  destruct Hin as [Heq|Hin].
  - injection Heq as <- <-. rewrite Nat.sub_diag. auto.
  - apply IH in Hin as [Hle Hnth]. split; [lia|].
    replace (i - start) with (S (i - S start)) by lia. exact Hnth.
Qed.

(** The descending selection returns entries of [flat] at their positions. *)
Lemma topk_sorted_values (flat : list float) (k : nat) (p : nat * float) :
  In p (topk_sorted flat k) -> nth_error flat (fst p) = Some (snd p).
Proof.
  unfold topk_sorted, enumerate. intros Hin.
  assert (Hall : In p (sorted_desc topk_ltb (combine (seq 0 (length flat)) flat))).
  { rewrite <- (firstn_skipn k). apply in_or_app. now left. }
  apply in_sorted_desc in Hall. clear Hin. rename Hall into Hin. destruct p as [i x].
  apply in_combine_seq in Hin as [_ Hnth]. now rewrite Nat.sub_0_r in Hnth.
Qed.

Lemma starved_step :
  step 1 topk_sorted starved_decoder starved_log_probs
  = (starved_decoder_after, [[Fin (-1)%R; NegInf; NegInf; NegInf]],
     Returned (Some [0; 0])).
Proof.
  unfold step, starved_decoder, starved_log_probs.
  cbn -[log_softmax_row topk_sorted].
  change (log_softmax_row [Fin (-1)%R; NegInf; NegInf; NegInf])
    with (log_softmax_row (Fin (-1)%R :: repeat NegInf 3)).
  rewrite log_softmax_row_one_legal.
  reflexivity.
Qed.

Lemma exhausted_step :
  step 1 topk_sorted exhausted_decoder two_log_probs
  = (exhausted_decoder_after, [[NegInf; NegInf]], Returned None).
Proof. reflexivity. Qed.

Lemma line_end_step :
  step 1 topk_sorted line_end_decoder two_log_probs
  = (line_end_decoder_after, [[Fin (-1)%R; NegInf]], Returned (Some [0])).
Proof.
  unfold step, line_end_decoder, two_log_probs.
  cbn -[log_softmax_row topk_sorted].
  change (log_softmax_row [Fin (-1)%R; NegInf])
    with (log_softmax_row (Fin (-1)%R :: repeat NegInf 1)).
  rewrite log_softmax_row_one_legal.
  reflexivity.
Qed.

Lemma topk_ltb_free_lt (i j : nat) (x y : R) :
  (x < y)%R -> topk_ltb (i, free_score x) (j, free_score y) = true.
Proof. intros Hxy. unfold topk_ltb, free_score. simpl. apply float_ltb_Fin_true. lra. Qed.

Lemma topk_ltb_free_ge (i j : nat) (x y : R) :
  (y <= x)%R -> topk_ltb (i, free_score x) (j, free_score y) = false.
Proof. intros Hxy. unfold topk_ltb, free_score. simpl. apply float_ltb_Fin_false. lra. Qed.

Lemma topk_sorted_free :
  topk_sorted free_flat 3
  = [(1, free_score (-1)%R); (0, free_score (-2)%R); (2, free_score (-3)%R)].
Proof.
  unfold topk_sorted, free_flat, enumerate.
  cbn [length seq combine sorted_desc fold_right insert_desc].
  repeat (first [rewrite topk_ltb_free_lt by lra | rewrite topk_ltb_free_ge by lra];
          cbn [insert_desc]).
  reflexivity.
Qed.

Lemma topk_by_index_free :
  topk_by_index free_flat 3
  = [(0, free_score (-2)%R); (1, free_score (-1)%R); (2, free_score (-3)%R)].
Proof. unfold topk_by_index. rewrite topk_sorted_free. reflexivity. Qed.

Lemma free_flat_scores :
  flat_scores (set_is_initialized
                 {| _vocab_size := 3; _beam_size := 1; _length := 1;
                    _terminated_hypotheses := []; _scores := Some [Fin 0%R];
                    _hypotheses := Some [[]]; _sort_mask := None;
                    _row_mask := Some 3; _tree_builders := [grammar_three_free];
                    _is_initialized := false; _samples := None |})
              (log_softmax free_log_probs)
  = Some free_flat.
Proof.
  unfold flat_scores, free_log_probs, free_flat. cbn -[log_softmax_row].
  rewrite log_softmax_row_free. reflexivity.
Qed.

Lemma free_step_by_index :
  step 2 topk_by_index free_decoder free_log_probs
  = (free_decoder_after 0 (free_score (-2)%R), free_log_probs, Returned (Some [0])).
Proof.
  unfold step, free_decoder, free_log_probs.
  cbn -[log_softmax_row topk_by_index].
  rewrite log_softmax_row_free. cbn [app].
  change [free_score (-2)%R; free_score (-1)%R; free_score (-3)%R] with free_flat.
  rewrite topk_by_index_free.
  reflexivity.
Qed.

Lemma free_step_sorted :
  step 2 topk_sorted free_decoder free_log_probs
  = (free_decoder_after 1 (free_score (-1)%R), free_log_probs, Returned (Some [0])).
Proof.
  unfold step, free_decoder, free_log_probs.
  cbn -[log_softmax_row topk_sorted].
  rewrite log_softmax_row_free. cbn [app].
  change [free_score (-2)%R; free_score (-1)%R; free_score (-3)%R] with free_flat.
  rewrite topk_sorted_free.
  reflexivity.
Qed.

End ConcreteRuns.

(* ------------------------------------------------------------------ *)
(** * The claims on concrete sessions *)

Section ConcreteClaims.

(** C1 fails on the code.  With four tokens of which only token 0 is legal,
    [beam_size = 2] and one kind of newline node, the selection asks for
    four candidates and three of them are masked ones at [-inf].  The scan
    stops at NaN only, so after token 0 it advances the builder with token
    1, which is not legal, and commits it as the second row of the beam. *)
Theorem starved_beam_commits_illegal_token :
  step 1 topk_sorted starved_decoder starved_log_probs
  = (starved_decoder_after, [[Fin (-1)%R; NegInf; NegInf; NegInf]],
     Returned (Some [0; 0]))
  /\ current_hypotheses starved_decoder_after
     = Some [ {| ids := [0]; tree_builder := grammar_one_legal;
                 score := Fin (0 + 0)%R; is_terminated := false |};
              {| ids := [1]; tree_builder := grammar_one_legal;
                 score := NegInf; is_terminated := false |} ]
  /\ get_next_possible_ids grammar_one_legal = [0]
  /\ legal_column starved_decoder 0 1 = false.
Proof. split; [exact starved_step|]. repeat split. Qed.

Lemma sort_mask_contract_witness :
  length [0; 0] = batch_size starved_decoder_after
  /\ batch_size starved_decoder_after <= _beam_size starved_decoder
  /\ Forall (fun i => i < batch_size starved_decoder) [0; 0].
Proof.
  apply (sort_mask_contract 1 topk_sorted starved_decoder starved_log_probs
           (caller := [[Fin (-1)%R; NegInf; NegInf; NegInf]])).
  - exact length_topk_sorted.
  - reflexivity.
  - exact starved_step.
Defined.

(** C8 fails on the first call.  A fresh decoder over four tokens that is
    handed a tensor with two columns raises [AssertionError], but the lazy
    initialisation has run by then: the flag is set, the score tensor
    exists and the scratch mask has the two columns of the rejected
    tensor. *)
Lemma first_call_shape_mismatch_initializes :
  snd (step 1 topk_sorted starved_decoder two_log_probs) = Raised AssertionError
  /\ _is_initialized starved_decoder = false
  /\ _is_initialized (fst (fst (step 1 topk_sorted starved_decoder two_log_probs))) = true
  /\ _scores starved_decoder = None
  /\ _scores (fst (fst (step 1 topk_sorted starved_decoder two_log_probs)))
     = Some [Fin 0%R]
  /\ _row_mask (fst (fst (step 1 topk_sorted starved_decoder two_log_probs))) = Some 2
  /\ fst (fst (step 1 topk_sorted starved_decoder two_log_probs)) <> starved_decoder.
Proof. repeat split. discriminate. Qed.

Lemma shape_mismatch_rejected_witness :
  _step_check starved_decoder_after two_log_probs = false
  /\ exists self',
       step 1 topk_sorted starved_decoder_after two_log_probs
       = (self', two_log_probs, Raised AssertionError)
       /\ (_is_initialized starved_decoder_after = true -> self' = starved_decoder_after)
       /\ _terminated_hypotheses self' = _terminated_hypotheses starved_decoder_after
       /\ _tree_builders self' = _tree_builders starved_decoder_after
       /\ _sort_mask self' = _sort_mask starved_decoder_after
       /\ _samples self' = _samples starved_decoder_after
       /\ _length self' = _length starved_decoder_after
       /\ batch_size self' = batch_size starved_decoder_after.
Proof.
  split; [reflexivity|].
  apply (shape_mismatch_rejected 1 topk_sorted starved_decoder_after two_log_probs).
  reflexivity.
Defined.

Lemma nan_candidate_ends_scan_witness :
  exists appended,
    _terminated_hypotheses line_end_decoder_after
    = _terminated_hypotheses line_end_decoder ++ appended
    /\ Forall (fun h => isnan (score h) = false) appended
    /\ (forall mask, Returned (Some [0]) = Returned (Some mask) ->
          exists scores, _scores line_end_decoder_after = Some scores
                         /\ Forall (fun s => isnan s = false) scores).
Proof.
  exact (proj2 (proj2 (nan_candidate_ends_scan (TB := FixedGrammar) 1 topk_sorted))
           line_end_decoder two_log_probs line_end_decoder_after
           [[Fin (-1)%R; NegInf]] (Returned (Some [0])) line_end_step).
Defined.

Lemma scanned_candidate_legal_or_masked_witness :
  exists self0 processed results,
    map (classify self0) processed = map Some results
    /\ _terminated_hypotheses starved_decoder_after
       = _terminated_hypotheses starved_decoder ++ lefts results
    /\ (forall cand, In cand processed ->
          legal_column starved_decoder (fst cand / _vocab_size starved_decoder)
            (fst cand mod _vocab_size starved_decoder) = true
          \/ snd cand = NegInf).
Proof.
  destruct (scanned_candidate_legal_or_masked 1 topk_sorted starved_decoder
              starved_log_probs topk_sorted_values eq_refl starved_step)
    as (self0 & processed & results & _ & _ & Hcl & Hterm & _ & Hlegal).
  exists self0, processed, results. auto.
Defined.

Lemma step_well_formed_witness : well_formed starved_decoder_after = true.
Proof.
  exact (step_well_formed 1 topk_sorted starved_decoder starved_log_probs
           eq_refl starved_step).
Defined.

(** C6 fails on the code.  The selection is asked for with [sorted=False],
    so any order of the top entries honours its contract.  On one row with
    scores -2, -1, -3, [beam_size = 1] and two kinds of newline nodes, the
    three entries in the order of their positions are such a selection; the
    scan takes the first one, token 0, and stops, although token 1 was
    selected too, scores strictly higher and would continue as well.  The
    same call over the selection in descending order keeps token 1. *)
Theorem unsorted_selection_keeps_lower_score :
  (exists self0,
      ensure_initialized free_decoder free_log_probs = Ok self0
      /\ flat_scores self0 (log_softmax free_log_probs) = Some free_flat)
  /\ is_topk free_flat 3 (topk_by_index free_flat 3)
  /\ topk_by_index free_flat 3
     = [(0, free_score (-2)%R); (1, free_score (-1)%R); (2, free_score (-3)%R)]
  /\ step 2 topk_by_index free_decoder free_log_probs
     = (free_decoder_after 0 (free_score (-2)%R), free_log_probs, Returned (Some [0]))
  /\ float_ltb (free_score (-2)%R) (free_score (-1)%R) = true
  /\ add_id grammar_three_free 1 = (grammar_three_free, CONTINUES)
  /\ step 2 topk_sorted free_decoder free_log_probs
     = (free_decoder_after 1 (free_score (-1)%R), free_log_probs, Returned (Some [0])).
Proof.
  split; [eexists; split; [reflexivity|exact free_flat_scores]|].
  split.
  { rewrite topk_by_index_free. unfold is_topk. repeat split.
    - repeat constructor; simpl; intuition discriminate.
    - intros p [<-|[<-|[<-|[]]]]; reflexivity.
    - intros p q _ Hq Hnot. exfalso. apply Hnot.
      unfold free_flat, enumerate in Hq. simpl in Hq.
      destruct Hq as [<-|[<-|[<-|[]]]]; simpl; auto. }
  split; [exact topk_by_index_free|].
  split; [exact free_step_by_index|].
  split; [apply free_score_lt; lra|].
  split; [reflexivity|exact free_step_sorted].
Qed.

End ConcreteClaims.

(* ------------------------------------------------------------------ *)
(** * What a committed step makes of the beam *)

Section CommitFacts.

Context {TB : Type} `{TreeBuilder TB}.
Variable num_newline_nodes : nat.
Variable topk : list float -> nat -> list (nat * float).

Lemma nth_error_zip_hypotheses (hyps : list (list nat)) :
  forall (tbs : list TB) (scores : list float) j,
    nth_error (zip_hypotheses hyps tbs scores) j
    = match nth_error hyps j, nth_error tbs j, nth_error scores j with
      | Some hyp, Some tb, Some sc =>
          Some {| ids := hyp; tree_builder := tb; score := sc; is_terminated := false |}
      | _, _, _ => None
      end.
Proof.
  induction hyps as [|hyp hyps IH]; intros [|tb tbs] [|sc scores] [|j]; simpl; auto;
    repeat match goal with
           | |- context [match nth_error ?l ?k with _ => _ end] =>
               destruct (nth_error l k)
           end; reflexivity.
Qed.

Lemma length_zip_hypotheses (hyps : list (list nat)) :
  forall (tbs : list TB) (scores : list float),
    length hyps = length scores -> length tbs = length scores ->
    length (zip_hypotheses hyps tbs scores) = length scores.
Proof.
  induction hyps as [|hyp hyps IH]; intros [|tb tbs] [|sc scores] Hh Ht;
    simpl in *; try lia.
  rewrite IH; lia.
Qed.

Lemma nth_error_gather {A} (t : list A) (inds : list nat) :
  forall rows j,
    gather t inds = Some rows ->
    nth_error rows j
    = match nth_error inds j with
      | Some i => nth_error t i
      | None => None
      end.
Proof.
  induction inds as [|i inds IH]; intros rows j Hg; simpl in Hg.
  - injection Hg as <-. now destruct j.
  - destruct (nth_error t i) as [row|] eqn:Erow; [|discriminate].
    destruct (gather t inds) as [rest|]; [|discriminate].
    injection Hg as <-. destruct j as [|j]; simpl; auto.
Qed.

Lemma nth_error_cat_column (hyps : list (list nat)) (samples : list nat) (j : nat) :
  nth_error (cat_column hyps samples) j
  = match nth_error hyps j, nth_error samples j with
    | Some row, Some token => Some (row ++ [token])
    | _, _ => None
    end.
Proof.
  unfold cat_column. rewrite nth_error_map, nth_error_combine.
  destruct (nth_error hyps j), (nth_error samples j); reflexivity.
Qed.

Lemma classify_inr_inv (self : BeamSearch TB) (cand : nat * float) token tb hyp_ind sc :
  classify self cand = Some (inr (token, tb, hyp_ind, sc)) ->
  exists parent,
    hyp_ind = fst cand / _vocab_size self
    /\ token = fst cand mod _vocab_size self
    /\ sc = snd cand
    /\ nth_error (_tree_builders self) hyp_ind = Some parent
    /\ add_id parent token = (tb, CONTINUES).
Proof.
  unfold classify. intros Hc.
  destruct (nth_error (_tree_builders self) (fst cand / _vocab_size self))
    as [parent|] eqn:Ep; [|discriminate].
  destruct (add_id parent (fst cand mod _vocab_size self)) as [tb0 [|]] eqn:Ea.
  - destruct (_hypotheses self) as [hyps|]; [|discriminate].
    destruct (nth_error hyps (fst cand / _vocab_size self)); discriminate.
  - injection Hc as <- <- <- <-. exists parent. auto.
Qed.

(** A call that returns a sort mask, taken apart: the decoder it started
    from once initialised, the rows it committed and where they came from. *)
Lemma step_commit_inv (self : BeamSearch TB) (log_probs : Tensor2) self' caller mask :
  well_formed self = true ->
  step num_newline_nodes topk self log_probs = (self', caller, Returned (Some mask)) ->
  exists self0 scores hyps flat processed rest results gathered,
    ensure_initialized self log_probs = Ok self0
    /\ well_formed self0 = true
    /\ _is_initialized self0 = true
    /\ _scores self0 = Some scores
    /\ _hypotheses self0 = Some hyps
    /\ _step_check self0 log_probs = true
    /\ mask_rows (_row_mask self0) 0 (_tree_builders self0) log_probs = (caller, None)
    /\ flat = concat (add_scores scores (log_softmax caller))
    /\ topk flat (num_candidates num_newline_nodes self0) = processed ++ rest
    /\ Forall (fun c => isnan (snd c) = false) processed
    /\ map (classify self0) processed = map Some results
    /\ rights results <> []
    /\ mask = map (fun r => snd (fst r)) (rights results)
    /\ gather hyps mask = Some gathered
    /\ _terminated_hypotheses self' = _terminated_hypotheses self0 ++ lefts results
    /\ _samples self' = Some (map (fun r => fst (fst (fst r))) (rights results))
    /\ _scores self' = Some (map snd (rights results))
    /\ _tree_builders self' = map (fun r => snd (fst (fst r))) (rights results)
    /\ _hypotheses self'
       = Some (cat_column gathered (map (fun r => fst (fst (fst r))) (rights results)))
    /\ _length self' = _length self0 + 1
    /\ _vocab_size self' = _vocab_size self0
    /\ _beam_size self' = _beam_size self0
    /\ _row_mask self' = _row_mask self0
    /\ _is_initialized self' = true.
Proof.
  intros Hwf Hs. apply step_traced in Hs.
  destruct (ensure_initialized_well_formed self log_probs Hwf) as (s0 & Hi0 & Hwf0 & Hinit0).
  inversion Hs as [ | | | | | self0 masked flat self1 d err self2 out2
                    Hi Hc Hm Hf Hn Hd Hfin]; subst.
  rewrite Hi0 in Hi. injection Hi as <-.
  destruct (dispatch_spec _ _ _ Hd)
    as (processed & rest & results & Hcands & Hnan & Hcl & -> & ->).
  destruct err as [e|]; [destruct Hfin; discriminate|].
  destruct (samples (draft_extend empty_draft (rights results))) as [|s ss] eqn:Esamples;
    [destruct Hfin; discriminate|].
  destruct (well_formed_inv _ Hwf0) as (Hl & Hpos & Hshape).
  destruct (Hshape Hinit0) as (scores & hyps & Hscores & Hhyps & Hlen).
  pose proof Hcl as Hrange0. apply classify_row_in_range in Hrange0.
  assert (Hrange : Forall (fun i => i < length hyps)
                     (map (fun r => snd (fst r)) (rights results))).
  { rewrite Forall_map. unfold batch_size in Hl. rewrite Hscores in Hl.
    rewrite Hlen, <- Hl. exact Hrange0. }
  destruct (gather_in_range hyps Hrange) as (gathered & Hg & Hglen).
  unfold _update_state in Hfin.
  change (_hypotheses (append_terminated s0 (lefts results))) with (_hypotheses s0) in Hfin.
  cbn [sort_mask draft_extend empty_draft app] in Hfin.
  rewrite Hhyps, Hg in Hfin. destruct Hfin as [-> Hout].
  cbn [_sort_mask] in Hout. injection Hout as Hmask. symmetry in Hmask. subst mask.
  unfold flat_scores in Hf. rewrite Hscores in Hf. injection Hf as <-.
  exists s0, scores, hyps, (concat (add_scores scores (log_softmax caller))),
    processed, rest, results, gathered.
  repeat (split; [solve [auto]|]).
  split.
  { intros Hnil. simpl in Esamples. rewrite Hnil in Esamples. discriminate. }
  repeat (split; [solve [auto]|]). exact Hinit0.
Qed.

Lemma gather_length {A} (t : list A) (inds : list nat) :
  forall rows, gather t inds = Some rows -> length rows = length inds.
Proof.
  induction inds as [|i inds IH]; intros rows Hg; simpl in Hg.
  - now injection Hg as <-.
  - destruct (nth_error t i); [|discriminate].
    destruct (gather t inds) as [rest|]; [|discriminate].
    injection Hg as <-. simpl. f_equal. now apply IH.
Qed.

(** Row by row: each row of a committed beam comes from one scanned
    candidate, whose flat index names the parent row and the token. *)
Lemma committed_rows (self : BeamSearch TB) (log_probs : Tensor2) self' caller mask :
  well_formed self = true ->
  step num_newline_nodes topk self log_probs = (self', caller, Returned (Some mask)) ->
  exists self0 scores old new tokens processed rest,
    ensure_initialized self log_probs = Ok self0
    /\ well_formed self0 = true
    /\ _step_check self0 log_probs = true
    /\ mask_rows (_row_mask self0) 0 (_tree_builders self0) log_probs = (caller, None)
    /\ _scores self0 = Some scores
    /\ topk (concat (add_scores scores (log_softmax caller)))
             (num_candidates num_newline_nodes self0) = processed ++ rest
    /\ current_hypotheses self0 = Some old
    /\ current_hypotheses self' = Some new
    /\ last_predictions self' = Ok tokens
    /\ length new = length mask
    /\ length tokens = length mask
    /\ mask <> []
    /\ _length self' = _length self + 1
    /\ (forall j parent_index,
          nth_error mask j = Some parent_index ->
          exists parent child cand,
            In cand processed
            /\ isnan (snd cand) = false
            /\ parent_index = fst cand / _vocab_size self0
            /\ nth_error old parent_index = Some parent
            /\ nth_error new j = Some child
            /\ nth_error tokens j = Some (fst cand mod _vocab_size self0)
            /\ ids child = ids parent ++ [fst cand mod _vocab_size self0]
            /\ add_id (tree_builder parent) (fst cand mod _vocab_size self0)
               = (tree_builder child, CONTINUES)
            /\ score child = snd cand
            /\ is_terminated child = false).
Proof.
  intros Hwf Hs.
  destruct (step_commit_inv _ _ Hwf Hs)
    as (self0 & scores & hyps & flat & processed & rest & results & gathered
        & Hi & Hwf0 & Hinit0 & Hscores & Hhyps & Hc & Hm & -> & Hsel & Hnan & Hcl
        & Hrows & Hmask & Hg & _ & Hsam' & Hsc' & Htb' & Hh' & Hlen' & _).
  set (rows := rights results) in *.
  set (toks := map (fun r : nat * TB * nat * float => fst (fst (fst r))) rows) in *.
  destruct (ensure_initialized_frame _ _ Hi) as (_ & _ & Hlen0 & _).
  destruct (well_formed_inv _ Hwf0) as (Hl & Hpos & Hshape).
  destruct (Hshape Hinit0) as (scores0 & hyps0 & Hscores0 & Hhyps0 & Hhl).
  rewrite Hscores in Hscores0. injection Hscores0 as <-.
  rewrite Hhyps in Hhyps0. injection Hhyps0 as <-.
  unfold batch_size in Hl. rewrite Hscores in Hl.
  pose proof (gather_length _ _ Hg) as Hglen.
  assert (Hmasklen : length mask = length rows) by (subst mask; apply length_map).
  assert (Htoklen : length toks = length rows) by apply length_map.
  exists self0, scores, (zip_hypotheses hyps (_tree_builders self0) scores),
    (zip_hypotheses (cat_column gathered toks)
       (map (fun r : nat * TB * nat * float => snd (fst (fst r))) rows) (map snd rows)),
    (map (fun row => last row 0) (cat_column gathered toks)), processed, rest.
  repeat (split; [solve [auto]|]).
  split. { unfold current_hypotheses. now rewrite Hhyps, Hscores. }
  split. { unfold current_hypotheses. now rewrite Hh', Hsc', Htb'. }
  split.
  { unfold last_predictions. rewrite Hh'.
    destruct gathered as [|g gathered]; [simpl in Hglen; destruct rows; [congruence|simpl in *; lia]|].
    destruct toks as [|t toks']; [simpl in Htoklen; destruct rows; [congruence|simpl in *; lia]|].
    simpl. rewrite length_app. simpl.
    replace (0 <? length g + 1) with true by (symmetry; apply Nat.ltb_lt; lia).
    reflexivity. }
  split.
  { rewrite length_zip_hypotheses; rewrite ?length_map, ?length_cat_column; lia. }
  split. { rewrite length_map, length_cat_column; lia. }
  split. { intros Hnil. rewrite Hnil in Hmasklen. destruct rows; [congruence|discriminate]. }
  split. { lia. }
  intros j parent_index Hj.
  rewrite Hmask, nth_error_map in Hj.
  destruct (nth_error rows j) as [[[[token tb] hyp_ind] sc]|] eqn:Erow; [|discriminate].
  simpl in Hj. injection Hj as ->.
  assert (Hin : In (inr (token, tb, parent_index, sc)) results).
  { apply in_rights. eapply nth_error_In. exact Erow. }
  destruct (@classified_in _ _ _ _ _ _ Hcl Hin) as (cand & Hcin & Hcc).
  destruct (classify_inr_inv _ _ Hcc) as (parent_tb & Hpi & Htok & Hsc & Hptb & Hadd).
  assert (Hrange : parent_index < length (_tree_builders self0)).
  { apply nth_error_Some. congruence. }
  destruct (nth_error hyps parent_index) as [hrow|] eqn:Ehrow;
    [|apply nth_error_None in Ehrow; lia].
  destruct (nth_error scores parent_index) as [s|] eqn:Es;
    [|apply nth_error_None in Es; lia].
  exists {| ids := hrow; tree_builder := parent_tb; score := s; is_terminated := false |},
    {| ids := hrow ++ [token]; tree_builder := tb; score := sc; is_terminated := false |},
    cand.
  assert (Hgj : nth_error gathered j = Some hrow).
  { rewrite (nth_error_gather _ _ j Hg), Hmask, nth_error_map, Erow. simpl. exact Ehrow. }
  assert (Htj : nth_error toks j = Some token).
  { unfold toks. now rewrite nth_error_map, Erow. }
  rewrite Forall_forall in Hnan.
  repeat split; auto.
  - now rewrite nth_error_zip_hypotheses, Ehrow, Hptb, Es.
  - rewrite nth_error_zip_hypotheses, nth_error_cat_column, Hgj, Htj, !nth_error_map, Erow.
    reflexivity.
  - rewrite nth_error_map, nth_error_cat_column, Hgj, Htj. simpl.
    rewrite last_last. now subst.
  - simpl. now subst.
  - simpl. now subst.
Qed.

End CommitFacts.

(* ------------------------------------------------------------------ *)
(** * Children of the beam and their scores *)

Section Children.

Context {TB : Type} `{TreeBuilder TB}.
Variable num_newline_nodes : nat.
Variable topk : list float -> nat -> list (nat * float).

(** A committed step, seen through the accessors: row [j] of the new beam
    is row [mask[j]] of the old one, extended by the token that
    [last_predictions] reports for row [j], with the builder advanced by
    that token without ending the line. *)
Theorem step_commits_children
    (self : BeamSearch TB) (log_probs : Tensor2) self' caller mask :
  well_formed self = true ->
  step num_newline_nodes topk self log_probs = (self', caller, Returned (Some mask)) ->
  exists self0 old new tokens,
    ensure_initialized self log_probs = Ok self0
    /\ current_hypotheses self0 = Some old
    /\ current_hypotheses self' = Some new
    /\ last_predictions self' = Ok tokens
    /\ length new = length mask
    /\ length tokens = length mask
    /\ mask <> []
    /\ _length self' = _length self + 1
    /\ (forall j parent_index,
          nth_error mask j = Some parent_index ->
          exists parent child token,
            nth_error old parent_index = Some parent
            /\ nth_error new j = Some child
            /\ nth_error tokens j = Some token
            /\ ids child = ids parent ++ [token]
            /\ add_id (tree_builder parent) token = (tree_builder child, CONTINUES)
            /\ is_terminated child = false).
Proof.
  intros Hwf Hs.
  destruct (committed_rows _ _ _ _ Hwf Hs)
    as (self0 & scores & old & new & tokens & processed & rest
        & Hi & _ & _ & _ & _ & _ & Hold & Hnew & Hlast & Hln & Hlt & Hne & Hlen & Hrows).
  exists self0, old, new, tokens.
  repeat (split; [solve [auto]|]).
  intros j parent_index Hj.
  destruct (Hrows j parent_index Hj)
    as (parent & child & cand & _ & _ & _ & Hp & Hc & Ht & Hids & Hadd & _ & Hterm).
  exists parent, child, (fst cand mod _vocab_size self0). auto 10.
Qed.

Lemma length_concat_uniform (width : nat) (rows : list (list float)) :
  Forall (fun row => length row = width) rows ->
  length (concat rows) = length rows * width.
Proof.
  induction 1 as [|row rows Hrow Hall IH]; simpl; auto.
  rewrite length_app, IH, Hrow. reflexivity.
Qed.

(** The matrix [_step] flattens: as many rows as the beam, [vocab_size]
    columns, entry [(i, j)] the normalised log-probability of token [j] in
    row [i] plus the score of row [i]. *)
Lemma scored_matrix (self0 : BeamSearch TB) (log_probs caller : Tensor2) scores :
  _step_check self0 log_probs = true ->
  mask_rows (_row_mask self0) 0 (_tree_builders self0) log_probs = (caller, None) ->
  _scores self0 = Some scores ->
  Forall (fun row => length row = _vocab_size self0)
         (add_scores scores (log_softmax caller))
  /\ length (add_scores scores (log_softmax caller)) = length scores
  /\ (forall i j,
        entry (add_scores scores (log_softmax caller)) i j
        = match entry (log_softmax caller) i j, nth_error scores i with
          | Some y, Some s => Some (float_add y s)
          | _, _ => None
          end).
Proof.
  intros Hc Hm Hscores.
  destruct (_step_check_shape _ _ Hc) as (Hrows & Hwidth).
  unfold batch_size in Hrows. rewrite Hscores in Hrows.
  destruct (mask_rows_spec _ _ _ _ Hm) as (Hlen & _ & Hany & _).
  assert (Hcaller : Forall (fun row => length row = _vocab_size self0) caller).
  { apply Forall_forall. intros crow Hcrow.
    apply In_nth_error in Hcrow as (i & Hcrow).
    assert (Hi : i < length log_probs).
    { rewrite <- Hlen. apply nth_error_Some. congruence. }
    destruct (nth_error log_probs i) as [row|] eqn:Erow;
      [|apply nth_error_None in Erow; lia].
    rewrite Forall_forall in Hwidth.
    assert (Hrowlen : length row = _vocab_size self0)
      by (apply Hwidth; eapply nth_error_In; eauto).
    destruct (Hany i row (Nat.le_0_l i) Erow) as [Hsame|(tb & _ & Hmasked)].
    - congruence.
    - rewrite Hmasked in Hcrow. injection Hcrow as <-. now rewrite length_mask_row. }
  split.
  { apply Forall_forall. intros mrow Hmrow. unfold add_scores in Hmrow.
    apply in_map_iff in Hmrow as ([s nrow] & <- & Hpair). simpl.
    apply in_combine_r in Hpair. unfold log_softmax in Hpair.
    apply in_map_iff in Hpair as (crow & <- & Hcrow).
    rewrite length_map, length_log_softmax_row.
    rewrite Forall_forall in Hcaller. now apply Hcaller. }
  split.
  { unfold add_scores, log_softmax. rewrite length_map, length_combine, length_map. lia. }
  intros i j. unfold entry, add_scores.
  rewrite nth_error_map, nth_error_combine.
  destruct (nth_error scores i) as [s|];
    destruct (nth_error (log_softmax caller) i) as [row|]; simpl; auto.
  - rewrite nth_error_map. destruct (nth_error row j); reflexivity.
  - destruct (nth_error row j); reflexivity.
Qed.

Lemma scored_position (self0 : BeamSearch TB) (log_probs caller : Tensor2) scores pos x :
  _step_check self0 log_probs = true ->
  mask_rows (_row_mask self0) 0 (_tree_builders self0) log_probs = (caller, None) ->
  _scores self0 = Some scores ->
  nth_error (concat (add_scores scores (log_softmax caller))) pos = Some x ->
  exists y s,
    entry (log_softmax caller) (pos / _vocab_size self0) (pos mod _vocab_size self0)
    = Some y
    /\ nth_error scores (pos / _vocab_size self0) = Some s
    /\ x = float_add y s.
Proof.
  intros Hc Hm Hscores Hx.
  destruct (scored_matrix _ _ Hc Hm Hscores) as (Hwidth & _ & Hentry).
  assert (Hvocab : _vocab_size self0 <> 0).
  { intros Hzero. rewrite Hzero in Hwidth.
    rewrite (concat_empty_rows Hwidth) in Hx. now rewrite nth_error_nil in Hx. }
  rewrite (nth_error_concat_uniform Hvocab Hwidth), Hentry in Hx.
  destruct (entry (log_softmax caller) (pos / _vocab_size self0)
              (pos mod _vocab_size self0)) as [y|]; [|discriminate].
  destruct (nth_error scores (pos / _vocab_size self0)) as [s|]; [|discriminate].
  injection Hx as <-. eauto.
Qed.

(** Scores accumulate.  Whatever entries of the flattened scores the
    selection returns, the score of every hypothesis a call creates, be it
    a row of the new beam or a terminated one, is the score of its parent
    plus the log-softmax, over the parent's masked row, of its last token. *)
Theorem child_score_is_parent_plus_log_prob
    (self : BeamSearch TB) (log_probs : Tensor2) self' caller out :
  (forall flat k p, In p (topk flat k) -> nth_error flat (fst p) = Some (snd p)) ->
  well_formed self = true ->
  step num_newline_nodes topk self log_probs = (self', caller, out) ->
  exists self0 old appended,
    ensure_initialized self log_probs = Ok self0
    /\ current_hypotheses self0 = Some old
    /\ _terminated_hypotheses self' = _terminated_hypotheses self ++ appended
    /\ (forall h, In h appended ->
          exists parent_index parent token y,
            nth_error old parent_index = Some parent
            /\ ids h = ids parent ++ [token]
            /\ entry (log_softmax caller) parent_index token = Some y
            /\ score h = float_add y (score parent))
    /\ (forall mask, out = Returned (Some mask) ->
          exists new,
            current_hypotheses self' = Some new
            /\ forall j parent_index,
                 nth_error mask j = Some parent_index ->
                 exists parent child token y,
                   nth_error old parent_index = Some parent
                   /\ nth_error new j = Some child
                   /\ ids child = ids parent ++ [token]
                   /\ entry (log_softmax caller) parent_index token = Some y
                   /\ score child = float_add y (score parent)).
Proof.
  intros Hvalues Hwf Hs.
  destruct (ensure_initialized_well_formed self log_probs Hwf) as (s0 & Hi0 & Hwf0 & Hinit0).
  destruct (well_formed_inv _ Hwf0) as (Hl & Hpos & Hshape).
  destruct (Hshape Hinit0) as (scores & hyps & Hscores & Hhyps & Hhl).
  unfold batch_size in Hl. rewrite Hscores in Hl.
  destruct (step_spec _ _ _ _ Hs)
    as (self0 & cands & processed & rest & results
        & _ & _ & _ & Hsel & Hcands & _ & Hcl & Hterm & _).
  exists s0, (zip_hypotheses hyps (_tree_builders s0) scores), (lefts results).
  split; [exact Hi0|].
  split; [unfold current_hypotheses; now rewrite Hhyps, Hscores|].
  split; [exact Hterm|].
  split.
  - intros h Hin. apply in_lefts in Hin.
    destruct (@classified_in _ _ _ _ _ _ Hcl Hin) as (cand & Hcin & Hcc).
    destruct Hsel as [Hnil|(flat & Hi & Hc & Hm & Hf & Hsel)].
    { subst cands. symmetry in Hcands. apply app_eq_nil in Hcands as [-> _].
      contradiction. }
    rewrite Hi0 in Hi. injection Hi as <-.
    destruct (classify_inl_inv _ _ Hcc)
      as (parent_tb & hyps' & parent_ids & Hp & Hh & Hrow & _ & Hids & Hsc & _).
    rewrite Hhyps in Hh. injection Hh as <-.
    unfold flat_scores in Hf. rewrite Hscores in Hf. injection Hf as <-.
    assert (Hval : nth_error (concat (add_scores scores (log_softmax caller))) (fst cand)
                   = Some (snd cand)).
    { apply (Hvalues _ (num_candidates num_newline_nodes s0)).
      rewrite <- Hsel, Hcands. apply in_or_app. now left. }
    destruct (scored_position _ _ _ Hc Hm Hscores Hval) as (y & s & Hy & Hs0 & Hsum).
    exists (fst cand / _vocab_size s0),
      {| ids := parent_ids; tree_builder := parent_tb; score := s; is_terminated := false |},
      (fst cand mod _vocab_size s0), y.
    repeat split; auto.
    + now rewrite nth_error_zip_hypotheses, Hrow, Hp, Hs0.
    + simpl. congruence.
  - intros mask Hout. subst out.
    destruct (committed_rows _ _ _ _ Hwf Hs)
      as (self1 & scores1 & old & new & tokens & processed1 & rest1
          & Hi & _ & Hc & Hm & Hscores1 & Hsel1 & Hold & Hnew & _ & _ & _ & _ & _ & Hrows).
    rewrite Hi0 in Hi. injection Hi as <-.
    rewrite Hscores in Hscores1. injection Hscores1 as <-.
    unfold current_hypotheses in Hold. rewrite Hhyps, Hscores in Hold.
    injection Hold as <-.
    exists new. split; [exact Hnew|].
    intros j parent_index Hj.
    destruct (Hrows j parent_index Hj)
      as (parent & child & cand & Hcin & _ & Hpi & Hp & Hchild & _ & Hids & _ & Hsc & _).
    assert (Hval : nth_error (concat (add_scores scores (log_softmax caller))) (fst cand)
                   = Some (snd cand)).
    { apply (Hvalues _ (num_candidates num_newline_nodes s0)).
      rewrite Hsel1. apply in_or_app. now left. }
    destruct (scored_position _ _ _ Hc Hm Hscores Hval) as (y & s & Hy & Hs0 & Hsum).
    exists parent, child, (fst cand mod _vocab_size s0), y.
    rewrite <- Hpi in Hy, Hs0.
    assert (Hps : score parent = s).
    { rewrite nth_error_zip_hypotheses in Hp.
      destruct (nth_error hyps parent_index); [|discriminate].
      destruct (nth_error (_tree_builders s0) parent_index); [|discriminate].
      rewrite Hs0 in Hp. now injection Hp as <-. }
    repeat split; auto. congruence.
Qed.

End Children.

(* ------------------------------------------------------------------ *)
(** * The scan of a call that reaches the selection *)

Section ScanClaims.

Context {TB : Type} `{TreeBuilder TB}.
Variable num_newline_nodes : nat.
Variable topk : list float -> nat -> list (nat * float).

Local Abbreviation selection self0 flat :=
  (topk flat (num_candidates num_newline_nodes self0)).

(** A call that passes the shape check and the masking, with enough
    entries for the selection, runs the loop over the selection; what it
    consumes is [scanned], and the outcome is decided by the rows drafted. *)
Lemma step_scan (self : BeamSearch TB) (log_probs : Tensor2) self' caller out self0 flat :
  step num_newline_nodes topk self log_probs = (self', caller, out) ->
  ensure_initialized self log_probs = Ok self0 ->
  _step_check self0 log_probs = true ->
  mask_rows (_row_mask self0) 0 (_tree_builders self0) log_probs = (caller, None) ->
  flat_scores self0 (log_softmax caller) = Some flat ->
  num_candidates num_newline_nodes self0 <= length flat ->
  exists results err,
    map (classify self0) (scanned self0 0 (selection self0 flat)) = map Some results
    /\ dispatch self0 empty_draft (selection self0 flat)
       = (append_terminated self0 (lefts results),
          draft_extend empty_draft (rights results), err)
    /\ _terminated_hypotheses self' = _terminated_hypotheses self ++ lefts results
    /\ (forall e, err = Some e -> out = Raised e)
    /\ (err = None -> rights results = [] ->
        out = Returned None /\ self' = append_terminated self0 (lefts results))
    /\ (out = Returned None ->
        err = None /\ rights results = []
        /\ self' = append_terminated self0 (lefts results))
    /\ (forall mask, out = Returned (Some mask) ->
          mask = map (fun r => snd (fst r)) (rights results)
          /\ _samples self' = Some (map (fun r => fst (fst (fst r))) (rights results))
          /\ _scores self' = Some (map snd (rights results))
          /\ _tree_builders self' = map (fun r => snd (fst (fst r))) (rights results)).
Proof.
  intros Hs Hi Hc Hm Hf Hn. unfold step in Hs. rewrite Hi, Hc in Hs.
  unfold _preprocess_log_probs in Hs. rewrite Hm in Hs.
  unfold _step in Hs. rewrite Hf in Hs.
  apply Nat.ltb_ge in Hn. rewrite Hn in Hs.
  destruct (ensure_initialized_frame _ _ Hi) as (_ & _ & _ & Ht & _).
  destruct (dispatch self0 empty_draft (selection self0 flat)) as [[self1 d] err] eqn:Ed.
  destruct (dispatch_scanned _ _ _ Ed) as (results & Hcl & -> & ->).
  exists results, err. split; [exact Hcl|]. split; [reflexivity|].
  set (d := draft_extend empty_draft (rights results)) in *.
  assert (Hsd : samples d = map (fun r => fst (fst (fst r))) (rights results))
    by reflexivity.
  assert (Hterm0 : _terminated_hypotheses (append_terminated self0 (lefts results))
                   = _terminated_hypotheses self ++ lefts results).
  { cbn [append_terminated _terminated_hypotheses]. now rewrite Ht. }
  destruct err as [e|].
  { injection Hs as <- <-. split; [exact Hterm0|].
    repeat split; try discriminate; congruence. }
  destruct (samples d) as [|s ss] eqn:Esd.
  { assert (Hr : rights results = []).
    { destruct (rights results); [reflexivity|discriminate]. }
    injection Hs as <- <-. split; [exact Hterm0|].
    repeat split; try discriminate; auto. }
  assert (Hne : rights results <> []).
  { intros Hr. rewrite Hr in Hsd. discriminate. }
  destruct (_update_state (append_terminated self0 (lefts results)) d)
    as [self3 [e|]] eqn:Eu;
    destruct (_update_state_frame _ _ Eu) as (Hterm & _ & _ & Hsc & Hmask & Htbs & _ & Hsam);
    injection Hs as <- <-.
  - split; [now rewrite Hterm|].
    repeat split; try discriminate; intros; contradiction.
  - split; [cbn [incr_length _terminated_hypotheses]; now rewrite Hterm|].
    split; [discriminate|].
    split; [intros; contradiction|].
    split; [rewrite Hmask; discriminate|].
    intros mask Hout. rewrite Hmask in Hout. injection Hout as <-.
    cbn [incr_length _samples _scores _tree_builders].
    rewrite Hsam, Hsc, Htbs. repeat split.
Qed.

(** No continuing candidate: every classified candidate is a terminated
    one. *)
Lemma rights_nil_iff (self0 : BeamSearch TB) (consumed : list (nat * float)) :
  forall results,
    map (classify self0) consumed = map Some results ->
    (rights results = []
     <-> Forall (fun cand => exists h, classify self0 cand = Some (inl h)) consumed).
Proof.
  induction consumed as [|c consumed IH]; intros [|r results] Hm;
    simpl in Hm; try discriminate.
  - simpl. split; auto.
  - injection Hm as Hc Hm. specialize (IH _ Hm). destruct r as [h|row]; simpl.
    + rewrite IH. split.
      * intros Hall. constructor; eauto.
      * intros Hall. now inversion Hall.
    + split; [discriminate|]. intros Hall. inversion Hall as [|? ? [h Hh] _]; subst.
      congruence.
Qed.

(** The flattened scores have one entry per row of the beam and token. *)
Lemma length_flat_scores (self0 : BeamSearch TB) (log_probs caller : Tensor2) flat :
  well_formed self0 = true ->
  _step_check self0 log_probs = true ->
  mask_rows (_row_mask self0) 0 (_tree_builders self0) log_probs = (caller, None) ->
  flat_scores self0 (log_softmax caller) = Some flat ->
  length flat = length (_tree_builders self0) * _vocab_size self0.
Proof.
  intros Hwf Hc Hm Hf. unfold flat_scores in Hf.
  destruct (_scores self0) as [scores|] eqn:Es; [|discriminate].
  injection Hf as <-.
  destruct (scored_matrix _ _ Hc Hm Es) as (Hwidth & Hrows & _).
  rewrite (length_concat_uniform Hwidth), Hrows.
  destruct (well_formed_inv _ Hwf) as (Hl & _). unfold batch_size in Hl.
  rewrite Es in Hl. now rewrite Hl.
Qed.

(** C4.  In every call of [step] that reaches the selection, the loop
    consumes the candidates [scanned] gives, and each of them whose advance
    reports [END_LINE] is appended to [terminated], in the order of the
    scan, as a hypothesis holding the parent's tokens followed by the
    chosen token, the candidate's score, the advanced builder and
    [is_terminated = true]; nothing else is appended.  The consumed
    candidates split into these and the rows of the next beam, so a
    terminated candidate takes no row.  Whatever calls follow, [terminated]
    keeps what it holds, in order, and only gets longer. *)
Theorem terminated_candidates_are_appended
    (self : BeamSearch TB) (log_probs : Tensor2) self' caller out self0 flat :
  step num_newline_nodes topk self log_probs = (self', caller, out) ->
  ensure_initialized self log_probs = Ok self0 ->
  _step_check self0 log_probs = true ->
  mask_rows (_row_mask self0) 0 (_tree_builders self0) log_probs = (caller, None) ->
  flat_scores self0 (log_softmax caller) = Some flat ->
  num_candidates num_newline_nodes self0 <= length flat ->
  exists results,
    map (classify self0) (scanned self0 0 (selection self0 flat)) = map Some results
    /\ _terminated_hypotheses self' = _terminated_hypotheses self ++ lefts results
    /\ (forall cand parent hyps parent_ids tb,
          In cand (scanned self0 0 (selection self0 flat)) ->
          nth_error (_tree_builders self0) (fst cand / _vocab_size self0) = Some parent ->
          add_id parent (fst cand mod _vocab_size self0) = (tb, END_LINE) ->
          _hypotheses self0 = Some hyps ->
          nth_error hyps (fst cand / _vocab_size self0) = Some parent_ids ->
          In {| ids := parent_ids ++ [fst cand mod _vocab_size self0];
                tree_builder := tb;
                score := snd cand;
                is_terminated := true |}
             (lefts results))
    /\ (forall h, In h (lefts results) ->
          is_terminated h = true
          /\ exists cand parent hyps parent_ids,
               In cand (scanned self0 0 (selection self0 flat))
               /\ nth_error (_tree_builders self0) (fst cand / _vocab_size self0)
                  = Some parent
               /\ _hypotheses self0 = Some hyps
               /\ nth_error hyps (fst cand / _vocab_size self0) = Some parent_ids
               /\ add_id parent (fst cand mod _vocab_size self0)
                  = (tree_builder h, END_LINE)
               /\ ids h = parent_ids ++ [fst cand mod _vocab_size self0]
               /\ score h = snd cand)
    /\ length (lefts results) + length (rights results)
       = length (scanned self0 0 (selection self0 flat))
    /\ (forall mask, out = Returned (Some mask) ->
          length mask = length (rights results)
          /\ batch_size self' = length (rights results))
    /\ (forall inputs, exists later,
          _terminated_hypotheses (run num_newline_nodes topk self' inputs)
          = _terminated_hypotheses self ++ lefts results ++ later).
Proof.
  intros Hs Hi Hc Hm Hf Hn.
  destruct (@step_scan self log_probs self' caller out self0 flat Hs Hi Hc Hm Hf Hn)
    as (results & err & Hcl & _ & Hterm & _ & _ & _ & Hcommit).
  exists results. split; [exact Hcl|]. split; [exact Hterm|].
  split.
  { intros cand parent hyps parent_ids tb Hin Hp Ha Hh Hix.
    apply in_lefts.
    assert (Hcc : classify self0 cand
                  = Some (inl {| ids := parent_ids ++ [fst cand mod _vocab_size self0];
                                 tree_builder := tb; score := snd cand;
                                 is_terminated := true |})).
    { unfold classify. now rewrite Hp, Ha, Hh, Hix. }
    apply (in_map (classify self0)) in Hin. rewrite Hcl, Hcc in Hin.
    apply in_map_iff in Hin as (r & Hr & Hrin). now injection Hr as ->. }
  split.
  { intros h Hin. apply in_lefts in Hin.
    destruct (@classified_in _ _ _ _ _ _ Hcl Hin) as (cand & Hcin & Hcc).
    destruct (classify_inl_inv _ _ Hcc)
      as (parent & hyps & parent_ids & Hp & Hh & Hix & Ha & Hids & Hsc & Hterminated).
    split; auto. exists cand, parent, hyps, parent_ids. auto 10. }
  split.
  { rewrite length_lefts_rights.
    rewrite <- (length_map (classify self0)), Hcl. symmetry. apply length_map. }
  split.
  { intros mask Hout. destruct (Hcommit mask Hout) as (-> & _ & Hsc & _).
    unfold batch_size. rewrite Hsc. now rewrite !length_map. }
  intros inputs.
  destruct (run_terminated_grows num_newline_nodes topk inputs self') as (later & Hlater).
  exists later. now rewrite Hlater, Hterm, app_assoc.
Qed.

(** C5, as the code has it.  On a well-formed decoder, a call of [step]
    that reaches the selection returns the no-continuation signal exactly
    when it produces no continuing hypothesis, that is when every candidate
    it consumes (possibly none) is a terminated one.  The beam is then left
    as it stood before the scan, not emptied: the active hypotheses are
    those of the (lazily initialised) decoder the call started from, and
    there is at least one. *)
Theorem beam_collapse_keeps_active
    (self : BeamSearch TB) (log_probs : Tensor2) self' caller out self0 flat :
  (forall flat k p, In p (topk flat k) -> nth_error flat (fst p) = Some (snd p)) ->
  well_formed self = true ->
  step num_newline_nodes topk self log_probs = (self', caller, out) ->
  ensure_initialized self log_probs = Ok self0 ->
  _step_check self0 log_probs = true ->
  mask_rows (_row_mask self0) 0 (_tree_builders self0) log_probs = (caller, None) ->
  flat_scores self0 (log_softmax caller) = Some flat ->
  num_candidates num_newline_nodes self0 <= length flat ->
  (out = Returned None
   <-> Forall (fun cand => exists h, classify self0 cand = Some (inl h))
              (scanned self0 0 (selection self0 flat)))
  /\ (out = Returned None ->
      (_is_initialized self = true -> self0 = self)
      /\ current_hypotheses self' = current_hypotheses self0
      /\ _tree_builders self' = _tree_builders self
      /\ batch_size self' = batch_size self
      /\ exists active, current_hypotheses self' = Some active /\ active <> []).
Proof.
  intros Htopk Hwf Hs Hi Hc Hm Hf Hn.
  destruct (ensure_initialized_well_formed self log_probs Hwf) as (s0 & Hi0 & Hwf0 & Hinit0).
  rewrite Hi in Hi0. injection Hi0 as <-.
  destruct (ensure_initialized_frame _ _ Hi)
    as (_ & _ & _ & _ & _ & Htbs & _ & Hbatch & Hsame & _).
  destruct (well_formed_inv _ Hwf0) as (Hl & Hpos & Hshape).
  destruct (Hshape Hinit0) as (scores & hyps & Es & Eh & Hlen).
  destruct (@step_scan self log_probs self' caller out self0 flat Hs Hi Hc Hm Hf Hn)
    as (results & err & Hcl & Hd & _ & _ & Hnone & Hsignal & _).
  assert (Herr : err = None).
  { eapply dispatch_no_error; [exact Hd|exact Eh| |].
    - unfold batch_size in Hl. rewrite Es in Hl. congruence.
    - apply Forall_forall. intros p Hp.
      rewrite <- (@length_flat_scores self0 log_probs caller flat Hwf0 Hc Hm Hf).
      apply nth_error_Some. rewrite (Htopk _ _ _ Hp). discriminate. }
  split.
  - rewrite <- (@rights_nil_iff self0 _ results Hcl). split.
    + intros Hout. now destruct (Hsignal Hout) as (_ & Hr & _).
    + intros Hr. now destruct (Hnone Herr Hr).
  - intros Hout. destruct (Hsignal Hout) as (_ & _ & ->).
    split; [exact Hsame|]. split; [reflexivity|]. split; [exact Htbs|].
    split; [exact Hbatch|].
    exists (zip_hypotheses hyps (_tree_builders self0) scores). split.
    + unfold current_hypotheses. simpl. now rewrite Es, Eh.
    + unfold batch_size in Hl. rewrite Es in Hl.
      destruct hyps, (_tree_builders self0), scores; simpl in *; try lia; discriminate.
Qed.

End ScanClaims.

(* ------------------------------------------------------------------ *)
(** * Failures that do not heal, and the length of the histories *)

Section Sessions.

Context {TB : Type} `{TreeBuilder TB}.
Variable num_newline_nodes : nat.
Variable topk : list float -> nat -> list (nat * float).

(** The row mask is sized by the first tensor a decoder ever sees, before
    that tensor is checked.  If its rows are not [vocab_size] wide the call
    is rejected, but the decoder is spent: every later call is rejected as
    well, a well-shaped one with [IndexError] when the row mask meets the
    row, and neither the decoder nor the tensor changes any more. *)
Theorem wrong_width_first_call_spends_decoder
    (vocab_size beam_size : nat) (tree_builder : TB) (first later : Tensor2) :
  first <> [] ->
  size1 first <> vocab_size ->
  exists self1,
    step num_newline_nodes topk (__init__ vocab_size beam_size tree_builder) first
    = (self1, first, Raised AssertionError)
    /\ step num_newline_nodes topk self1 later
       = (self1, later,
          Raised (if _step_check self1 later then IndexError else AssertionError)).
Proof.
  intros Hrows Hwidth.
  destruct first as [|row rows]; [congruence|]. simpl in Hwidth.
  eexists. split.
  - unfold step, ensure_initialized, _step_check. simpl.
    apply Nat.eqb_neq in Hwidth. rewrite Hwidth, andb_false_r. reflexivity.
  - unfold step, ensure_initialized. cbn [_is_initialized set_is_initialized].
    match goal with |- context [_step_check ?s later] =>
      destruct (_step_check s later) eqn:Ec; [|reflexivity] end.
    unfold _preprocess_log_probs. simpl.
    destruct (forallb (fun i => i <? length row) (get_next_possible_ids tree_builder));
      [|reflexivity].
    destruct later as [|row0 later']; [reflexivity|]. simpl.
    unfold _step_check in Ec. simpl in Ec.
    apply andb_true_iff in Ec as [_ Ec]. apply andb_true_iff in Ec as [Ec _].
    apply Nat.eqb_eq in Ec.
    destruct (length row0 =? length row) eqn:El; [|reflexivity].
    apply Nat.eqb_eq in El. congruence.
Qed.

(** The selection asks for [(1 + num_newline_nodes) * beam_size] entries
    of a tensor that has [batch_size * vocab_size] of them.  When it asks
    for more than there are, the call cannot return: it raises, and it
    terminates no hypothesis. *)
Theorem oversized_selection_raises
    (self : BeamSearch TB) (log_probs : Tensor2) self' caller out :
  well_formed self = true ->
  length (_tree_builders self) * _vocab_size self < num_candidates num_newline_nodes self ->
  step num_newline_nodes topk self log_probs = (self', caller, out) ->
  (exists e, out = Raised e)
  /\ ensure_initialized self log_probs = Ok self'
  /\ _terminated_hypotheses self' = _terminated_hypotheses self.
Proof.
  intros Hwf Hbig Hs.
  destruct (ensure_initialized_well_formed self log_probs Hwf) as (s0 & Hi0 & Hwf0 & Hinit0).
  destruct (ensure_initialized_frame _ _ Hi0)
    as (Hv & Hb & _ & Hterm & _ & Htb & _).
  destruct (well_formed_inv _ Hwf0) as (Hl & Hpos & Hshape).
  destruct (Hshape Hinit0) as (scores & hyps & Hscores & Hhyps & Hhl).
  unfold batch_size in Hl. rewrite Hscores in Hl.
  unfold step in Hs. rewrite Hi0 in Hs.
  destruct (_step_check s0 log_probs) eqn:Ec.
  2:{ injection Hs as <- <- <-. eauto. }
  unfold _preprocess_log_probs in Hs.
  destruct (mask_rows (_row_mask s0) 0 (_tree_builders s0) log_probs) as [masked [e|]] eqn:Em.
  { injection Hs as <- <- <-. eauto. }
  destruct (scored_matrix _ _ Ec Em Hscores) as (Hwidth & Hrows & _).
  unfold _step, flat_scores in Hs. rewrite Hscores in Hs.
  assert (Hsmall : (length (concat (add_scores scores (log_softmax masked)))
                    <? num_candidates num_newline_nodes s0) = true).
  { apply Nat.ltb_lt. rewrite (length_concat_uniform Hwidth), Hrows.
    unfold num_candidates in *. rewrite Hb, Hv, <- Hl, Htb. exact Hbig. }
  rewrite Hsmall in Hs. injection Hs as <- <- <-. eauto.
Qed.

Lemma lockstep_inv (self : BeamSearch TB) :
  lockstep self = true <->
  match _hypotheses self with
  | None => _length self = 1
  | Some hyps => Forall (fun row => S (length row) = _length self) hyps
  end
  /\ Forall (fun h => 1 <= length (ids h) <= _length self) (_terminated_hypotheses self).
Proof.
  unfold lockstep. rewrite andb_true_iff, !forallb_forall, Forall_forall.
  assert (Hterm : (forall h, In h (_terminated_hypotheses self) ->
                     (1 <=? length (ids h)) && (length (ids h) <=? _length self) = true)
                  <-> (forall h, In h (_terminated_hypotheses self) ->
                         1 <= length (ids h) <= _length self)).
  { split; intros Hall h Hin; specialize (Hall h Hin).
    - apply andb_true_iff in Hall as [H1 H2].
      apply Nat.leb_le in H1. apply Nat.leb_le in H2. lia.
    - apply andb_true_iff. split; apply Nat.leb_le; lia. }
  rewrite Hterm.
  destruct (_hypotheses self) as [hyps|].
  - rewrite forallb_forall, Forall_forall.
    split; intros [Hh Ht]; split; auto; intros row Hin; specialize (Hh row Hin).
    + now apply Nat.eqb_eq in Hh.
    + now apply Nat.eqb_eq.
  - rewrite Nat.eqb_eq. tauto.
Qed.

Lemma __init___lockstep (vocab_size beam_size : nat) (tree_builder : TB) :
  lockstep (__init__ vocab_size beam_size tree_builder) = true.
Proof. reflexivity. Qed.

Lemma ensure_initialized_lockstep (self self0 : BeamSearch TB) (log_probs : Tensor2) :
  well_formed self = true ->
  lockstep self = true ->
  ensure_initialized self log_probs = Ok self0 ->
  lockstep self0 = true.
Proof.
  intros Hwf Hlock Hi.
  destruct (ensure_initialized_frame _ _ Hi)
    as (_ & _ & Hlen & Hterm & _ & _ & _ & _ & Hsame & Hfresh).
  destruct (_is_initialized self) eqn:Einit.
  - now rewrite (Hsame eq_refl).
  - destruct (Hfresh eq_refl) as (_ & Hh & _).
    apply lockstep_inv in Hlock as [Hhist Hdone]. apply lockstep_inv.
    rewrite Hh, Hterm, Hlen. split; [|exact Hdone].
    unfold well_formed in Hwf. rewrite Einit in Hwf.
    apply andb_true_iff in Hwf as [_ Hwf].
    destruct (_scores self); [discriminate|].
    destruct (_hypotheses self); [discriminate|].
    constructor; [|constructor]. simpl. lia.
Qed.

Lemma gather_Forall {A} (P : A -> Prop) (t : list A) (inds : list nat) rows :
  Forall P t -> gather t inds = Some rows -> Forall P rows.
Proof.
  intros Hall. revert rows.
  induction inds as [|i inds IH]; intros rows Hg; simpl in Hg.
  - injection Hg as <-. constructor.
  - destruct (nth_error t i) as [row|] eqn:Erow; [|discriminate].
    destruct (gather t inds) as [rows'|]; [|discriminate].
    injection Hg as <-. constructor; auto.
    rewrite Forall_forall in Hall. apply Hall. eapply nth_error_In; eauto.
Qed.

Lemma cat_column_Forall (n : nat) (rows : list (list nat)) (samples : list nat) :
  Forall (fun row => S (length row) = n) rows ->
  Forall (fun row => S (length row) = n + 1) (cat_column rows samples).
Proof.
  intros Hall. unfold cat_column. rewrite Forall_map.
  apply Forall_forall. intros [row s] Hin. apply in_combine_l in Hin.
  rewrite Forall_forall in Hall. specialize (Hall row Hin).
  simpl. rewrite length_app. simpl. lia.
Qed.

(** The decoder advances in lock-step.  Through every call, whatever its
    outcome, every row of the history holds [_length - 1] tokens, and every
    terminated hypothesis holds at least one token and at most [_length]. *)
Theorem step_keeps_lockstep
    (self : BeamSearch TB) (log_probs : Tensor2) self' caller out :
  well_formed self = true ->
  lockstep self = true ->
  step num_newline_nodes topk self log_probs = (self', caller, out) ->
  lockstep self' = true.
Proof.
  intros Hwf Hlock Hs. apply step_traced in Hs.
  destruct (ensure_initialized_well_formed self log_probs Hwf) as (s0 & Hi0 & Hwf0 & Hinit0).
  pose proof (ensure_initialized_lockstep _ _ Hwf Hlock Hi0) as Hlock0.
  inversion Hs as [ e Hi | self0 Hi Hc | self0 masked e Hi Hc Hm
                  | self0 masked Hi Hc Hm Hsc | self0 masked flat Hi Hc Hm Hf Hn
                  | self0 masked flat self1 d err self2 out2 Hi Hc Hm Hf Hn Hd Hfin];
    subst; try congruence.
  rewrite Hi0 in Hi. injection Hi as <-.
  destruct (dispatch_spec _ _ _ Hd) as (processed & rest & results & _ & _ & Hcl & -> & ->).
  destruct (well_formed_inv _ Hwf0) as (Hl & Hpos & Hshape).
  destruct (Hshape Hinit0) as (scores & hyps & Hscores & Hhyps & Hlen).
  pose proof Hlock0 as Hinv. apply lockstep_inv in Hinv as [Hhist Hdone].
  rewrite Hhyps in Hhist.
  assert (Hnew : Forall (fun h => 1 <= length (ids h) <= _length s0) (lefts results)).
  { apply Forall_forall. intros h Hin. apply in_lefts in Hin.
    destruct (@classified_in _ _ _ _ _ _ Hcl Hin) as (cand & _ & Hcc).
    destruct (classify_inl_inv _ _ Hcc) as (_ & hyps' & parent_ids & _ & Hh & Hrow & _ & Hids & _).
    rewrite Hhyps in Hh. injection Hh as <-.
    rewrite Forall_forall in Hhist. apply nth_error_In in Hrow.
    specialize (Hhist _ Hrow). rewrite Hids, length_app. simpl. lia. }
  assert (Hlock1 : lockstep (append_terminated s0 (lefts results)) = true).
  { apply lockstep_inv. simpl. rewrite Hhyps. split; [exact Hhist|].
    apply Forall_app. auto. }
  destruct err as [e|]; [destruct Hfin as [-> _]; exact Hlock1|].
  destruct (samples (draft_extend empty_draft (rights results))) as [|s ss] eqn:Esamples;
    [destruct Hfin as [-> _]; exact Hlock1|].
  apply classify_row_in_range in Hcl.
  assert (Hrange : Forall (fun i => i < length hyps)
                     (sort_mask (draft_extend empty_draft (rights results)))).
  { simpl. rewrite Forall_map. unfold batch_size in Hl. rewrite Hscores in Hl.
    rewrite Hlen, <- Hl. exact Hcl. }
  destruct (gather_in_range hyps Hrange) as (rows & Hrows & Hrowlen).
  unfold _update_state in Hfin.
  change (_hypotheses (append_terminated s0 (lefts results))) with (_hypotheses s0) in Hfin.
  rewrite Hhyps, Hrows in Hfin. destruct Hfin as [-> _].
  apply lockstep_inv.
  cbn [incr_length _hypotheses _length _terminated_hypotheses append_terminated].
  split.
  - apply cat_column_Forall. eapply gather_Forall; eauto.
  - apply Forall_app. split.
    + eapply Forall_impl; [|exact Hdone]. simpl. intros h Hh. lia.
    + eapply Forall_impl; [|exact Hnew]. simpl. intros h Hh. lia.
Qed.

(** [last_predictions] on a decoder of a session: its assertion fails
    exactly as long as no step has committed a row ([_length] is still 1);
    afterwards it returns one token per row of the beam. *)
Theorem last_predictions_needs_a_committed_step (self : BeamSearch TB) :
  well_formed self = true ->
  lockstep self = true ->
  (last_predictions self = Err AssertionError <-> _length self = 1)
  /\ (forall tokens, last_predictions self = Ok tokens ->
        _length self <> 1 /\ length tokens = batch_size self).
Proof.
  intros Hwf Hlock. apply lockstep_inv in Hlock as [Hhist _].
  unfold last_predictions.
  destruct (_hypotheses self) as [hyps|] eqn:Eh.
  - assert (Hinit : _is_initialized self = true).
    { unfold well_formed in Hwf. rewrite Eh in Hwf.
      apply andb_true_iff in Hwf as [_ Hwf].
      destruct (_is_initialized self); [reflexivity|].
      destruct (_scores self); discriminate. }
    destruct (well_formed_inv _ Hwf) as (Hl & Hpos & Hshape).
    destruct (Hshape Hinit) as (scores & hyps' & Hscores & Hh & Hlen).
    rewrite Eh in Hh. injection Hh as <-.
    unfold batch_size in *. rewrite Hscores in *.
    destruct hyps as [|row hyps]; [simpl in Hlen; lia|].
    inversion Hhist as [|? ? Hrow _]; subst. simpl history_length.
    destruct (0 <? length row) eqn:Epos.
    + apply Nat.ltb_lt in Epos. split.
      * split; [discriminate|lia].
      * intros tokens Ht. injection Ht as <-. split; [lia|]. simpl. rewrite length_map. exact Hlen.
    + apply Nat.ltb_ge in Epos. split.
      * split; [lia|reflexivity].
      * discriminate.
  - split; [tauto|discriminate].
Qed.

End Sessions.

(* ------------------------------------------------------------------ *)
(** * Sorting: what a descending order gives *)

Section Sorting.

Context {A : Type}.
Variable lt : A -> A -> bool.
Variable P : A -> Prop.

Hypothesis lt_negatively_transitive :
  forall a b c, P a -> P b -> P c -> lt a b = false -> lt b c = false -> lt a c = false.
Hypothesis lt_asymmetric :
  forall a b, P a -> P b -> lt a b = true -> lt b a = false.

Lemma insert_desc_Forall (Q : A -> Prop) (x : A) (l : list A) :
  Q x -> Forall Q l -> Forall Q (insert_desc lt x l).
Proof.
  intros Hx. induction 1 as [|y l Hy Hl IH]; simpl.
  - auto.
  - destruct (lt x y); auto.
Qed.

Lemma sorted_desc_Forall (Q : A -> Prop) (l : list A) :
  Forall Q l -> Forall Q (sorted_desc lt l).
Proof.
  induction 1 as [|x l Hx Hl IH]; simpl; [constructor|].
  now apply insert_desc_Forall.
Qed.

Lemma insert_desc_sorted (x : A) (l : list A) :
  P x -> Forall P l ->
  StronglySorted (fun a b => lt a b = false) l ->
  StronglySorted (fun a b => lt a b = false) (insert_desc lt x l).
Proof.
  intros Hx HP Hs. induction Hs as [|y l Hs IH Hy]; simpl.
  - repeat constructor.
  - inversion HP as [|? ? HPy HPl]; subst.
    destruct (lt x y) eqn:Exy.
    + constructor; [auto|].
      apply insert_desc_Forall; auto.
    + constructor; [now constructor|].
      constructor; [exact Exy|].
      rewrite Forall_forall in *. intros z Hz. eauto.
Qed.

Lemma sorted_desc_sorted (l : list A) :
  Forall P l -> StronglySorted (fun a b => lt a b = false) (sorted_desc lt l).
Proof.
  induction 1 as [|x l Hx Hl IH]; simpl; [constructor|].
  apply insert_desc_sorted; auto. now apply sorted_desc_Forall.
Qed.

End Sorting.

Lemma insert_desc_perm {A} (lt : A -> A -> bool) (x : A) (l : list A) :
  Permutation (insert_desc lt x l) (x :: l).
Proof.
  induction l as [|y l IH]; simpl; [reflexivity|].
  destruct (lt x y); [|reflexivity].
  rewrite IH. apply perm_swap.
Qed.

Lemma sorted_desc_perm {A} (lt : A -> A -> bool) (l : list A) :
  Permutation (sorted_desc lt l) l.
Proof.
  induction l as [|x l IH]; simpl; [reflexivity|].
  rewrite insert_desc_perm. now constructor.
Qed.

Lemma StronglySorted_app_cross {A} (R : A -> A -> Prop) (l1 l2 : list A) :
  StronglySorted R (l1 ++ l2) ->
  StronglySorted R l1 /\ StronglySorted R l2
  /\ forall a b, In a l1 -> In b l2 -> R a b.
Proof.
  induction l1 as [|x l1 IH]; simpl; intros Hs.
  - repeat split; [constructor|exact Hs|contradiction].
  - inversion Hs as [|? ? Hs' Hx]; subst.
    destruct (IH Hs') as (H1 & H2 & Hcross).
    rewrite Forall_app in Hx. destruct Hx as [Hx1 Hx2].
    repeat split; auto.
    + now constructor.
    + intros a b [<-|Ha] Hb; [|now apply Hcross].
      rewrite Forall_forall in Hx2. now apply Hx2.
Qed.

Lemma StronglySorted_firstn {A} (R : A -> A -> Prop) (k : nat) (l : list A) :
  StronglySorted R l -> StronglySorted R (firstn k l).
Proof.
  intros Hs. rewrite <- (firstn_skipn k l) in Hs.
  now apply StronglySorted_app_cross in Hs.
Qed.

Lemma topk_ltb_negatively_transitive (a b c : nat * float) :
  topk_ltb a b = false -> topk_ltb b c = false -> topk_ltb a c = false.
Proof.
  unfold topk_ltb.
  destruct (snd a) as [x| | |], (snd b) as [y| | |], (snd c) as [z| | |];
    simpl; auto; try discriminate.
  destruct (Rlt_dec x y), (Rlt_dec y z), (Rlt_dec x z); auto; try discriminate; lra.
Qed.

Lemma topk_ltb_asymmetric (a b : nat * float) :
  topk_ltb a b = true -> topk_ltb b a = false.
Proof.
  unfold topk_ltb.
  destruct (snd a) as [x| | |], (snd b) as [y| | |]; simpl; auto; try discriminate.
  destruct (Rlt_dec x y), (Rlt_dec y x); auto; try discriminate; lra.
Qed.

(** The sorted selection is in descending order. *)
Lemma topk_sorted_descending (flat : list float) (k : nat) :
  descending (topk_sorted flat k).
Proof.
  unfold descending, topk_sorted. apply StronglySorted_firstn.
  apply (@sorted_desc_sorted _ topk_ltb (fun _ => True)).
  - intros a b c _ _ _. apply topk_ltb_negatively_transitive.
  - intros a b _ _. apply topk_ltb_asymmetric.
  - apply Forall_forall. auto.
Qed.



(* ------------------------------------------------------------------ *)
(** * Scanning a descending selection *)

Section DescendingSelection.

Context {TB : Type} `{TreeBuilder TB}.
Variable num_newline_nodes : nat.
Variable topk : list float -> nat -> list (nat * float).

Local Abbreviation selection self0 flat :=
  (topk flat (num_candidates num_newline_nodes self0)).

(** With a selection that returns its entries in descending order (what
    [sorted=True] gives), the scan of a call that reaches the selection is
    a best-first scan: the selection is the consumed candidates followed by
    the unscanned ones, no unscanned candidate, cut off by the beam size or
    by a NaN, scores above a consumed one, and so none scores above a
    hypothesis the call terminated or a row it committed. *)
Theorem descending_selection_scans_best_first
    (self : BeamSearch TB) (log_probs : Tensor2) self' caller out self0 flat :
  (forall flat k, descending (topk flat k)) ->
  step num_newline_nodes topk self log_probs = (self', caller, out) ->
  ensure_initialized self log_probs = Ok self0 ->
  _step_check self0 log_probs = true ->
  mask_rows (_row_mask self0) 0 (_tree_builders self0) log_probs = (caller, None) ->
  flat_scores self0 (log_softmax caller) = Some flat ->
  num_candidates num_newline_nodes self0 <= length flat ->
  let consumed := scanned self0 0 (selection self0 flat) in
  let unscanned := skipn (length consumed) (selection self0 flat) in
  selection self0 flat = consumed ++ unscanned
  /\ (forall c d, In c consumed -> In d unscanned -> topk_ltb c d = false)
  /\ exists results,
       map (classify self0) consumed = map Some results
       /\ _terminated_hypotheses self' = _terminated_hypotheses self ++ lefts results
       /\ (forall h cand, In h (lefts results) -> In cand unscanned ->
             topk_ltb (fst cand, score h) cand = false)
       /\ (forall mask, out = Returned (Some mask) ->
             _scores self' = Some (map snd (rights results))
             /\ forall s cand, In s (map snd (rights results)) -> In cand unscanned ->
                  topk_ltb (fst cand, s) cand = false).
Proof.
  intros Hdesc Hs Hi Hc Hm Hf Hn consumed unscanned.
  assert (Hsplit : selection self0 flat = consumed ++ unscanned)
    by apply scanned_prefix.
  assert (Hcross : forall c d, In c consumed -> In d unscanned -> topk_ltb c d = false).
  { pose proof (Hdesc flat (num_candidates num_newline_nodes self0)) as Hd.
    rewrite Hsplit in Hd. now apply StronglySorted_app_cross in Hd. }
  split; [exact Hsplit|]. split; [exact Hcross|].
  destruct (@step_scan TB _ num_newline_nodes topk self log_probs self' caller out self0 flat Hs Hi Hc Hm Hf Hn)
    as (results & err & Hcl & _ & Hterm & _ & _ & _ & Hcommit).
  exists results. split; [exact Hcl|]. split; [exact Hterm|]. split.
  - intros h cand Hh Hcand. apply in_lefts in Hh.
    destruct (@classified_in _ _ _ _ _ _ Hcl Hh) as (c & Hcin & Hcc).
    destruct (classify_inl_inv _ _ Hcc) as (? & ? & ? & _ & _ & _ & _ & _ & Hsc & _).
    specialize (Hcross c cand Hcin Hcand). unfold topk_ltb in *. simpl. now rewrite Hsc.
  - intros mask Hout. destruct (Hcommit mask Hout) as (_ & _ & Hscores & _).
    split; [exact Hscores|].
    intros s cand Hin Hcand.
    apply in_map_iff in Hin as ([[[token tb] hyp_ind] sc] & <- & Hr).
    apply in_rights in Hr.
    destruct (@classified_in _ _ _ _ _ _ Hcl Hr) as (c & Hcin & Hcc).
    destruct (classify_inr_inv _ _ Hcc) as (parent & _ & _ & Hsc & _).
    specialize (Hcross c cand Hcin Hcand). unfold topk_ltb in *. simpl. now rewrite Hsc.
Qed.

End DescendingSelection.

(* ------------------------------------------------------------------ *)
(** * The scan on concrete sessions *)

Section ConcreteScans.

Lemma terminated_candidates_are_appended_witness :
  exists flat results,
    flat_scores (started line_end_decoder two_log_probs)
                (log_softmax [[Fin (-1)%R; NegInf]]) = Some flat
    /\ map (classify (started line_end_decoder two_log_probs))
           (scanned (started line_end_decoder two_log_probs) 0
                    (topk_sorted flat
                       (num_candidates 1 (started line_end_decoder two_log_probs))))
       = map Some results
    /\ _terminated_hypotheses line_end_decoder_after
       = _terminated_hypotheses line_end_decoder ++ lefts results
    /\ length (lefts results) + length (rights results)
       = length (scanned (started line_end_decoder two_log_probs) 0
                         (topk_sorted flat
                            (num_candidates 1 (started line_end_decoder two_log_probs)))).
Proof.
  exists (concat (add_scores [Fin 0%R] (log_softmax [[Fin (-1)%R; NegInf]]))).
  destruct (@terminated_candidates_are_appended FixedGrammar _ 1 topk_sorted
              line_end_decoder two_log_probs line_end_decoder_after
              [[Fin (-1)%R; NegInf]] (Returned (Some [0]))
              (started line_end_decoder two_log_probs)
              (concat (add_scores [Fin 0%R] (log_softmax [[Fin (-1)%R; NegInf]])))
              line_end_step eq_refl eq_refl eq_refl eq_refl)
    as (results & Hcl & Hterm & _ & _ & Hlen & _).
  - cbn. lia.
  - exists results. repeat split; assumption.
Defined.

(** C5 fails as stated.  A decoder for which no token is legal gets NaN
    everywhere, scans nothing and returns the no-continuation signal; its
    active hypotheses are then the one (empty) hypothesis it started with,
    not the empty list. *)
Lemma beam_collapse_leaves_active_hypothesis :
  step 1 topk_sorted exhausted_decoder two_log_probs
  = (exhausted_decoder_after, [[NegInf; NegInf]], Returned None)
  /\ current_hypotheses exhausted_decoder_after
     = Some [ {| ids := []; tree_builder := grammar_none_legal;
                 score := Fin 0%R; is_terminated := false |} ]
  /\ current_hypotheses exhausted_decoder_after <> Some [].
Proof. split; [exact exhausted_step|]. split; [reflexivity|discriminate]. Qed.

Lemma beam_collapse_keeps_active_witness :
  (Returned None = Returned None
   <-> Forall (fun cand =>
                 exists h, classify (started exhausted_decoder two_log_probs) cand
                           = Some (inl h))
              (scanned (started exhausted_decoder two_log_probs) 0
                 (topk_sorted
                    (concat (add_scores [Fin 0%R] (log_softmax [[NegInf; NegInf]])))
                    (num_candidates 1 (started exhausted_decoder two_log_probs)))))
  /\ current_hypotheses exhausted_decoder_after
     = current_hypotheses (started exhausted_decoder two_log_probs)
  /\ exists active,
       current_hypotheses exhausted_decoder_after = Some active /\ active <> [].
Proof.
  destruct (@beam_collapse_keeps_active FixedGrammar _ 1 topk_sorted
              exhausted_decoder two_log_probs exhausted_decoder_after
              [[NegInf; NegInf]] (Returned None)
              (started exhausted_decoder two_log_probs)
              (concat (add_scores [Fin 0%R] (log_softmax [[NegInf; NegInf]])))
              topk_sorted_values eq_refl exhausted_step eq_refl eq_refl eq_refl eq_refl)
    as (Hiff & Hkeep).
  - cbn. lia.
  - split; [exact Hiff|].
    destruct (Hkeep eq_refl) as (_ & Hcur & _ & _ & Hactive).
    split; assumption.
Defined.

(** C10 fails as stated.  A call in which every token is legal returns
    with the caller's tensor exactly as it was passed, and so does a call
    that the shape check rejects. *)
Lemma legal_or_rejected_call_keeps_tensor :
  step 2 topk_sorted free_decoder free_log_probs
  = (free_decoder_after 1 (free_score (-1)%R), free_log_probs, Returned (Some [0]))
  /\ step 1 topk_sorted starved_decoder_after two_log_probs
     = (starved_decoder_after, two_log_probs, Raised AssertionError).
Proof. split; [exact free_step_sorted|reflexivity]. Qed.

Lemma step_masks_caller_tensor_witness :
  entry [[Fin (-1)%R; NegInf; NegInf; NegInf]] 0 0 = Some (Fin (-1)%R)
  /\ entry [[Fin (-1)%R; NegInf; NegInf; NegInf]] 0 1 = Some NegInf
  /\ [[Fin (-1)%R; NegInf; NegInf; NegInf]] <> starved_log_probs.
Proof.
  destruct (@step_masks_caller_tensor FixedGrammar _ 1 topk_sorted starved_decoder
              starved_log_probs starved_decoder_after
              [[Fin (-1)%R; NegInf; NegInf; NegInf]] (Returned (Some [0; 0]))
              starved_step) as (_ & _ & Hreturned).
  destruct (Hreturned (Some [0; 0]) eq_refl eq_refl) as (Hentries & Hsame).
  split; [exact (Hentries 0 0 (Fin (-1)%R) eq_refl)|].
  split; [exact (Hentries 0 1 (Fin (-2)%R) eq_refl)|].
  intros Heq. destruct Hsame as [Hall _].
  specialize (Hall Heq 0 1 (Fin (-2)%R) eq_refl eq_refl). discriminate.
Defined.

Lemma descending_selection_scans_best_first_witness :
  topk_sorted free_flat (num_candidates 2 (started free_decoder free_log_probs))
  = scanned (started free_decoder free_log_probs) 0
            (topk_sorted free_flat
               (num_candidates 2 (started free_decoder free_log_probs)))
    ++ skipn (length (scanned (started free_decoder free_log_probs) 0
                        (topk_sorted free_flat
                           (num_candidates 2 (started free_decoder free_log_probs)))))
             (topk_sorted free_flat
                (num_candidates 2 (started free_decoder free_log_probs)))
  /\ forall c d,
       In c (scanned (started free_decoder free_log_probs) 0
               (topk_sorted free_flat
                  (num_candidates 2 (started free_decoder free_log_probs)))) ->
       In d (skipn (length (scanned (started free_decoder free_log_probs) 0
                              (topk_sorted free_flat
                                 (num_candidates 2
                                    (started free_decoder free_log_probs)))))
                   (topk_sorted free_flat
                      (num_candidates 2 (started free_decoder free_log_probs)))) ->
       topk_ltb c d = false.
Proof.
  destruct (@descending_selection_scans_best_first FixedGrammar _ 2 topk_sorted
              free_decoder free_log_probs (free_decoder_after 1 (free_score (-1)%R))
              free_log_probs (Returned (Some [0]))
              (started free_decoder free_log_probs) free_flat
              topk_sorted_descending free_step_sorted eq_refl eq_refl eq_refl
              free_flat_scores)
    as (Hsplit & Hcross & _).
  - cbn. lia.
  - split; assumption.
Defined.

End ConcreteScans.

(* ------------------------------------------------------------------ *)
(** * Comprehensions that may raise *)

Section ForEach.

Context {E A B : Type}.
Variable f : A -> result E B.

Lemma for_each_Return (xs : list A) (ys : list B) :
  for_each f xs = Return ys <-> Forall2 (fun x y => f x = Return y) xs ys.
Proof.
  revert ys. induction xs as [|x xs IH]; intros ys; simpl.
  - split.
    + intros Heq. injection Heq as <-. constructor.
    + intros Hall. inversion Hall. reflexivity.
  - split.
    + intros Heq. destruct (f x) as [y|e] eqn:Efx; [|discriminate]. simpl in Heq.
      destruct (for_each f xs) as [ys'|e]; [|discriminate]. simpl in Heq.
      injection Heq as <-. constructor; [exact Efx|]. now apply IH.
    + intros Hall. inversion Hall as [|? y ? ys' Hfx Hrest]; subst.
      rewrite Hfx. simpl. apply IH in Hrest. now rewrite Hrest.
Qed.

Lemma for_each_Raise (xs : list A) (e : E) :
  for_each f xs = Raise e -> exists x, In x xs /\ f x = Raise e.
Proof.
  induction xs as [|x xs IH]; simpl; [discriminate|].
  destruct (f x) as [y|e'] eqn:Efx; simpl.
  - destruct (for_each f xs) as [ys|e'']; simpl; [discriminate|].
    intros Heq. injection Heq as ->. destruct (IH eq_refl) as (x' & Hin & Hx').
    eauto.
  - intros Heq. injection Heq as ->. eauto.
Qed.


Lemma for_each_length (xs : list A) (ys : list B) :
  for_each f xs = Return ys -> length ys = length xs.
Proof.
  intros Heq. apply for_each_Return in Heq. symmetry. eapply Forall2_length; eauto.
Qed.

Lemma for_each_nth_error (xs : list A) (ys : list B) (k : nat) :
  for_each f xs = Return ys ->
  match nth_error xs k, nth_error ys k with
  | Some x, Some y => f x = Return y
  | None, None => True
  | _, _ => False
  end.
Proof.
  intros Heq. apply for_each_Return in Heq. revert k.
  induction Heq as [|x y xs ys Hxy Hrest IH]; intros [|k]; simpl; auto.
  apply IH.
Qed.

Lemma for_each_firstn (xs : list A) (ys : list B) (k : nat) :
  for_each f xs = Return ys -> for_each f (firstn k xs) = Return (firstn k ys).
Proof.
  intros Heq. apply for_each_Return in Heq. apply for_each_Return. revert k.
  induction Heq as [|x y xs ys Hxy Hrest IH]; intros [|k]; simpl; constructor; auto.
Qed.

End ForEach.

(* ------------------------------------------------------------------ *)
(** * The post-processor's top k *)

Section TopK.

Local Open Scope R_scope.

Lemma float_ltb_negatively_transitive (x y z : float) :
  isnan x = false -> isnan y = false -> isnan z = false ->
  float_ltb x y = false -> float_ltb y z = false -> float_ltb x z = false.
Proof.
  destruct x as [a| | |], y as [b| | |], z as [c| | |]; simpl; auto; try discriminate.
  intros _ _ _.
  destruct (Rlt_dec a b), (Rlt_dec b c), (Rlt_dec a c); auto; try discriminate; lra.
Qed.

Lemma float_ltb_asymmetric (x y : float) :
  float_ltb x y = true -> float_ltb y x = false.
Proof.
  destruct x as [a| | |], y as [b| | |]; simpl; auto; try discriminate.
  destruct (Rlt_dec a b), (Rlt_dec b a); auto; try discriminate; lra.
Qed.

Lemma isnan__normalize_score (pp : PredictionPostprocessor) (len : nat) (x : float) :
  isnan (_normalize_score pp len x) = isnan x.
Proof. destruct x; reflexivity. Qed.



(** [get_top_k] ranks: when no raw score is NaN, the hypotheses it
    returns come best first by the length-normalised score, and no
    hypothesis it leaves out ranks above one it returns. *)
Theorem get_top_k_best_first
    (pp : PredictionPostprocessor) (hyps : list TextHypothesis) (k : nat) :
  0 < _len_norm_base pp ->
  Forall (fun h => isnan (th_score h) = false) hyps ->
  let key h := _normalize_score pp (th_length h) (th_score h) in
  StronglySorted (fun a b => float_ltb (key a) (key b) = false) (get_top_k pp hyps k)
  /\ exists rest,
       Permutation (get_top_k pp hyps k ++ rest) hyps
       /\ forall a b, In a (get_top_k pp hyps k) -> In b rest ->
            float_ltb (key a) (key b) = false.
Proof.
  intros _ Hnan key. unfold get_top_k, sorted_by_key_reverse.
  fold key.
  set (lt := fun a b : TextHypothesis => float_ltb (key a) (key b)).
  assert (Hsorted : StronglySorted (fun a b => lt a b = false) (sorted_desc lt hyps)).
  { apply (@sorted_desc_sorted _ lt (fun h => isnan (th_score h) = false)).
    - intros a b c Ha Hb Hc. unfold lt, key.
      apply float_ltb_negatively_transitive; now rewrite isnan__normalize_score.
    - intros a b _ _. apply float_ltb_asymmetric.
    - exact Hnan. }
  rewrite <- (firstn_skipn k (sorted_desc lt hyps)) in Hsorted.
  apply StronglySorted_app_cross in Hsorted as (Htop & _ & Hcross).
  split; [exact Htop|].
  exists (skipn k (sorted_desc lt hyps)). split; [|exact Hcross].
  rewrite firstn_skipn. apply sorted_desc_perm.
Qed.

End TopK.

(* ------------------------------------------------------------------ *)
(** * Edit similarity at k *)

Section EditSimilarity.

Local Open Scope R_scope.

Variable editdistance_eval : String.string -> String.string -> nat.

Local Abbreviation edit_similarity := (Evaluation.edit_similarity editdistance_eval).
Local Abbreviation evaluate_score := (Evaluation.evaluate_score editdistance_eval).




Lemma edit_similarity_Return (a b : String.string) (x : float) :
  edit_similarity a b = Return x ->
  (0 < Nat.max (String.length (Evaluation.remove_spaces a))
               (String.length (Evaluation.remove_spaces b)))%nat
  /\ x = Fin ((1 - INR (editdistance_eval (Evaluation.remove_spaces a)
                                          (Evaluation.remove_spaces b))
                   / INR (Nat.max (String.length (Evaluation.remove_spaces a))
                                  (String.length (Evaluation.remove_spaces b)))) * 100).
Proof.
  unfold Evaluation.edit_similarity. intros Heq.
  destruct (Nat.max _ _ =? 0)%nat eqn:Em; [discriminate|].
  apply Nat.eqb_neq in Em. injection Heq as <-. split; [lia|reflexivity].
Qed.

Lemma max_from_spec (best : R) (xs : list float) :
  Forall (fun x => exists r, x = Fin r) xs ->
  exists r,
    Evaluation.max_from (Fin best) xs = Fin r
    /\ In (Fin r) (Fin best :: xs)
    /\ forall y, In (Fin y) (Fin best :: xs) -> y <= r.
Proof.
  intros Hall. revert best. induction Hall as [|x xs (rx & ->) Hall IH]; intros best.
  - exists best. simpl. repeat split; auto. intros y [Hy|[]]. injection Hy as <-. lra.
  - simpl. destruct (Rlt_dec best rx) as [Hlt|Hge].
    + destruct (IH rx) as (r & Hr & Hin & Hmax). exists r. split; [exact Hr|]. split.
      * destruct Hin as [Hin|Hin]; [right; now left|right; now right].
      * intros y [Hy|[Hy|Hy]].
        -- injection Hy as <-. specialize (Hmax rx (or_introl eq_refl)). lra.
        -- apply Hmax. now left.
        -- apply Hmax. now right.
    + destruct (IH best) as (r & Hr & Hin & Hmax). exists r. split; [exact Hr|]. split.
      * destruct Hin as [Hin|Hin]; [now left|right; now right].
      * intros y [Hy|[Hy|Hy]].
        -- apply Hmax. now left.
        -- injection Hy as <-. specialize (Hmax best (or_introl eq_refl)). lra.
        -- apply Hmax. now right.
Qed.

Lemma similarities_finite (target : String.string) (hyps : list TextHypothesis) sims :
  for_each (fun h => edit_similarity (prediction h) target) hyps = Return sims ->
  Forall (fun x => exists r, x = Fin r) sims.
Proof.
  intros Heq. apply for_each_Return in Heq.
  induction Heq as [|h x hyps sims Hx Hrest IH]; constructor; auto.
  apply edit_similarity_Return in Hx as (_ & ->). eauto.
Qed.


(** The score of a prediction is the similarity of one of its top [k]
    hypotheses, and none of them is more similar. *)
Theorem evaluate_score_is_best_similarity
    (pp : PredictionPostprocessor) (pred : Evaluation.Prediction) (k : nat) (s : float) :
  0 < _len_norm_base pp ->
  evaluate_score pp pred k = Return s ->
  (exists h,
     In h (get_top_k pp (Evaluation.hypotheses pred) k)
     /\ edit_similarity (prediction h) (Evaluation.target pred) = Return s)
  /\ (forall h,
        In h (get_top_k pp (Evaluation.hypotheses pred) k) ->
        exists x,
          edit_similarity (prediction h) (Evaluation.target pred) = Return x
          /\ float_ltb s x = false).
Proof.
  intros _. unfold Evaluation.evaluate_score.
  set (top := get_top_k pp (Evaluation.hypotheses pred) k). clearbody top.
  set (sim := fun h => edit_similarity (prediction h) (Evaluation.target pred)).
  destruct (for_each sim top) as [sims|e] eqn:Esims; simpl; [|discriminate].
  destruct sims as [|x xs]; [discriminate|]. intros Heq. injection Heq as <-.
  pose proof (similarities_finite _ _ Esims) as Hfin.
  inversion Hfin as [|? ? (r0 & ->) Hrest]; subst.
  destruct (max_from_spec r0 Hrest) as (r & Hr & Hin & Hmax). rewrite Hr.
  split.
  - apply In_nth_error in Hin as (j & Hj).
    pose proof (for_each_nth_error _ _ j Esims) as Hsim. rewrite Hj in Hsim.
    destruct (nth_error top j) as [h|] eqn:Hh; [|contradiction].
    exists h. split; [eapply nth_error_In; eauto|exact Hsim].
  - intros h Hh. apply In_nth_error in Hh as (j & Hj).
    pose proof (for_each_nth_error _ _ j Esims) as Hsim. rewrite Hj in Hsim.
    destruct (nth_error (Fin r0 :: xs) j) as [y|] eqn:Hy; [|contradiction].
    exists y. split; [exact Hsim|].
    rewrite Forall_forall in Hfin. destruct (Hfin y) as (ry & ->);
      [eapply nth_error_In; eauto|].
    apply float_ltb_Fin_false. apply Hmax. eapply nth_error_In; eauto.
Qed.

(** Edit similarity at [k] does not decrease with [k]: when a prediction
    is scored at [k'], it is scored at every [k] between 1 and [k'], and
    not higher. *)
Theorem evaluate_score_grows_with_k
    (pp : PredictionPostprocessor) (pred : Evaluation.Prediction) (k k' : nat) (s' : float) :
  0 < _len_norm_base pp ->
  (1 <= k <= k')%nat ->
  evaluate_score pp pred k' = Return s' ->
  exists s, evaluate_score pp pred k = Return s /\ float_ltb s' s = false.
Proof.
  intros _ Hk. unfold Evaluation.evaluate_score.
  assert (Htop : get_top_k pp (Evaluation.hypotheses pred) k
                 = firstn k (get_top_k pp (Evaluation.hypotheses pred) k')).
  { unfold get_top_k. rewrite firstn_firstn. f_equal. lia. }
  rewrite Htop.
  set (top := get_top_k pp (Evaluation.hypotheses pred) k'). clearbody top.
  set (sim := fun h => edit_similarity (prediction h) (Evaluation.target pred)).
  destruct (for_each sim top) as [sims|e] eqn:Esims; simpl; [|discriminate].
  destruct sims as [|x xs]; [discriminate|]. intros Heq. injection Heq as <-.
  rewrite (for_each_firstn _ _ k Esims). simpl.
  destruct k as [|k]; [lia|]. simpl.
  pose proof (similarities_finite _ _ Esims) as Hfin.
  inversion Hfin as [|? ? (r0 & ->) Hrest]; subst.
  destruct (max_from_spec r0 Hrest) as (r' & Hr' & _ & Hmax'). rewrite Hr'.
  assert (Hprefix : Forall (fun x => exists r, x = Fin r) (firstn k xs)).
  { rewrite Forall_forall in *. intros y Hy. apply Hrest.
    rewrite <- (firstn_skipn k xs). apply in_or_app. now left. }
  destruct (max_from_spec r0 Hprefix) as (r & Hr & Hin & _). rewrite Hr.
  eexists. split; [reflexivity|].
  apply float_ltb_Fin_false. apply Hmax'.
  destruct Hin as [Hin|Hin]; [now left|right].
  rewrite <- (firstn_skipn k xs). apply in_or_app. now left.
Qed.

(** With a distance that is at most the length of the longer string, as
    the Levenshtein distance is, a similarity lies between 0 and 100 and
    is 100 exactly at distance 0; so does the score of a prediction. *)
Theorem edit_similarity_range :
  (forall a b, (editdistance_eval a b <= Nat.max (String.length a) (String.length b))%nat) ->
  (forall a b x,
     edit_similarity a b = Return x ->
     exists r,
       x = Fin r /\ 0 <= r <= 100
       /\ (r = 100 <-> editdistance_eval (Evaluation.remove_spaces a)
                                         (Evaluation.remove_spaces b) = 0%nat))
  /\ (forall pp pred k s,
        evaluate_score pp pred k = Return s -> exists r, s = Fin r /\ 0 <= r <= 100).
Proof.
  intros Hbound.
  assert (Hone : forall a b x,
            edit_similarity a b = Return x ->
            exists r,
              x = Fin r /\ 0 <= r <= 100
              /\ (r = 100 <-> editdistance_eval (Evaluation.remove_spaces a)
                                                (Evaluation.remove_spaces b) = 0%nat)).
  { intros a b x Hx. apply edit_similarity_Return in Hx as (Hpos & ->).
    set (a' := Evaluation.remove_spaces a) in *.
    set (b' := Evaluation.remove_spaces b) in *.
    specialize (Hbound a' b').
    set (m := Nat.max (String.length a') (String.length b')) in *.
    set (d := editdistance_eval a' b') in *.
    assert (Hm : 0 < INR m) by (apply lt_0_INR; exact Hpos).
    assert (Hd : 0 <= INR d <= INR m) by (split; [apply pos_INR|apply le_INR; exact Hbound]).
    assert (Hq : 0 <= INR d / INR m <= 1).
    { split.
      - apply Rmult_le_pos; [lra|]. left. now apply Rinv_0_lt_compat.
      - apply (Rmult_le_reg_r (INR m)); [exact Hm|]. field_simplify; lra. }
    eexists. split; [reflexivity|]. split; [lra|].
    split.
    - intros Heq. assert (Hz : INR d / INR m = 0) by lra.
      assert (Hd0 : INR d = 0).
      { replace (INR d) with (INR d / INR m * INR m) by (field; lra). rewrite Hz. lra. }
      now apply INR_eq.
    - intros ->. simpl. unfold Rdiv. lra. }
  split; [exact Hone|].
  intros pp pred k s Hs.
  assert (Hbest : exists h,
            edit_similarity (prediction h) (Evaluation.target pred) = Return s).
  { revert Hs. unfold Evaluation.evaluate_score.
    set (top := get_top_k pp (Evaluation.hypotheses pred) k). clearbody top.
    set (sim := fun h => edit_similarity (prediction h) (Evaluation.target pred)).
    destruct (for_each sim top) as [sims|e] eqn:Esims; simpl; [|discriminate].
    destruct sims as [|x xs]; [discriminate|]. intros Heq. injection Heq as <-.
    pose proof (similarities_finite _ _ Esims) as Hfin.
    inversion Hfin as [|? ? (r0 & ->) Hrest]; subst.
    destruct (max_from_spec r0 Hrest) as (r & Hr & Hin & _). rewrite Hr.
    apply In_nth_error in Hin as (j & Hj).
    pose proof (for_each_nth_error _ _ j Esims) as Hsim. rewrite Hj in Hsim.
    destruct (nth_error top j) as [h|]; [eauto|contradiction]. }
  destruct Hbest as (h & Hh). destruct (Hone _ _ _ Hh) as (r & -> & Hr & _). eauto.
Qed.

End EditSimilarity.

Lemma levenshtein_bound (a b : String.string) :
  Evaluation.levenshtein a b <= Nat.max (String.length a) (String.length b).
Proof.
  revert b. induction a as [|x a IHa]; intros b.
  - destruct b; simpl; lia.
  - induction b as [|y b IHb].
    + simpl. lia.
    + cbn [Evaluation.levenshtein]. fold (Evaluation.levenshtein a).
      destruct (Ascii.eqb x y).
      * specialize (IHa b). simpl String.length. lia.
      * specialize (IHa b). simpl String.length. lia.
Qed.

(* ------------------------------------------------------------------ *)
(** * The stateless transformations undo each other *)

Section FacadeTransformations.

Variable Node : Type.

(** [_inverse_apply_transformations] undoes [_apply_transformations]:
    it runs the enabled transformations backwards, last applied first, so
    when each enabled transformation is undone by its inverse the nodes of
    the tree come back, whatever the table holds and in whatever order. *)
Theorem inverse_transformations_undo
    (TRANSFORMATIONS : list (String.string * Facade.Transformation Node))
    (config_transformations : list String.string) (nodes : list Node) :
  (forall name t nodes',
     In (name, t) TRANSFORMATIONS ->
     Facade.enabled config_transformations name = true ->
     Facade.inverse_transform t (Facade.transform t nodes') = nodes') ->
  Facade._inverse_apply_transformations TRANSFORMATIONS config_transformations
    (Facade._apply_transformations TRANSFORMATIONS config_transformations nodes)
  = nodes.
Proof.
  unfold Facade._inverse_apply_transformations, Facade._apply_transformations.
  revert nodes. induction TRANSFORMATIONS as [|[name t] table IH]; intros nodes Hinv.
  - reflexivity.
  - simpl. rewrite fold_left_app. simpl.
    rewrite IH by (intros; eapply Hinv; eauto; now right).
    destruct (Facade.enabled config_transformations name) eqn:Een; [|reflexivity].
    apply (Hinv name); auto. now left.
Qed.

End FacadeTransformations.

(* ------------------------------------------------------------------ *)
(** * Sharding the lines of a file *)

Section Sharding.

Local Open Scope Z_scope.

Lemma __init___fields (config : Dataset.Config) (holdout : String.string)
    (rank world_size : Z) (self : Dataset.PSIDataset) :
  Dataset.__init__ config holdout rank world_size = Return self ->
  0 <= rank < world_size
  /\ Dataset._rank self = rank
  /\ Dataset._world_size self = world_size
  /\ Dataset._overlap_slicing self = Dataset.overlap_slicing config
  /\ Dataset._pad_overlapped self = Dataset.pad_overlapped config
  /\ Dataset._example_len self = Dataset.context_length config
  /\ Dataset._labels_pad self = Dataset.labels_pad config
  /\ PrimFloat.leb PrimFloat.zero (Dataset.overlap_slicing config) = true
  /\ PrimFloat.ltb (Dataset.overlap_slicing config) PrimFloat.one = true.
Proof.
  unfold Dataset.__init__.
  destruct (0 <=? rank) eqn:E0; [|discriminate].
  destruct (rank <? world_size) eqn:E1; [|discriminate]. simpl.
  apply Z.leb_le in E0. apply Z.ltb_lt in E1.
  destruct (PrimFloat.leb PrimFloat.zero (Dataset.overlap_slicing config)) eqn:El;
    [|simpl; repeat destruct (String.eqb _ _); discriminate].
  destruct (PrimFloat.ltb (Dataset.overlap_slicing config) PrimFloat.one) eqn:Eu;
    [|simpl; repeat destruct (String.eqb _ _); discriminate].
  simpl. intros Heq.
  repeat destruct (String.eqb _ _); try discriminate;
    injection Heq as <-; simpl; repeat split; auto.
Qed.

Lemma offset_zero (world r i : Z) :
  0 < world -> 0 <= r < world ->
  (i mod world = r <-> (r - i) mod world = 0).
Proof.
  intros Hw Hr. split.
  - intros <-. rewrite Zminus_mod_idemp_l. rewrite Z.sub_diag. now apply Z.mod_0_l, Z.neq_sym, Z.lt_neq.
  - intros Hd.
    assert (Hdiv : r - i = world * ((r - i) / world)).
    { pose proof (Z.div_mod (r - i) world). lia. }
    symmetry. apply (Z.mod_unique_pos i world (- ((r - i) / world)) r); lia.
Qed.

Lemma offset_step (world r i : Z) :
  0 < world ->
  (r - (i + 1)) mod world
  = if (r - i) mod world =? 0 then world - 1 else (r - i) mod world - 1.
Proof.
  intros Hw.
  pose proof (Z.div_mod (r - i) world ltac:(lia)) as Hdm.
  pose proof (Z.mod_pos_bound (r - i) world Hw) as Hb.
  destruct ((r - i) mod world =? 0) eqn:Ed.
  - apply Z.eqb_eq in Ed. symmetry.
    apply (Z.mod_unique_pos _ world ((r - i) / world - 1)); lia.
  - apply Z.eqb_neq in Ed. symmetry.
    apply (Z.mod_unique_pos _ world ((r - i) / world)); lia.
Qed.

(** The loop of [_get_file_lines] as a round robin: from line [i] on it
    yields the lines at distance [(r - i) mod world], and then every
    [world]-th. *)
Lemma select_lines_round_robin (world r : Z) (lines : list String.string) :
  0 < world -> 0 <= r < world ->
  forall i,
  exists shard,
    Dataset.select_lines world r i lines = Return shard
    /\ forall k : nat,
         nth_error shard k
         = nth_error lines (Z.to_nat ((r - i) mod world + Z.of_nat k * world)).
Proof.
  intros Hw Hr. induction lines as [|line rest IH]; intros i.
  - exists []. split; [reflexivity|]. intros k. now rewrite !nth_error_nil.
  - destruct (IH (i + 1)) as (shard' & Hsel & Hnth). simpl.
    assert (Hw0 : (world =? 0) = false) by (apply Z.eqb_neq; lia).
    rewrite Hw0, Hsel. simpl.
    pose proof (Z.mod_pos_bound (r - i) world Hw) as Hb.
    pose proof (offset_step r i Hw) as Hstep.
    destruct (i mod world =? r) eqn:Ei.
    + apply Z.eqb_eq in Ei. apply (offset_zero i Hw Hr) in Ei.
      rewrite Ei in *. simpl in Hstep.
      exists (line :: shard'). split; [reflexivity|].
      intros [|k].
      * reflexivity.
      * simpl nth_error at 1. rewrite Hnth, Hstep.
        replace (Z.to_nat (0 + Z.of_nat (S k) * world))
          with (S (Z.to_nat (world - 1 + Z.of_nat k * world))) by nia.
        reflexivity.
    + apply Z.eqb_neq in Ei.
      assert (Hd : (r - i) mod world <> 0) by (intros Hd; apply Ei; now apply offset_zero).
      apply Z.eqb_neq in Hd. rewrite Hd in Hstep. apply Z.eqb_neq in Hd.
      exists shard'. split; [reflexivity|].
      intros k. rewrite Hnth, Hstep.
      replace (Z.to_nat ((r - i) mod world + Z.of_nat k * world))
        with (S (Z.to_nat ((r - i) mod world - 1 + Z.of_nat k * world))) by nia.
      reflexivity.
Qed.

(** A worker of a process reads its share of the file round robin: with
    [num_workers] workers in each of [world_size] processes, worker
    [worker_id] of process [rank] yields line [rank * num_workers +
    worker_id] and then every [world_size * num_workers]-th line after it. *)
Theorem worker_reads_round_robin
    (config : Dataset.Config) (holdout : String.string) (rank world_size : Z)
    (self : Dataset.PSIDataset) (lines : list String.string)
    (worker_id num_workers : Z) :
  Dataset.__init__ config holdout rank world_size = Return self ->
  0 <= worker_id < num_workers ->
  exists shard,
    Dataset._get_file_lines self lines worker_id num_workers = Return shard
    /\ forall k : nat,
         nth_error shard k
         = nth_error lines
             (Z.to_nat (rank * num_workers + worker_id
                        + Z.of_nat k * (world_size * num_workers))).
Proof.
  intros Hinit Hworker.
  apply __init___fields in Hinit as (Hrank & Hr & Hw & _).
  unfold Dataset._get_file_lines. rewrite Hr, Hw.
  assert (Hlt : (worker_id <? num_workers) = true) by (apply Z.ltb_lt; lia).
  rewrite Hlt. simpl.
  assert (Hworld : 0 < world_size * num_workers) by nia.
  assert (Hclass : 0 <= rank * num_workers + worker_id < world_size * num_workers) by nia.
  destruct (select_lines_round_robin lines Hworld Hclass 0) as (shard & Hsel & Hnth).
  exists shard. split; [exact Hsel|].
  intros k. rewrite Hnth, Z.sub_0_r, Z.mod_small by exact Hclass. reflexivity.
Qed.

Lemma for_each_map {E A B} (f : A -> result E B) (g : A -> B) (xs : list A) :
  (forall x, In x xs -> f x = Return (g x)) -> for_each f xs = Return (map g xs).
Proof.
  intros Hall. apply for_each_Return.
  induction xs as [|x xs IH]; simpl; constructor.
  - apply Hall. now left.
  - apply IH. intros y Hy. apply Hall. now right.
Qed.

Lemma select_lines_filter (world r : Z) (lines : list String.string) :
  0 < world ->
  forall i : nat,
    Dataset.select_lines world r (Z.of_nat i) lines
    = Return (map snd (filter (fun p => Z.of_nat (fst p) mod world =? r)
                              (combine (seq i (length lines)) lines))).
Proof.
  intros Hw. induction lines as [|line rest IH]; intros i; simpl.
  - reflexivity.
  - assert (Hw0 : (world =? 0) = false) by (apply Z.eqb_neq; lia).
    rewrite Hw0. replace (Z.of_nat i + 1) with (Z.of_nat (S i)) by lia.
    rewrite IH. simpl. destruct (Z.of_nat i mod world =? r); reflexivity.
Qed.

Lemma classes_partition {A} (cls : A -> Z) (l : list A) (M : nat) :
  (forall x, 0 <= cls x) ->
  Permutation (concat (map (fun c => filter (fun x => cls x =? Z.of_nat c) l) (seq 0 M)))
              (filter (fun x => cls x <? Z.of_nat M) l).
Proof.
  intros Hpos. induction M as [|M IH].
  - simpl. induction l as [|x l IHl]; simpl; [constructor|].
    specialize (Hpos x). destruct (cls x <? 0) eqn:E; [apply Z.ltb_lt in E; lia|exact IHl].
  - rewrite seq_S, map_app, concat_app. cbn [map concat Nat.add]. rewrite app_nil_r, IH.
    clear IH. induction l as [|x l IHl]; cbn [filter app]; [constructor|].
    destruct (Z.ltb_spec (cls x) (Z.of_nat M)), (Z.eqb_spec (cls x) (Z.of_nat M)),
             (Z.ltb_spec (cls x) (Z.of_nat (S M))); cbn [app]; try lia.
    + apply perm_skip. exact IHl.
    + apply Permutation_sym, Permutation_cons_app, Permutation_sym, IHl.
    + exact IHl.
Qed.

Lemma map_add_seq (c s n : nat) : map (fun w => (c + w)%nat) (seq s n) = seq (c + s) n.
Proof.
  revert s. induction n as [|n IH]; intros s; simpl; [reflexivity|].
  rewrite IH. repeat f_equal. lia.
Qed.

Lemma worker_classes (datasets : list Dataset.PSIDataset) (N : nat) :
  forall a W,
    Forall2 (fun rank self => Dataset._rank self = Z.of_nat rank) (seq a W) datasets ->
    map (fun sw => Dataset._rank (fst sw) * Z.of_nat N + Z.of_nat (snd sw))
        (list_prod datasets (seq 0 N))
    = map Z.of_nat (seq (a * N) (W * N)).
Proof.
  induction datasets as [|d ds IH]; intros a W Hall.
  - inversion Hall as [Hseq|]. destruct W; [reflexivity|discriminate].
  - destruct W as [|W]; [inversion Hall|]. simpl in Hall.
    inversion Hall as [|? ? ? ? Hd Hrest]; subst.
    simpl list_prod. rewrite map_app, map_map. simpl fst. simpl snd.
    rewrite (IH (S a) W Hrest).
    replace (S W * N)%nat with (N + W * N)%nat by lia.
    rewrite seq_app, map_app. f_equal.
    + rewrite Hd. pose proof (map_add_seq (a * N) 0 N) as Hshift.
      rewrite Nat.add_0_r in Hshift. rewrite <- Hshift, map_map.
      apply map_ext. intros w. lia.
    + f_equal. f_equal. lia.
Qed.

(** The shards partition the file: over all the workers of all the
    processes of a world, every line of the file is read, as often as it
    occurs in the file and by one worker only. *)
Theorem shards_partition_the_file
    (config : Dataset.Config) (holdout : String.string) (world_size num_workers : nat)
    (datasets : list Dataset.PSIDataset) (lines : list String.string) :
  Forall2 (fun rank self =>
             Dataset.__init__ config holdout (Z.of_nat rank) (Z.of_nat world_size)
             = Return self)
          (seq 0 world_size) datasets ->
  (0 < world_size)%nat ->
  (0 < num_workers)%nat ->
  exists shards,
    for_each (fun sw => Dataset._get_file_lines (fst sw) lines
                          (Z.of_nat (snd sw)) (Z.of_nat num_workers))
             (list_prod datasets (seq 0 num_workers))
    = Return shards
    /\ Permutation (concat shards) lines.
Proof.
  intros Hinit HW HN.
  set (world := Z.of_nat world_size * Z.of_nat num_workers).
  assert (Hworld : 0 < world) by (unfold world; nia).
  set (cls := fun p : nat * String.string => Z.of_nat (fst p) mod world).
  set (indexed := combine (seq 0 (length lines)) lines).
  set (shard_of := fun c : Z => map snd (filter (fun p => cls p =? c) indexed)).
  set (class_of := fun sw : Dataset.PSIDataset * nat =>
                     Dataset._rank (fst sw) * Z.of_nat num_workers + Z.of_nat (snd sw)).
  assert (Hfields : Forall (fun self => Dataset._world_size self = Z.of_nat world_size)
                      datasets
                    /\ Forall2 (fun rank self => Dataset._rank self = Z.of_nat rank)
                         (seq 0 world_size) datasets).
  { clear -Hinit. induction Hinit as [|rank self ranks ds Hself Hrest IH].
    - split; constructor.
    - apply __init___fields in Hself as (_ & Hr & Hw & _).
      destruct IH. split; constructor; auto. }
  destruct Hfields as (Hworlds & Hranks).
  exists (map (fun sw => shard_of (class_of sw)) (list_prod datasets (seq 0 num_workers))).
  split.
  - apply for_each_map. intros [self w] Hin. apply in_prod_iff in Hin as [Hself Hw].
    apply in_seq in Hw. rewrite Forall_forall in Hworlds.
    unfold Dataset._get_file_lines. simpl fst. simpl snd.
    rewrite (Hworlds self Hself).
    assert (Hlt : (Z.of_nat w <? Z.of_nat num_workers) = true) by (apply Z.ltb_lt; lia).
    rewrite Hlt. simpl.
    change 0 with (Z.of_nat 0). fold world.
    rewrite (select_lines_filter _ lines Hworld 0). reflexivity.
  - rewrite <- (map_map class_of shard_of).
    unfold class_of. rewrite (@worker_classes datasets num_workers 0%nat world_size Hranks).
    rewrite Nat.mul_0_l, map_map. unfold shard_of.
    rewrite <- (map_map (fun c => filter (fun p => cls p =? Z.of_nat c) indexed) (map snd)).
    rewrite <- concat_map.
    assert (Hall : filter (fun p => cls p <? Z.of_nat (world_size * num_workers)) indexed
                   = indexed).
    { apply forallb_filter_id. apply forallb_forall. intros p _. apply Z.ltb_lt.
      unfold cls. pose proof (Z.mod_pos_bound (Z.of_nat (fst p)) world Hworld).
      unfold world in *. lia. }
    rewrite (classes_partition cls indexed (world_size * num_workers)), Hall.
    + unfold indexed. clear. generalize 0%nat.
      induction lines as [|line rest IH]; intros i; simpl; constructor. apply IH.
    + intros p. unfold cls. apply Z.mod_pos_bound. exact Hworld.
Qed.

End Sharding.

(* ------------------------------------------------------------------ *)
(** * Slicing a line into examples *)

Section PrepareLine.

Local Open Scope Z_scope.

Variable transform : String.string -> option (list Z).

Lemma slice_nth_error {A} (l : list A) (a b : Z) (t : nat) :
  0 <= a -> a <= b ->
  nth_error (Dataset.slice l a b) t
  = if Z.of_nat t <? b - a then nth_error l (Z.to_nat a + t) else None.
Proof.
  intros Ha Hb. unfold Dataset.slice, Dataset.clamp, Dataset.len.
  assert (Ea : (a <? 0) = false) by (apply Z.ltb_ge; lia).
  assert (Eb : (b <? 0) = false) by (apply Z.ltb_ge; lia).
  rewrite Ea, Eb, nth_error_firstn, nth_error_skipn.
  set (n := length l).
  destruct (Nat.ltb_spec t (Z.to_nat (Z.min b (Z.of_nat n) - Z.min a (Z.of_nat n)))) as [Ht|Ht],
           (Z.ltb_spec (Z.of_nat t) (b - a)) as [Hz|Hz]; try lia.
  - f_equal. lia.
  - symmetry. apply nth_error_None. fold n. lia.
  - reflexivity.
Qed.

Lemma fill_prefix_nth_error {A} (t : list A) (b : Z) (v : A) (j : nat) :
  0 <= b ->
  nth_error (Dataset.fill_prefix t b v) j
  = if (Z.of_nat j <? b) && (j <? length t)%nat then Some v else nth_error t j.
Proof.
  intros Hb. unfold Dataset.fill_prefix, Dataset.clamp, Dataset.len.
  assert (Eb : (b <? 0) = false) by (apply Z.ltb_ge; lia).
  rewrite Eb, nth_error_app, repeat_length.
  set (n := length t).
  destruct (Nat.ltb_spec j (Z.to_nat (Z.min b (Z.of_nat n)))) as [Hj|Hj].
  - rewrite nth_error_repeat by exact Hj.
    destruct (Z.ltb_spec (Z.of_nat j) b), (Nat.ltb_spec j n); try lia. reflexivity.
  - rewrite nth_error_skipn.
    replace (Z.to_nat (Z.min b (Z.of_nat n)) + (j - Z.to_nat (Z.min b (Z.of_nat n))))%nat
      with j by lia.
    destruct (Z.ltb_spec (Z.of_nat j) b), (Nat.ltb_spec j n); try lia; reflexivity.
Qed.

Lemma range_positive (stop step : Z) :
  0 < step ->
  Dataset.range stop step
  = Return (map (fun k => Z.of_nat k * step) (seq 0 (Z.to_nat ((stop + step - 1) / step)))).
Proof.
  intros Hs. unfold Dataset.range.
  destruct (Z.eqb_spec step 0); [lia|]. destruct (Z.ltb_spec step 0); [lia|]. reflexivity.
Qed.

(** A configuration can pass the assertions of [__init__] and still give
    the stride 0 (with floats, already for an overlap of 0.9 and examples
    of 10 tokens); then [_prepare_line] raises [ValueError] on every line
    that the facade tokenizes, even on one without tokens. *)
Theorem zero_stride_raises
    (config : Dataset.Config) (holdout : String.string) (rank world_size : Z)
    (self : Dataset.PSIDataset) (line : String.string) (ids : list Z) :
  Dataset.__init__ config holdout rank world_size = Return self ->
  Dataset.stride self = Return 0 ->
  transform line = Some ids ->
  Dataset._prepare_line transform self line = Raise Dataset.ValueError.
Proof.
  intros _ Hstride Hids. unfold Dataset._prepare_line.
  now rewrite Hids, Hstride.
Qed.

Lemma long_tensor_Return (values tensor : list Z) :
  Dataset.long_tensor values = Return tensor -> tensor = values.
Proof.
  unfold Dataset.long_tensor.
  destruct (forallb Dataset.in_int64 values); [congruence|discriminate].
Qed.

Lemma forallb_slice {A} (f : A -> bool) (l : list A) (a b : Z) :
  forallb f l = true -> forallb f (Dataset.slice l a b) = true.
Proof.
  intros Hall. unfold Dataset.slice. apply forallb_forall. intros x Hin.
  rewrite forallb_forall in Hall. apply Hall.
  set (n := Z.to_nat (Dataset.clamp (Dataset.len l) a)) in *.
  rewrite <- (firstn_skipn n l). apply in_or_app. right.
  set (m := Z.to_nat (Dataset.clamp (Dataset.len l) b - Dataset.clamp (Dataset.len l) a)) in *.
  rewrite <- (firstn_skipn m (skipn n l)). apply in_or_app. now left.
Qed.

(** On tokens and a padding label of 64 bits the body of the loop raises
    nothing of its own. *)
Lemma example_returns (self : Dataset.PSIDataset) (ids : list Z) (p start : Z) :
  Dataset.overlap self = Return p ->
  forallb Dataset.in_int64 ids = true ->
  Dataset.in_int64 (Dataset._labels_pad self) = true ->
  exists ex, Dataset.example self ids start = Return ex.
Proof.
  intros Hoverlap Hids Hpad. unfold Dataset.example, Dataset.long_tensor.
  rewrite !forallb_slice by exact Hids. cbn [bind].
  destruct (Dataset._pad_overlapped self && negb (start =? 0)); [|eauto].
  rewrite Hoverlap. cbn [bind]. unfold Dataset.fill_prefix_long. rewrite Hpad.
  cbn [bind]. eauto.
Qed.

(** The example that starts at [start], position by position. *)
Lemma example_nth_error
    (self : Dataset.PSIDataset) (ids : list Z) (p start : Z) (inp labels : list Z) :
  Dataset.overlap self = Return p ->
  0 <= p -> 0 <= Dataset._example_len self -> 0 <= start ->
  Dataset.example self ids start = Return (inp, labels) ->
  (forall t,
     nth_error inp t
     = if Z.of_nat t <? Dataset._example_len self
       then nth_error ids (Z.to_nat start + t)
       else None)
  /\ (forall t,
        nth_error labels t
        = if Z.of_nat t <? Dataset._example_len self
          then match nth_error ids (Z.to_nat start + t + 1) with
               | Some next =>
                   Some (if Dataset._pad_overlapped self
                            && negb (start =? 0) && (Z.of_nat t <? p)
                         then Dataset._labels_pad self else next)
               | None => None
               end
          else None).
Proof.
  intros Hoverlap Hp HL Hstart. unfold Dataset.example.
  set (L := Dataset._example_len self) in *.
  destruct (Dataset.long_tensor (Dataset.slice ids start (start + L)))
    as [inp0|e] eqn:Einp; [|discriminate].
  apply long_tensor_Return in Einp. subst inp0. cbn [bind].
  destruct (Dataset.long_tensor (Dataset.slice ids (start + 1) (start + L + 1)))
    as [labels0|e] eqn:Elabels; [|discriminate].
  apply long_tensor_Return in Elabels. subst labels0. cbn [bind].
  assert (Hraw : forall t,
            nth_error (Dataset.slice ids (start + 1) (start + L + 1)) t
            = if Z.of_nat t <? L then nth_error ids (Z.to_nat start + t + 1) else None).
  { intros t. rewrite slice_nth_error by lia.
    replace (start + L + 1 - (start + 1)) with L by lia.
    replace (Z.to_nat (start + 1) + t)%nat with (Z.to_nat start + t + 1)%nat by lia.
    reflexivity. }
  destruct (Dataset._pad_overlapped self && negb (start =? 0)) eqn:Epad.
  - rewrite Hoverlap. cbn [bind]. unfold Dataset.fill_prefix_long.
    destruct (Dataset.in_int64 (Dataset._labels_pad self)); [|discriminate].
    cbn [bind]. intros Heq; injection Heq as <- <-. split.
    + intros t. rewrite slice_nth_error by lia.
      replace (start + L - start) with L by lia. reflexivity.
    + intros t. rewrite fill_prefix_nth_error by exact Hp.
      pose proof (Hraw t) as Ht. rewrite Ht.
      destruct (Z.of_nat t <? L) eqn:EL.
      * destruct (nth_error ids (Z.to_nat start + t + 1)) as [next|] eqn:Enext.
        -- assert (Hlen : (t <? length (Dataset.slice ids (start + 1) (start + L + 1)))%nat
                          = true).
           { apply Nat.ltb_lt, nth_error_Some. rewrite Ht. discriminate. }
           rewrite Hlen, andb_true_r. simpl. destruct (Z.of_nat t <? p); reflexivity.
        -- assert (Hlen : (t <? length (Dataset.slice ids (start + 1) (start + L + 1)))%nat
                          = false).
           { apply Nat.ltb_ge, nth_error_None. exact Ht. }
           rewrite Hlen, andb_false_r. reflexivity.
      * assert (Hlen : (t <? length (Dataset.slice ids (start + 1) (start + L + 1)))%nat
                       = false).
        { apply Nat.ltb_ge, nth_error_None. exact Ht. }
        rewrite Hlen, andb_false_r. reflexivity.
  - intros Heq; injection Heq as <- <-. split.
    + intros t. rewrite slice_nth_error by lia.
      replace (start + L - start) with L by lia. reflexivity.
    + intros t. rewrite Hraw. destruct (Z.of_nat t <? L); [|reflexivity].
      destruct (nth_error ids (Z.to_nat start + t + 1)); reflexivity.
Qed.

(** A run of [_prepare_line] that returns, on a line that tokenizes and
    for a positive stride: one example for each start below the length of
    the line. *)
Lemma prepare_line_nth
    (self : Dataset.PSIDataset) (line : String.string) (ids : list Z) (s : Z) examples :
  transform line = Some ids ->
  Dataset.stride self = Return s ->
  0 < s ->
  Dataset._prepare_line transform self line = Return examples ->
  length examples = Z.to_nat ((Dataset.len ids + s - 1) / s)
  /\ forall k ex,
       nth_error examples k = Some ex ->
       Dataset.example self ids (Z.of_nat k * s) = Return ex.
Proof.
  intros Hids Hstride Hs.
  unfold Dataset._prepare_line. rewrite Hids, Hstride. simpl.
  rewrite (range_positive _ Hs). simpl.
  set (starts := map (fun k => Z.of_nat k * s)
                     (seq 0 (Z.to_nat ((Dataset.len ids + s - 1) / s)))).
  intros Erun. split.
  - rewrite (for_each_length _ _ Erun). unfold starts.
    now rewrite length_map, length_seq.
  - intros k ex Hk. pose proof (for_each_nth_error _ _ k Erun) as Hnth.
    rewrite Hk in Hnth. unfold starts in Hnth.
    rewrite nth_error_map, nth_error_seq in Hnth.
    destruct (k <? Z.to_nat ((Dataset.len ids + s - 1) / s))%nat; simpl in Hnth;
      [exact Hnth|contradiction].
Qed.

(** On tokens and a padding label of 64 bits, [_prepare_line] returns for
    every positive stride. *)
Lemma prepare_line_returns
    (self : Dataset.PSIDataset) (line : String.string) (ids : list Z) (s p : Z) :
  transform line = Some ids ->
  Dataset.stride self = Return s ->
  Dataset.overlap self = Return p ->
  0 < s ->
  forallb Dataset.in_int64 ids = true ->
  Dataset.in_int64 (Dataset._labels_pad self) = true ->
  exists examples, Dataset._prepare_line transform self line = Return examples.
Proof.
  intros Hids Hstride Hoverlap Hs Hrange Hpad.
  unfold Dataset._prepare_line. rewrite Hids, Hstride. simpl.
  rewrite (range_positive _ Hs). simpl.
  destruct (for_each (Dataset.example self ids)
              (map (fun k => Z.of_nat k * s)
                   (seq 0 (Z.to_nat ((Dataset.len ids + s - 1) / s)))))
    as [examples|e] eqn:Erun; [eauto|].
  exfalso. apply for_each_Raise in Erun as (start & _ & Hraise).
  destruct (@example_returns self ids p start Hoverlap Hrange Hpad) as (ex & Hex).
  congruence.
Qed.

Lemma start_is_zero (k : nat) (s : Z) :
  0 < s -> (Z.of_nat k * s =? 0) = (k =? 0)%nat.
Proof.
  intros Hs. destruct (Z.eqb_spec (Z.of_nat k * s) 0), (Nat.eqb_spec k 0);
    try reflexivity; nia.
Qed.

(** The examples of a line.  With a positive stride [s], and tokens and a
    padding label that fit the 64 bits of [torch.long], a line of [n]
    tokens gives the integer ceiling of [n / s] examples; example [k]
    starts at token [k * s], its input is up to [example_len] tokens from
    there, and its label at position [t] is the token that follows input
    position [t] in the line, or the padding label in the first [overlap]
    positions of every example but the first when [pad_overlapped] is
    set. *)
Theorem prepare_line_windows
    (self : Dataset.PSIDataset) (line : String.string) (ids : list Z) (s p : Z) :
  transform line = Some ids ->
  Dataset.stride self = Return s ->
  Dataset.overlap self = Return p ->
  0 < s -> 0 <= p -> 0 <= Dataset._example_len self ->
  forallb Dataset.in_int64 ids = true ->
  Dataset.in_int64 (Dataset._labels_pad self) = true ->
  exists examples,
    Dataset._prepare_line transform self line = Return examples
    /\ length examples = Z.to_nat ((Dataset.len ids + s - 1) / s)
    /\ forall k inp labels,
         nth_error examples k = Some (inp, labels) ->
         (forall t,
            nth_error inp t
            = if Z.of_nat t <? Dataset._example_len self
              then nth_error ids (Z.to_nat (Z.of_nat k * s) + t)
              else None)
         /\ (forall t,
               nth_error labels t
               = if Z.of_nat t <? Dataset._example_len self
                 then match nth_error ids (Z.to_nat (Z.of_nat k * s) + t + 1) with
                      | Some next =>
                          Some (if Dataset._pad_overlapped self
                                   && negb (k =? 0)%nat && (Z.of_nat t <? p)
                                then Dataset._labels_pad self else next)
                      | None => None
                      end
                 else None).
Proof.
  intros Hids Hstride Hoverlap Hs Hp HL Hrange Hpad.
  destruct (@prepare_line_returns self line ids s p Hids Hstride Hoverlap Hs Hrange Hpad)
    as (examples & Hrun).
  destruct (@prepare_line_nth self line ids s examples Hids Hstride Hs Hrun)
    as (Hlen & Hnth).
  exists examples. split; [exact Hrun|]. split; [exact Hlen|].
  intros k inp labels Hk. rewrite <- (start_is_zero k Hs).
  apply (@example_nth_error self ids p (Z.of_nat k * s) inp labels); auto; nia.
Qed.

(** Which label positions train which token, in numbers. *)
Lemma trains_iff
    (self : Dataset.PSIDataset) (line : String.string) (ids : list Z) (s p : Z)
    examples (k t : nat) (q : Z) :
  transform line = Some ids ->
  Dataset.stride self = Return s ->
  Dataset.overlap self = Return p ->
  0 < s -> 0 <= p -> 0 <= Dataset._example_len self ->
  ~ In (Dataset._labels_pad self) ids ->
  Dataset._prepare_line transform self line = Return examples ->
  (Dataset.trains self ids examples k t q
   <-> q = Z.of_nat k * s + Z.of_nat t + 1
       /\ Z.of_nat t < Dataset._example_len self
       /\ q < Dataset.len ids
       /\ ~ (Dataset._pad_overlapped self = true /\ k <> 0%nat /\ Z.of_nat t < p)).
Proof.
  intros Hids Hstride Hoverlap Hs Hp HL Hnotpad Hrun.
  destruct (@prepare_line_nth self line ids s examples Hids Hstride Hs Hrun)
    as (Hlen & Hnth).
  assert (Hwin : forall k inp labels,
            nth_error examples k = Some (inp, labels) ->
            forall t,
              nth_error labels t
              = if Z.of_nat t <? Dataset._example_len self
                then match nth_error ids (Z.to_nat (Z.of_nat k * s) + t + 1) with
                     | Some next =>
                         Some (if Dataset._pad_overlapped self
                                  && negb (k =? 0)%nat && (Z.of_nat t <? p)
                               then Dataset._labels_pad self else next)
                     | None => None
                     end
                else None).
  { intros k0 inp labels Hk0. rewrite <- (start_is_zero k0 Hs).
    apply (@example_nth_error self ids p (Z.of_nat k0 * s) inp labels); auto; nia. }
  assert (Hpos : forall k t : nat,
            Z.to_nat (Z.of_nat k * s + Z.of_nat t + 1)
            = (Z.to_nat (Z.of_nat k * s) + t + 1)%nat) by (intros; nia).
  unfold Dataset.trains, Dataset.len in *. split.
  - intros (inp & labels & s' & token & Hk & Hs' & Hq & Htoken & Hlabel & Hne).
    rewrite Hstride in Hs'. injection Hs' as <-. subst q.
    rewrite Hpos in Htoken.
    rewrite (Hwin k inp labels Hk), Htoken in Hlabel.
    destruct (Z.ltb_spec (Z.of_nat t) (Dataset._example_len self)); [|discriminate].
    assert (Hin : (Z.to_nat (Z.of_nat k * s) + t + 1 < length ids)%nat)
      by (apply nth_error_Some; congruence).
    split; [reflexivity|]. split; [assumption|]. split; [nia|].
    intros (Hpad & Hk0 & Htp).
    rewrite Hpad in Hlabel.
    destruct (Nat.eqb_spec k 0); [contradiction|].
    destruct (Z.ltb_spec (Z.of_nat t) p); [|lia].
    simpl in Hlabel. congruence.
  - intros (Hq & Ht & Hn & Hpad).
    assert (Hk : (k < length examples)%nat).
    { rewrite Hlen.
      assert (Hle : Z.of_nat k + 1 <= (Z.of_nat (length ids) + s - 1) / s)
        by (apply Z.div_le_lower_bound; nia).
      lia. }
    destruct (nth_error examples k) as [[inp labels]|] eqn:Ek;
      [|apply nth_error_None in Ek; lia].
    destruct (nth_error ids (Z.to_nat q)) as [token|] eqn:Etoken;
      [|apply nth_error_None in Etoken; nia].
    exists inp, labels, s, token.
    split; [reflexivity|]. split; [exact Hstride|]. split; [exact Hq|].
    split; [reflexivity|].
    assert (Hne : token <> Dataset._labels_pad self).
    { intros ->. apply Hnotpad. eapply nth_error_In; eauto. }
    split; [|exact Hne].
    rewrite (Hwin k inp labels Ek). subst q. rewrite Hpos in Etoken. rewrite Etoken.
    destruct (Z.ltb_spec (Z.of_nat t) (Dataset._example_len self)); [|lia].
    destruct (Dataset._pad_overlapped self) eqn:Epo; [|reflexivity].
    destruct (Nat.eqb_spec k 0); [reflexivity|].
    destruct (Z.ltb_spec (Z.of_nat t) p); [|reflexivity].
    exfalso. apply Hpad. auto.
Qed.

(** What [pad_overlapped] is for.  When the stride and the padded overlap
    add up to the length of an example, and the padding label is none of
    the tokens, every token of a line but the first is trained exactly
    once: one label position of one example holds it as a label that the
    loss counts. *)
Theorem each_token_trained_once
    (self : Dataset.PSIDataset) (line : String.string) (ids : list Z) (s p : Z)
    examples (q : Z) :
  transform line = Some ids ->
  Dataset.stride self = Return s ->
  Dataset.overlap self = Return p ->
  0 < s -> 0 <= p ->
  Dataset._pad_overlapped self = true ->
  s + p = Dataset._example_len self ->
  ~ In (Dataset._labels_pad self) ids ->
  Dataset._prepare_line transform self line = Return examples ->
  1 <= q < Dataset.len ids ->
  exists k t,
    Dataset.trains self ids examples k t q
    /\ forall k' t', Dataset.trains self ids examples k' t' q -> k' = k /\ t' = t.
Proof.
  intros Hids Hstride Hoverlap Hs Hp Hpad Hsum Hnotpad Hrun Hq.
  assert (HL : 0 <= Dataset._example_len self) by lia.
  pose proof (fun k t => @trains_iff self line ids s p examples k t q
                           Hids Hstride Hoverlap Hs Hp HL Hnotpad Hrun) as Hiff.
  set (L := Dataset._example_len self) in *.
  destruct (Z_le_gt_dec q L) as [Hfirst|Hlater].
  - exists 0%nat, (Z.to_nat (q - 1)). split.
    + apply Hiff. repeat split; try lia; intros (_ & Hk & _); congruence.
    + intros k' t' Htr. apply Hiff in Htr as (Hq' & Ht' & _ & Hnot).
      rewrite Hpad in Hnot.
      destruct k' as [|k']; [split; [reflexivity|lia]|].
      exfalso. destruct (Z_lt_ge_dec (Z.of_nat t') p) as [Hlt|Hge].
      * apply Hnot. repeat split; auto.
      * nia.
  - pose proof (Z.div_mod (q - L - 1) s ltac:(lia)) as Hdm.
    pose proof (Z.mod_pos_bound (q - L - 1) s Hs) as Hm.
    assert (Hd : 0 <= (q - L - 1) / s) by (apply Z.div_pos; lia).
    set (d := (q - L - 1) / s) in *. set (m := (q - L - 1) mod s) in *.
    exists (Z.to_nat (d + 1)), (Z.to_nat (p + m)). split.
    + apply Hiff. rewrite !Z2Nat.id by lia. repeat split; try lia;
        intros (_ & _ & Hlt); lia.
    + intros k' t' Htr. apply Hiff in Htr as (Hq' & Ht' & _ & Hnot).
      rewrite Hpad in Hnot.
      assert (Hk' : k' <> 0%nat) by (intros ->; lia).
      assert (Ht'p : p <= Z.of_nat t').
      { destruct (Z_lt_ge_dec (Z.of_nat t') p) as [Hlt|Hge]; [|lia].
        exfalso. apply Hnot. auto. }
      assert (Hdk : Z.of_nat k' - 1 = d).
      { apply (Z.div_unique_pos (q - L - 1) s (Z.of_nat k' - 1) (Z.of_nat t' - p)); lia. }
      split; lia.
Qed.

(** Rounding can defeat the padding.  When the stride and the padded
    overlap add up to less than the length of an example (as they do when
    [overlap_slicing * example_len] is no integer), the padding covers the
    first [overlap] labels of the second example only, and the tokens
    between the padded overlap and the end of the first example are
    trained twice, in the first example and in the second. *)
Theorem short_overlap_trains_twice
    (self : Dataset.PSIDataset) (line : String.string) (ids : list Z) (s p : Z)
    examples (q : Z) :
  transform line = Some ids ->
  Dataset.stride self = Return s ->
  Dataset.overlap self = Return p ->
  0 < s -> 0 <= p ->
  Dataset._pad_overlapped self = true ->
  s + p < Dataset._example_len self ->
  ~ In (Dataset._labels_pad self) ids ->
  Dataset._prepare_line transform self line = Return examples ->
  s + p + 1 <= q <= Dataset._example_len self ->
  q < Dataset.len ids ->
  Dataset.trains self ids examples 0 (Z.to_nat (q - 1)) q
  /\ Dataset.trains self ids examples 1 (Z.to_nat (q - s - 1)) q
  /\ exists inp labels,
       nth_error examples 1 = Some (inp, labels)
       /\ (forall t, Z.of_nat t < p ->
             nth_error labels t = Some (Dataset._labels_pad self)
             /\ ~ Dataset.trains self ids examples 1 t (s + Z.of_nat t + 1))
       /\ nth_error labels (Z.to_nat (q - s - 1)) = nth_error ids (Z.to_nat q).
Proof.
  intros Hids Hstride Hoverlap Hs Hp Hpad Hsum Hnotpad Hrun Hq Hn.
  assert (HL : 0 <= Dataset._example_len self) by lia.
  pose proof (fun k t q => @trains_iff self line ids s p examples k t q
                             Hids Hstride Hoverlap Hs Hp HL Hnotpad Hrun) as Hiff.
  split; [|split].
  - apply Hiff; rewrite Z2Nat.id by lia; repeat split; try lia;
      intros (_ & Hk & Hlt); solve [congruence|lia].
  - apply Hiff; rewrite Z2Nat.id by lia; repeat split; try lia;
      intros (_ & Hk & Hlt); solve [congruence|lia].
  - destruct (@prepare_line_nth self line ids s examples Hids Hstride Hs Hrun)
      as (Hlen & Hnth).
    unfold Dataset.len in *.
    assert (Hk : (1 < length examples)%nat).
    { rewrite Hlen.
      assert (Hle : 2 <= (Z.of_nat (length ids) + s - 1) / s)
        by (apply Z.div_le_lower_bound; nia).
      lia. }
    destruct (nth_error examples 1) as [[inp labels]|] eqn:Ek;
      [|apply nth_error_None in Ek; lia].
    exists inp, labels. split; [reflexivity|].
    destruct (@example_nth_error self ids p (Z.of_nat 1 * s) inp labels
                Hoverlap Hp HL ltac:(lia) (Hnth _ _ Ek)) as (_ & Hlabels).
    assert (Hstart : (Z.of_nat 1 * s =? 0) = false) by (apply Z.eqb_neq; lia).
    rewrite Hpad, Hstart in Hlabels. cbn [andb negb] in Hlabels.
    split.
    + intros t Ht. split.
      * rewrite Hlabels.
        destruct (Z.ltb_spec (Z.of_nat t) (Dataset._example_len self)); [|lia].
        destruct (nth_error ids (Z.to_nat (Z.of_nat 1 * s) + t + 1)) eqn:Enext.
        -- destruct (Z.ltb_spec (Z.of_nat t) p); [reflexivity|lia].
        -- apply nth_error_None in Enext. lia.
      * intros Htr. apply Hiff in Htr as (_ & _ & _ & Hnot). apply Hnot.
        repeat split; auto.
    + rewrite Hlabels.
      destruct (Z.ltb_spec (Z.of_nat (Z.to_nat (q - s - 1)))
                  (Dataset._example_len self)); [|lia].
      replace (Z.to_nat (Z.of_nat 1 * s) + Z.to_nat (q - s - 1) + 1)%nat
        with (Z.to_nat q) by lia.
      destruct (nth_error ids (Z.to_nat q)) eqn:Etoken; [|reflexivity].
      destruct (Z.ltb_spec (Z.of_nat (Z.to_nat (q - s - 1))) p); [lia|reflexivity].
Qed.

End PrepareLine.

(* ------------------------------------------------------------------ *)
(** * Iterating over a dataset *)

Section Iteration.

Local Open Scope Z_scope.

Variable transform : String.string -> option (list Z).
Variable shuffle : nat -> list (list Z * list Z) -> list (list Z * list Z).

Lemma for_each_skipn {E A B} (f : A -> result E B) (xs : list A) (ys : list B) (k : nat) :
  for_each f xs = Return ys -> for_each f (skipn k xs) = Return (skipn k ys).
Proof.
  intros Heq. apply for_each_Return in Heq. apply for_each_Return. revert k.
  induction Heq as [|x y xs ys Hxy Hrest IH]; intros [|k]; simpl;
    try constructor; auto.
Qed.

Lemma chained_examples_all (self : Dataset.PSIDataset) (shard : list String.string)
    per_line :
  for_each (Dataset._prepare_line transform self) shard = Return per_line ->
  Dataset.chained_examples transform self shard = (concat per_line, None).
Proof.
  intros Heq. apply for_each_Return in Heq.
  induction Heq as [|line examples shard per_line Hline Hrest IH]; simpl.
  - reflexivity.
  - now rewrite Hline, IH.
Qed.

Lemma shuffled_buckets_all (self : Dataset.PSIDataset) :
  (forall n bucket, Permutation (shuffle n bucket) bucket) ->
  0 < Dataset._shuffle_bucket self ->
  forall fuel n shard per_line,
    (length shard < fuel)%nat ->
    for_each (Dataset._prepare_line transform self) shard = Return per_line ->
    exists yielded,
      Dataset.shuffled_buckets transform shuffle fuel n self shard = (yielded, None)
      /\ Permutation yielded (concat per_line).
Proof.
  intros Hshuffle Hbucket.
  induction fuel as [|fuel IH]; intros n shard per_line Hfuel Hall; [lia|].
  simpl. set (b := Z.to_nat (Dataset._shuffle_bucket self)).
  assert (Hb : (0 < b)%nat) by (unfold b; lia).
  rewrite (for_each_firstn _ _ b Hall).
  destruct (firstn b shard) as [|line bucket] eqn:Efirst.
  - exists (shuffle n (concat (firstn b per_line))). split; [reflexivity|].
    assert (Hshard : shard = []).
    { destruct shard; [reflexivity|]. destruct b; [lia|discriminate]. }
    subst shard. apply for_each_length in Hall.
    destruct per_line; [|discriminate]. rewrite firstn_nil. apply Hshuffle.
  - assert (Hshorter : (length (skipn b shard) < fuel)%nat).
    { assert (Hlen : (0 < length shard)%nat)
        by (destruct shard; [destruct b; discriminate|simpl; lia]).
      rewrite length_skipn. lia. }
    destruct (IH (S n) (skipn b shard) (skipn b per_line) Hshorter
                (for_each_skipn _ _ b Hall)) as (later & Hlater & Hperm).
    fold b. rewrite Hlater.
    exists (shuffle n (concat (firstn b per_line)) ++ later). split; [reflexivity|].
    apply Permutation_trans
      with (concat (firstn b per_line) ++ concat (skipn b per_line)).
    + apply Permutation_app; [apply Hshuffle|exact Hperm].
    + now rewrite <- concat_app, firstn_skipn.
Qed.

(** An iteration loses and repeats nothing.  When the worker's share of
    the file is read and each of its lines is prepared without an error,
    [__iter__] ends without an error; without shuffling it yields the
    examples of the lines in order, with shuffling in buckets of at least
    one line (and at most [sys.maxsize]) it yields a permutation of them
    whatever the shuffles are, and with buckets of size 0 it yields
    nothing. *)
Theorem iteration_yields_every_example_once
    (self : Dataset.PSIDataset) (worker_info : option (Z * Z))
    (lines shard : list String.string) per_line :
  (forall n bucket, Permutation (shuffle n bucket) bucket) ->
  Dataset._get_file_lines self lines
    (match worker_info with None => 0 | Some w => fst w end)
    (match worker_info with None => 1 | Some w => snd w end)
  = Return shard ->
  for_each (Dataset._prepare_line transform self) shard = Return per_line ->
  (Dataset._need_shuffle self = false ->
   Dataset.__iter__ transform shuffle self worker_info lines = (concat per_line, None))
  /\ (Dataset._need_shuffle self = true ->
      0 < Dataset._shuffle_bucket self <= Dataset.sys_maxsize ->
      exists yielded,
        Dataset.__iter__ transform shuffle self worker_info lines = (yielded, None)
        /\ Permutation yielded (concat per_line))
  /\ (Dataset._need_shuffle self = true ->
      Dataset._shuffle_bucket self = 0 ->
      Dataset.__iter__ transform shuffle self worker_info lines = ([], None)).
Proof.
  intros Hshuffle Hshard Hall. unfold Dataset.__iter__. rewrite Hshard.
  split; [|split].
  - intros ->. now apply chained_examples_all.
  - intros -> Hbucket.
    destruct (Z.ltb_spec (Dataset._shuffle_bucket self) 0); [lia|].
    destruct (Z.ltb_spec Dataset.sys_maxsize (Dataset._shuffle_bucket self)); [lia|].
    destruct (Z.eqb_spec (Dataset._shuffle_bucket self) 0); [lia|].
    apply shuffled_buckets_all; auto. lia.
  - intros -> Hbucket. rewrite Hbucket. simpl.
    pose proof (Hshuffle 0%nat []) as Hnil.
    apply Permutation_sym, Permutation_nil in Hnil.
    now rewrite Hnil.
Qed.

End Iteration.

(* ------------------------------------------------------------------ *)
(** * The token classes of the metrics *)

Section TokenClasses.

Local Open Scope Z_scope.

Lemma wrap64_in_range (z : Z) : - 2 ^ 63 <= z < 2 ^ 63 -> Metrics.wrap64 z = z.
Proof.
  intros Hz. unfold Metrics.wrap64. rewrite Z.mod_small; lia.
Qed.

(** The three classes of the single-token metrics (non-leaf, static leaf,
    BPE leaf), for indices of the tokenizer within 64 bits.  A label counts
    in two classes, as a non-leaf and as a BPE leaf, when it lies from the
    index of arbitrary tokens up to below the leaf index, and in one class
    otherwise; so the classes partition the labels when the leaf index is
    not above the index of arbitrary tokens. *)
Theorem token_classes_partition
    (tokenizer : Metrics.TreeTokenizer) (labels : list Z) (i : nat) (label : Z) :
  - 2 ^ 63 <= Metrics.leaf_start_index tokenizer < 2 ^ 63 ->
  - 2 ^ 63 <= Metrics.arbitrary_start_index tokenizer < 2 ^ 63 ->
  nth_error labels i = Some label ->
  exists a b c,
    nth_error (Metrics.nonleaf_mask tokenizer labels) i = Some a
    /\ nth_error (Metrics.staticleaf_mask tokenizer labels) i = Some b
    /\ nth_error (Metrics.bpe_mask tokenizer labels) i = Some c
    /\ (a = true <-> label < Metrics.leaf_start_index tokenizer)
    /\ (b = true <-> Metrics.leaf_start_index tokenizer <= label
                                < Metrics.arbitrary_start_index tokenizer)
    /\ (c = true <-> Metrics.arbitrary_start_index tokenizer <= label)
    /\ (Nat.b2n a + Nat.b2n b + Nat.b2n c)%nat
       = (if (Metrics.arbitrary_start_index tokenizer <=? label)
             && (label <? Metrics.leaf_start_index tokenizer)
          then 2%nat else 1%nat)
    /\ (Metrics.leaf_start_index tokenizer <= Metrics.arbitrary_start_index tokenizer ->
        (Nat.b2n a + Nat.b2n b + Nat.b2n c = 1)%nat).
Proof.
  intros Hleaf Harb Hlabel.
  unfold Metrics.nonleaf_mask, Metrics.staticleaf_mask, Metrics.bpe_mask.
  rewrite !nth_error_map, Hlabel, !wrap64_in_range by assumption. cbn [option_map].
  do 3 eexists. do 3 (split; [reflexivity|]).
  destruct (Z.ltb_spec label (Metrics.leaf_start_index tokenizer)),
           (Z.leb_spec (Metrics.leaf_start_index tokenizer) label),
           (Z.ltb_spec label (Metrics.arbitrary_start_index tokenizer)),
           (Z.leb_spec (Metrics.arbitrary_start_index tokenizer) label);
    cbn [andb Nat.b2n Nat.add]; try lia;
    repeat split; intros; try lia; try reflexivity; try discriminate.
Qed.

(** Beyond 64 bits an index wraps around: with the leaf index 5 and the
    index of arbitrary tokens [2^63], the label 3 counts as a non-leaf and
    as a BPE leaf. *)
Lemma oversized_index_counts_twice :
  Metrics.nonleaf_mask
    {| Metrics.leaf_start_index := 5; Metrics.arbitrary_start_index := 2 ^ 63 |} [3]
  = [true]
  /\ Metrics.bpe_mask
       {| Metrics.leaf_start_index := 5; Metrics.arbitrary_start_index := 2 ^ 63 |} [3]
     = [true].
Proof. split; reflexivity. Qed.

End TokenClasses.

(* ------------------------------------------------------------------ *)
(** * The further properties on concrete inputs *)

Section ConcreteSessions.

Lemma step_commits_children_witness :
  exists self0 old new tokens,
    ensure_initialized starved_decoder starved_log_probs = Ok self0
    /\ current_hypotheses self0 = Some old
    /\ current_hypotheses starved_decoder_after = Some new
    /\ last_predictions starved_decoder_after = Ok tokens
    /\ length new = length [0; 0]
    /\ length tokens = length [0; 0]
    /\ [0; 0] <> []
    /\ _length starved_decoder_after = _length starved_decoder + 1
    /\ (forall j parent_index,
          nth_error [0; 0] j = Some parent_index ->
          exists parent child token,
            nth_error old parent_index = Some parent
            /\ nth_error new j = Some child
            /\ nth_error tokens j = Some token
            /\ ids child = ids parent ++ [token]
            /\ add_id (tree_builder parent) token = (tree_builder child, CONTINUES)
            /\ is_terminated child = false).
Proof.
  exact (step_commits_children 1 topk_sorted starved_decoder starved_log_probs
           eq_refl starved_step).
Defined.

Lemma child_score_is_parent_plus_log_prob_witness :
  exists self0 old appended,
    ensure_initialized starved_decoder starved_log_probs = Ok self0
    /\ current_hypotheses self0 = Some old
    /\ _terminated_hypotheses starved_decoder_after
       = _terminated_hypotheses starved_decoder ++ appended
    /\ (forall h, In h appended ->
          exists parent_index parent token y,
            nth_error old parent_index = Some parent
            /\ ids h = ids parent ++ [token]
            /\ entry (log_softmax [[Fin (-1)%R; NegInf; NegInf; NegInf]]) parent_index token
               = Some y
            /\ score h = float_add y (score parent))
    /\ (forall mask, Returned (Some [0; 0]) = Returned (Some mask) ->
          exists new,
            current_hypotheses starved_decoder_after = Some new
            /\ forall j parent_index,
                 nth_error mask j = Some parent_index ->
                 exists parent child token y,
                   nth_error old parent_index = Some parent
                   /\ nth_error new j = Some child
                   /\ ids child = ids parent ++ [token]
                   /\ entry (log_softmax [[Fin (-1)%R; NegInf; NegInf; NegInf]])
                        parent_index token = Some y
                   /\ score child = float_add y (score parent)).
Proof.
  exact (child_score_is_parent_plus_log_prob 1 topk_sorted starved_decoder
           starved_log_probs topk_sorted_values eq_refl starved_step).
Defined.

Lemma wrong_width_first_call_spends_decoder_witness :
  exists self1,
    step 1 topk_sorted (__init__ 4 2 grammar_one_legal) two_log_probs
    = (self1, two_log_probs, Raised AssertionError)
    /\ step 1 topk_sorted self1 starved_log_probs
       = (self1, starved_log_probs,
          Raised (if _step_check self1 starved_log_probs then IndexError
                  else AssertionError)).
Proof.
  apply (@wrong_width_first_call_spends_decoder _ _ 1 topk_sorted 4 2 grammar_one_legal
           two_log_probs starved_log_probs).
  - discriminate.
  - simpl. lia.
Defined.

Lemma oversized_selection_raises_witness :
  (exists e, snd (step 1 topk_sorted (__init__ 2 3 grammar_one_legal) two_log_probs)
             = Raised e)
  /\ ensure_initialized (__init__ 2 3 grammar_one_legal) two_log_probs
     = Ok (fst (fst (step 1 topk_sorted (__init__ 2 3 grammar_one_legal) two_log_probs)))
  /\ _terminated_hypotheses
       (fst (fst (step 1 topk_sorted (__init__ 2 3 grammar_one_legal) two_log_probs)))
     = _terminated_hypotheses (__init__ 2 3 grammar_one_legal).
Proof.
  apply (oversized_selection_raises 1 topk_sorted (__init__ 2 3 grammar_one_legal)
           two_log_probs
           (caller := snd (fst (step 1 topk_sorted (__init__ 2 3 grammar_one_legal)
                                  two_log_probs)))).
  - reflexivity.
  - unfold num_candidates. simpl. lia.
  - now destruct (step 1 topk_sorted (__init__ 2 3 grammar_one_legal) two_log_probs)
      as [[self' caller] out].
Defined.

Lemma step_keeps_lockstep_witness : lockstep starved_decoder_after = true.
Proof.
  exact (step_keeps_lockstep 1 topk_sorted starved_decoder starved_log_probs
           eq_refl eq_refl starved_step).
Defined.

Lemma last_predictions_needs_a_committed_step_witness :
  (last_predictions starved_decoder_after = Err AssertionError
   <-> _length starved_decoder_after = 1)
  /\ (forall tokens, last_predictions starved_decoder_after = Ok tokens ->
        _length starved_decoder_after <> 1
        /\ length tokens = batch_size starved_decoder_after).
Proof.
  exact (last_predictions_needs_a_committed_step starved_decoder_after eq_refl eq_refl).
Defined.

End ConcreteSessions.

Section ConcreteEvaluation.

Local Open Scope R_scope.

Lemma default_postprocessor_base : 0 < _len_norm_base default_postprocessor.
Proof. simpl. lra. Qed.


Lemma get_top_k_best_first_witness :
  let key h := _normalize_score default_postprocessor (th_length h) (th_score h) in
  StronglySorted (fun a b => float_ltb (key a) (key b) = false)
    (get_top_k default_postprocessor [starved_hypothesis; exact_hypothesis] 1)
  /\ exists rest,
       Permutation
         (get_top_k default_postprocessor [starved_hypothesis; exact_hypothesis] 1 ++ rest)
         [starved_hypothesis; exact_hypothesis]
       /\ forall a b,
            In a (get_top_k default_postprocessor [starved_hypothesis; exact_hypothesis] 1) ->
            In b rest ->
            float_ltb (key a) (key b) = false.
Proof.
  apply (@get_top_k_best_first default_postprocessor
           [starved_hypothesis; exact_hypothesis] 1).
  - simpl. lra.
  - repeat constructor.
Defined.


(** The sample prediction at 1 and at 2: the starved hypothesis ranks last,
    and the exact one scores 100. *)
Lemma sample_prediction_top_2 :
  get_top_k default_postprocessor (Evaluation.hypotheses sample_prediction) 2
  = [exact_hypothesis; starved_hypothesis].
Proof. reflexivity. Qed.

Lemma sample_prediction_score_at_1 :
  Evaluation.evaluate_score Evaluation.levenshtein default_postprocessor
    sample_prediction 1
  = Return (Fin ((1 - INR 0 / INR 3) * 100)).
Proof. reflexivity. Qed.

Lemma sample_prediction_score_at_2 :
  Evaluation.evaluate_score Evaluation.levenshtein default_postprocessor
    sample_prediction 2
  = Return (Fin ((1 - INR 0 / INR 3) * 100)).
Proof.
  unfold Evaluation.evaluate_score. rewrite sample_prediction_top_2.
  cbn -[INR Rlt_dec]. 
  destruct (Rlt_dec ((1 - INR 0 / INR 3) * 100) ((1 - INR 1 / INR 3) * 100)) as [Hlt|Hge];
    [|reflexivity].
  exfalso. simpl in Hlt. lra.
Qed.

Lemma evaluate_score_is_best_similarity_witness :
  (exists h,
     In h (get_top_k default_postprocessor (Evaluation.hypotheses sample_prediction) 2)
     /\ Evaluation.edit_similarity Evaluation.levenshtein (prediction h)
          (Evaluation.target sample_prediction)
        = Return (Fin ((1 - INR 0 / INR 3) * 100)))
  /\ (forall h,
        In h (get_top_k default_postprocessor (Evaluation.hypotheses sample_prediction) 2) ->
        exists x,
          Evaluation.edit_similarity Evaluation.levenshtein (prediction h)
            (Evaluation.target sample_prediction)
          = Return x
          /\ float_ltb (Fin ((1 - INR 0 / INR 3) * 100)) x = false).
Proof.
  apply (evaluate_score_is_best_similarity Evaluation.levenshtein default_postprocessor
           sample_prediction 2).
  - simpl. lra.
  - exact sample_prediction_score_at_2.
Defined.

Lemma evaluate_score_grows_with_k_witness :
  exists s,
    Evaluation.evaluate_score Evaluation.levenshtein default_postprocessor
      sample_prediction 1
    = Return s
    /\ float_ltb (Fin ((1 - INR 0 / INR 3) * 100)) s = false.
Proof.
  apply (evaluate_score_grows_with_k Evaluation.levenshtein default_postprocessor
           sample_prediction (k := 1) (k' := 2)).
  - simpl. lra.
  - lia.
  - exact sample_prediction_score_at_2.
Defined.

Lemma edit_similarity_range_witness :
  (forall a b x,
     Evaluation.edit_similarity Evaluation.levenshtein a b = Return x ->
     exists r,
       x = Fin r /\ 0 <= r <= 100
       /\ (r = 100 <-> Evaluation.levenshtein (Evaluation.remove_spaces a)
                                              (Evaluation.remove_spaces b) = 0%nat))
  /\ (forall pp pred k s,
        Evaluation.evaluate_score Evaluation.levenshtein pp pred k = Return s ->
        exists r, s = Fin r /\ 0 <= r <= 100).
Proof.
  exact (edit_similarity_range Evaluation.levenshtein levenshtein_bound).
Defined.

End ConcreteEvaluation.

Section ConcreteDataset.

Local Open Scope Z_scope.

Lemma inverse_transformations_undo_witness :
  Facade._inverse_apply_transformations sample_transformations
    ["reverse"; "shift"]%string
    (Facade._apply_transformations sample_transformations
       ["reverse"; "shift"]%string [3; 1; 4]%nat)
  = [3; 1; 4]%nat.
Proof.
  apply (inverse_transformations_undo sample_transformations
           ["reverse"; "shift"]%string [3; 1; 4]%nat).
  intros name t nodes' [Heq|[Heq|[]]] _; injection Heq as <- <-; simpl.
  - rewrite map_map. simpl. apply map_id.
  - apply rev_involutive.
Defined.

Lemma sample_dataset_init (overlap : PrimFloat.float) (example_len rank world_size : Z) :
  0 <= rank < world_size ->
  PrimFloat.leb PrimFloat.zero overlap = true ->
  PrimFloat.ltb overlap PrimFloat.one = true ->
  Dataset.__init__ (sample_config overlap example_len) "train"%string rank world_size
  = Return (sample_dataset overlap example_len rank world_size).
Proof.
  intros Hrank Hl Hu. unfold Dataset.__init__.
  destruct (Z.leb_spec 0 rank); [|lia]. destruct (Z.ltb_spec rank world_size); [|lia].
  simpl. rewrite Hl, Hu. reflexivity.
Qed.

Lemma worker_reads_round_robin_witness :
  exists shard,
    Dataset._get_file_lines (sample_dataset Overlaps.one_half 4 1 2) sample_lines 1 2
    = Return shard
    /\ forall k : nat,
         nth_error shard k
         = nth_error sample_lines (Z.to_nat (1 * 2 + 1 + Z.of_nat k * (2 * 2))).
Proof.
  apply (@worker_reads_round_robin (sample_config Overlaps.one_half 4) "train"%string 1 2
           (sample_dataset Overlaps.one_half 4 1 2) sample_lines 1 2).
  - apply sample_dataset_init; [lia|reflexivity|reflexivity].
  - lia.
Defined.

Lemma shards_partition_the_file_witness :
  exists shards,
    for_each (fun sw => Dataset._get_file_lines (fst sw) sample_lines
                          (Z.of_nat (snd sw)) (Z.of_nat 2))
             (list_prod [sample_dataset Overlaps.one_half 4 0 2;
                         sample_dataset Overlaps.one_half 4 1 2]
                        (seq 0 2))
    = Return shards
    /\ Permutation (concat shards) sample_lines.
Proof.
  apply (@shards_partition_the_file (sample_config Overlaps.one_half 4) "train"%string
           2%nat 2%nat
           [sample_dataset Overlaps.one_half 4 0 2; sample_dataset Overlaps.one_half 4 1 2]
           sample_lines).
  - repeat constructor.
  - lia.
  - lia.
Defined.

Lemma zero_stride_raises_witness :
  Dataset._prepare_line sample_transform (sample_dataset Overlaps.nine_tenths 10 0 1)
    "line 0"%string
  = Raise Dataset.ValueError.
Proof.
  apply (@zero_stride_raises sample_transform (sample_config Overlaps.nine_tenths 10)
           "train"%string 0 1 (sample_dataset Overlaps.nine_tenths 10 0 1) "line 0"%string
           [10; 11; 12; 13; 14; 15; 16]).
  - reflexivity.
  - reflexivity.
  - reflexivity.
Defined.

Lemma prepare_line_windows_witness :
  exists examples,
    Dataset._prepare_line sample_transform (sample_dataset Overlaps.one_half 4 0 1) "line 0"%string
    = Return examples
    /\ length examples = Z.to_nat ((Dataset.len [10; 11; 12; 13; 14; 15; 16] + 2 - 1) / 2)
    /\ forall k inp labels,
         nth_error examples k = Some (inp, labels) ->
         (forall t,
            nth_error inp t
            = if Z.of_nat t <? 4
              then nth_error [10; 11; 12; 13; 14; 15; 16] (Z.to_nat (Z.of_nat k * 2) + t)
              else None)
         /\ (forall t,
               nth_error labels t
               = if Z.of_nat t <? 4
                 then match nth_error [10; 11; 12; 13; 14; 15; 16]
                              (Z.to_nat (Z.of_nat k * 2) + t + 1) with
                      | Some next =>
                          Some (if true && negb (k =? 0)%nat && (Z.of_nat t <? 2)
                                then -100 else next)
                      | None => None
                      end
                 else None).
Proof.
  apply (@prepare_line_windows sample_transform (sample_dataset Overlaps.one_half 4 0 1)
           "line 0"%string [10; 11; 12; 13; 14; 15; 16] 2 2).
  - reflexivity.
  - reflexivity.
  - reflexivity.
  - lia.
  - lia.
  - simpl. lia.
  - reflexivity.
  - reflexivity.
Defined.

(** A padding label beyond 64 bits: the slice assignment of the second
    example raises, and so does [_prepare_line]. *)
Lemma oversized_padding_raises :
  Dataset._prepare_line sample_transform
    {| Dataset._rank := 0;
       Dataset._world_size := 1;
       Dataset._data_path := "train.jsonl"%string;
       Dataset._need_shuffle := true;
       Dataset._shuffle_bucket := 1000;
       Dataset._overlap_slicing := Overlaps.one_half;
       Dataset._pad_overlapped := true;
       Dataset._example_len := 4;
       Dataset._labels_pad := 2 ^ 63 |}
    "line 0"%string
  = Raise Dataset.RuntimeError.
Proof. vm_compute. reflexivity. Qed.

Lemma sample_padding_is_no_token : ~ In (-100) [10; 11; 12; 13; 14; 15; 16].
Proof. simpl. intuition discriminate. Qed.

Lemma each_token_trained_once_witness :
  exists k t,
    Dataset.trains (sample_dataset Overlaps.one_half 4 0 1)
      [10; 11; 12; 13; 14; 15; 16] half_overlap_examples k t 5
    /\ forall k' t',
         Dataset.trains (sample_dataset Overlaps.one_half 4 0 1)
           [10; 11; 12; 13; 14; 15; 16] half_overlap_examples k' t' 5 ->
         k' = k /\ t' = t.
Proof.
  apply (@each_token_trained_once sample_transform (sample_dataset Overlaps.one_half 4 0 1)
           "line 0"%string [10; 11; 12; 13; 14; 15; 16] 2 2 half_overlap_examples 5).
  - reflexivity.
  - reflexivity.
  - reflexivity.
  - lia.
  - lia.
  - reflexivity.
  - reflexivity.
  - exact sample_padding_is_no_token.
  - reflexivity.
  - unfold Dataset.len. simpl. lia.
Defined.

Lemma short_overlap_trains_twice_witness :
  Dataset.trains (sample_dataset Overlaps.three_tenths 5 0 1)
    [10; 11; 12; 13; 14; 15; 16] three_tenths_overlap_examples 0 (Z.to_nat (5 - 1)) 5
  /\ Dataset.trains (sample_dataset Overlaps.three_tenths 5 0 1)
       [10; 11; 12; 13; 14; 15; 16] three_tenths_overlap_examples
       1 (Z.to_nat (5 - 3 - 1)) 5
  /\ exists inp labels,
       nth_error three_tenths_overlap_examples 1 = Some (inp, labels)
       /\ (forall t, Z.of_nat t < 1 ->
             nth_error labels t = Some (-100)
             /\ ~ Dataset.trains (sample_dataset Overlaps.three_tenths 5 0 1)
                    [10; 11; 12; 13; 14; 15; 16] three_tenths_overlap_examples
                    1 t (3 + Z.of_nat t + 1))
       /\ nth_error labels (Z.to_nat (5 - 3 - 1))
          = nth_error [10; 11; 12; 13; 14; 15; 16] (Z.to_nat 5).
Proof.
  apply (@short_overlap_trains_twice sample_transform
           (sample_dataset Overlaps.three_tenths 5 0 1)
           "line 0"%string [10; 11; 12; 13; 14; 15; 16] 3 1
           three_tenths_overlap_examples 5).
  - reflexivity.
  - reflexivity.
  - reflexivity.
  - lia.
  - lia.
  - reflexivity.
  - simpl. lia.
  - exact sample_padding_is_no_token.
  - reflexivity.
  - simpl. lia.
  - unfold Dataset.len. simpl. lia.
Defined.

Lemma iteration_yields_every_example_once_witness :
  (Dataset._need_shuffle (sample_dataset Overlaps.one_half 4 0 1) = false ->
   Dataset.__iter__ sample_transform reversing_shuffle
     (sample_dataset Overlaps.one_half 4 0 1) None sample_lines
   = (concat (repeat half_overlap_examples 7), None))
  /\ (Dataset._need_shuffle (sample_dataset Overlaps.one_half 4 0 1) = true ->
      0 < Dataset._shuffle_bucket (sample_dataset Overlaps.one_half 4 0 1)
        <= Dataset.sys_maxsize ->
      exists yielded,
        Dataset.__iter__ sample_transform reversing_shuffle
          (sample_dataset Overlaps.one_half 4 0 1) None sample_lines
        = (yielded, None)
        /\ Permutation yielded (concat (repeat half_overlap_examples 7)))
  /\ (Dataset._need_shuffle (sample_dataset Overlaps.one_half 4 0 1) = true ->
      Dataset._shuffle_bucket (sample_dataset Overlaps.one_half 4 0 1) = 0 ->
      Dataset.__iter__ sample_transform reversing_shuffle
        (sample_dataset Overlaps.one_half 4 0 1) None sample_lines
      = ([], None)).
Proof.
  apply (@iteration_yields_every_example_once sample_transform reversing_shuffle
           (sample_dataset Overlaps.one_half 4 0 1) None sample_lines sample_lines
           (repeat half_overlap_examples 7)).
  - intros n bucket. apply Permutation_sym, Permutation_rev.
  - reflexivity.
  - reflexivity.
Defined.

Lemma token_classes_partition_witness :
  exists a b c,
    nth_error (Metrics.nonleaf_mask sample_tokenizer [3; 6; 12]) 1 = Some a
    /\ nth_error (Metrics.staticleaf_mask sample_tokenizer [3; 6; 12]) 1 = Some b
    /\ nth_error (Metrics.bpe_mask sample_tokenizer [3; 6; 12]) 1 = Some c
    /\ (Nat.b2n a + Nat.b2n b + Nat.b2n c = 1)%nat.
Proof.
  destruct (@token_classes_partition sample_tokenizer [3; 6; 12] 1%nat 6)
    as (a & b & c & Ha & Hb & Hc & _ & _ & _ & _ & Hone).
  - simpl. lia.
  - simpl. lia.
  - reflexivity.
  - exists a, b, c. repeat split; try assumption. apply Hone. simpl. lia.
Defined.

End ConcreteDataset.
